(** * Laser geometry of Taisei: width model, segment builder, capsule
      distance, trace walker, collision and graze

    A shallow embedding of [src/lasers/laser.c] and of the parts of
    [src/util/geometry.c] it calls.

    The C code computes on [float], [double] ([real]) and [double complex]
    ([cmplx]).  The embedding is written once over an interface [Num] of the
    arithmetic the code uses, and read at two instances:

    - [R], the real numbers: every operation is exact.  The numeric
      identities of the width model and of the capsule distance are stated
      there; rounding, infinities and NaN are outside this reading.
    - [float], IEEE binary64 ([PrimFloat]): the code runs.  It is used to
      evaluate the code on concrete inputs, chosen dyadic so that the
      operations their results depend on do not round.

    The trace walker starts from the sentinel [INFINITY] and is therefore
    written over binary64 directly. *)

From Stdlib Require Import Floats String.
From Stdlib Require Import ZArith List Bool Lia.
From Stdlib Require Import Reals Lra Psatz.
Import ListNotations.

(** ** The arithmetic the code uses *)

Class Num (F : Type) : Type := {
  of_Z  : Z -> F;
  fadd  : F -> F -> F;
  fsub  : F -> F -> F;
  fmul  : F -> F -> F;
  fdiv  : F -> F -> F;
  fopp  : F -> F;
  fabs  : F -> F;           (* fabs, fabsf *)
  fsqrt : F -> F;           (* sqrt, sqrtf *)
  fceil : F -> Z;           (* ceilf, as an integer *)
  feqb  : F -> F -> bool;   (* == *)
  fltb  : F -> F -> bool;   (* <  *)
  fleb  : F -> F -> bool    (* <= *)
}.

Declare Scope num_scope.
Delimit Scope num_scope with num.
Infix "+" := fadd : num_scope.
Infix "-" := fsub : num_scope.
Infix "*" := fmul : num_scope.
Infix "/" := fdiv : num_scope.
Notation "- x" := (fopp x) : num_scope.
Infix "=?" := feqb (at level 70) : num_scope.
Infix "<?" := fltb (at level 70) : num_scope.
Infix "<=?" := fleb (at level 70) : num_scope.

(** Exact arithmetic. *)

Definition Reqb (x y : R) : bool := if Req_dec_T x y then true else false.
Definition Rltb (x y : R) : bool := if Rlt_dec x y then true else false.
Definition Rleb (x y : R) : bool := if Rle_dec x y then true else false.

Definition Rceil (x : R) : Z := (- Int_part (- x))%Z.

#[export] Instance Num_R : Num R := {|
  of_Z := IZR;
  fadd := Rplus; fsub := Rminus; fmul := Rmult; fdiv := Rdiv;
  fopp := Ropp; fabs := Rabs; fsqrt := sqrt; fceil := Rceil;
  feqb := Reqb; fltb := Rltb; fleb := Rleb
|}.

(** IEEE binary64. *)

Definition float_of_Z (z : Z) : float :=
  match z with
  | Z0 => PrimFloat.zero
  | Zpos _ => PrimFloat.of_uint63 (Uint63.of_Z z)
  | Zneg p => PrimFloat.opp (PrimFloat.of_uint63 (Uint63.of_Z (Zpos p)))
  end.

(** The least integer not below the finite [x = (-1)^s * m * 2^e]; 0 when
    [x] is infinite or not a number. *)
Definition float_ceil (x : float) : Z :=
  match Prim2SF x with
  | S754_finite s m e =>
      let n := if s then Zneg m else Zpos m in
      if (0 <=? e)%Z then (n * 2 ^ e)%Z else (- ((- n) / 2 ^ (- e)))%Z
  | _ => 0%Z
  end.

#[export] Instance Num_float : Num float := {|
  of_Z := float_of_Z;
  fadd := PrimFloat.add; fsub := PrimFloat.sub;
  fmul := PrimFloat.mul; fdiv := PrimFloat.div;
  fopp := PrimFloat.opp; fabs := PrimFloat.abs; fsqrt := PrimFloat.sqrt;
  fceil := float_ceil;
  feqb := PrimFloat.eqb; fltb := PrimFloat.ltb; fleb := PrimFloat.leb
|}.

(** ** Complex numbers and the helpers of [util/miscmath.h] *)

Record cmplx (F : Type) : Type := CMPLX { re : F; im : F }.
Arguments CMPLX {F} _ _.
Arguments re {F} _.
Arguments im {F} _.

Section Helpers.
Context {F : Type} {NF : Num F}.
Local Open Scope num_scope.

(** A decimal constant of the source, [n/d]. *)
Definition lit (n d : Z) : F := of_Z n / of_Z d.

(** Modelled from the spec: the header [util/miscmath.h] is not among the
    sources; [min], [max] and [clamp] are the usual ones. *)
Definition fmin (x y : F) : F := if x <? y then x else y.
Definition fmax (x y : F) : F := if x <? y then y else x.
Definition clamp (f lower upper : F) : F :=
  if f <? lower then lower else if upper <? f then upper else f.

Definition cadd (x y : cmplx F) : cmplx F := CMPLX (re x + re y) (im x + im y).
Definition csub (x y : cmplx F) : cmplx F := CMPLX (re x - re y) (im x - im y).
(** [c * f] and [c / f] for a real [f]: componentwise. *)
Definition cscale (c : cmplx F) (f : F) : cmplx F := CMPLX (re c * f) (im c * f).
Definition cdivr (c : cmplx F) (f : F) : cmplx F := CMPLX (re c / f) (im c / f).
Definition conj (c : cmplx F) : cmplx F := CMPLX (re c) (- im c).
Definition cmul_finite (x y : cmplx F) : cmplx F :=
  CMPLX (re x * re y - im x * im y) (re x * im y + im x * re y).
(** [x == y] on [cmplx]: both parts compare equal. *)
Definition ceqb (x y : cmplx F) : bool := (re x =? re y) && (im x =? im y).

(** Modelled from the spec: the complex helpers of [util/miscmath.h], which
    is not among the sources: the dot product and the cross product of two
    complex numbers read as plane vectors, the exchange of the two parts,
    the squared modulus, the modulus, the linear interpolation and the
    unit vector. *)
Definition cdot (x y : cmplx F) : F := re x * re y + im x * im y.
Definition ccross (x y : cmplx F) : F := re x * im y - im x * re y.
Definition cswap (c : cmplx F) : cmplx F := CMPLX (im c) (re c).
Definition cabs2 (c : cmplx F) : F := re c * re c + im c * im c.
Definition cabs (c : cmplx F) : F := fsqrt (cabs2 c).
Definition lerp (x y f : F) : F := x + (y - x) * f.
Definition clerp (x y : cmplx F) (f : F) : cmplx F :=
  CMPLX (lerp (re x) (re y) f) (lerp (im x) (im y) f).
Definition cnormalize (c : cmplx F) : cmplx F := cdivr c (cabs c).

End Helpers.

(** ** [util/geometry.c] *)

Record LineSegment (F : Type) : Type := mkLineSegment {
  ls_a : cmplx F;
  ls_b : cmplx F
}.
Arguments mkLineSegment {F} _ _.
Arguments ls_a {F} _.
Arguments ls_b {F} _.

Record Rect (F : Type) : Type := mkRect {
  top_left : cmplx F;
  bottom_right : cmplx F
}.
Arguments mkRect {F} _ _.
Arguments top_left {F} _.
Arguments bottom_right {F} _.

Record UnevenCapsule (F : Type) : Type := mkUnevenCapsule {
  uc_pos : LineSegment F;
  radius_a : F;
  radius_b : F
}.
Arguments mkUnevenCapsule {F} _ _ _.
Arguments uc_pos {F} _.
Arguments radius_a {F} _.
Arguments radius_b {F} _.

Section Geometry.
Context {F : Type} {NF : Num F}.
Local Open Scope num_scope.

Definition lineseg_closest_factor_impl (m v : cmplx F) : F :=
  let lm2 := cabs2 m in
  if lm2 =? of_Z 0 then of_Z 0
  else
    let f := (- re (cmul_finite v (conj m))) / lm2 in
    clamp f (of_Z 0) (of_Z 1).

Definition lineseg_closest_factor (seg : LineSegment F) (p : cmplx F) : F :=
  lineseg_closest_factor_impl (csub (ls_b seg) (ls_a seg)) (csub (ls_a seg) p).

Definition point_in_rect (p : cmplx F) (r : Rect F) : bool :=
  (re (top_left r) <=? re p) && (re p <=? re (bottom_right r)) &&
  (im (top_left r) <=? im p) && (im p <=? im (bottom_right r)).

(** The assertion [radius.b >= radius.a] at the head of the function is a
    debug-build check; it is [ucapsule_wf] below. *)
Definition ucapsule_wf (ucap : UnevenCapsule F) : bool :=
  radius_a ucap <=? radius_b ucap.

Definition ucapsule_dist_from_point (p : cmplx F) (ucap : UnevenCapsule F) : F :=
  let p := csub p (ls_a (uc_pos ucap)) in
  let pb := csub (ls_b (uc_pos ucap)) (ls_a (uc_pos ucap)) in
  let h := cabs2 pb in
  let q := cdivr (CMPLX (cdot p (conj (cswap pb))) (cdot p pb)) h in
  let q := CMPLX (fabs (re q)) (im q) in
  let b := radius_a ucap - radius_b ucap in
  let c := CMPLX (fsqrt (h - b * b)) b in
  let k := ccross c q in
  let m := cdot c q in
  let n := cabs2 q in
  if k <? of_Z 0 then fsqrt (h * n) - radius_a ucap
  else if re c <? k then fsqrt (h * (n + of_Z 1 - of_Z 2 * im q)) - radius_b ucap
  else m - radius_a ucap.

Definition lineseg_lineseg_intersection (seg0 seg1 : LineSegment F) : bool :=
  let p0_x := re (ls_a seg0) in
  let p0_y := im (ls_a seg0) in
  let p1_x := re (ls_b seg0) in
  let p1_y := im (ls_b seg0) in
  let p2_x := re (ls_a seg1) in
  let p2_y := im (ls_a seg1) in
  let p3_x := re (ls_b seg1) in
  let p3_y := im (ls_b seg1) in
  let s1_x := p1_x - p0_x in
  let s1_y := p1_y - p0_y in
  let s2_x := p3_x - p2_x in
  let s2_y := p3_y - p2_y in
  let d := (- s2_x) * s1_y + s1_x * s2_y in
  if d =? of_Z 0 then false
  else
    let s := ((- s1_y) * (p0_x - p2_x) + s1_x * (p0_y - p2_y)) / d in
    if (s <? of_Z 0) || (of_Z 1 <? s) then false
    else
      let t := (s2_x * (p0_y - p2_y) - s2_y * (p0_x - p2_x)) / d in
      if (t <? of_Z 0) || (of_Z 1 <? t) then false
      else true.

End Geometry.

(** ** Assertions

    [assert] and [assume] stop a debug build when their condition is false.
    A function that contains one returns [Checked]: [Ok] when every
    assertion it met held, [AssertFail] naming the first one that did not. *)

Inductive Checked (A : Type) : Type :=
| Ok (a : A)
| AssertFail (cond : string).
Arguments Ok {A} _.
Arguments AssertFail {A} _.

Definition bind {A B : Type} (c : Checked A) (k : A -> Checked B) : Checked B :=
  match c with
  | Ok a => k a
  | AssertFail cond => AssertFail cond
  end.

Definition assert (cond : bool) (name : string) : Checked unit :=
  if cond then Ok tt else AssertFail name.

Declare Scope checked_scope.
Delimit Scope checked_scope with checked.
Notation "x <- c ;; k" := (bind c (fun x => k))
  (at level 61, c at next level, right associativity) : checked_scope.
Notation "c ;;; k" := (bind c (fun _ => k))
  (at level 61, right associativity) : checked_scope.

(** ** [lasers/laser.c]: data *)

Record LaserSamplingParams (F : Type) : Type := mkLaserSamplingParams {
  num_samples : nat;
  time_shift : F;
  time_step : F
}.
Arguments mkLaserSamplingParams {F} _ _ _.
Arguments num_samples {F} _.
Arguments time_shift {F} _.
Arguments time_step {F} _.

Record LaserWidthParams (F : Type) : Type := mkLaserWidthParams {
  midpoint : F;
  tail : F;
  tail_factor : F;
  exponent : F;
  scale : F
}.
Arguments mkLaserWidthParams {F} _ _ _ _ _.
Arguments midpoint {F} _.
Arguments tail {F} _.
Arguments tail_factor {F} _.
Arguments exponent {F} _.
Arguments scale {F} _.

Record LaserSample (F : Type) : Type := mkLaserSample {
  sample_p : cmplx F;
  sample_t : F
}.
Arguments mkLaserSample {F} _ _.
Arguments sample_p {F} _.
Arguments sample_t {F} _.

(** [LaserSegment]: [pos], [width] and [time], each a pair [a], [b]. *)
Record LaserSegment (F : Type) : Type := mkLaserSegment {
  pos_a : cmplx F;  pos_b : cmplx F;
  width_a : F;      width_b : F;
  time_a : F;       time_b : F
}.
Arguments mkLaserSegment {F} _ _ _ _ _ _.
Arguments pos_a {F} _.
Arguments pos_b {F} _.
Arguments width_a {F} _.
Arguments width_b {F} _.
Arguments time_a {F} _.
Arguments time_b {F} _.

Record FloatRect (F : Type) : Type := mkFloatRect {
  rect_x : F; rect_y : F; rect_w : F; rect_h : F
}.
Arguments mkFloatRect {F} _ _ _ _.
Arguments rect_x {F} _.
Arguments rect_y {F} _.
Arguments rect_w {F} _.
Arguments rect_h {F} _.

(** The fields of [Laser] that the functions below read or write.  The
    rule is the function pointer of [LaserRule] with its data; it is given
    the laser's origin [pos] and the curve time. [bbox], [segments_ofs] and
    [num_segments] are the [_internal] part: the laser's range in the
    shared segment buffer. *)
Record Laser (F : Type) : Type := mkLaser {
  pos : cmplx F;
  rule : cmplx F -> F -> cmplx F;
  timespan : F;
  deathtime : F;
  timeshift : F;
  speed : F;
  width : F;
  width_exponent : F;
  birthtime : Z;
  next_graze : Z;
  collision_active : bool;
  unclearable : bool;
  bbox : Rect F;
  segments_ofs : Z;
  num_segments : Z
}.
Arguments mkLaser {F} _ _ _ _ _ _ _ _ _ _ _ _ _ _ _.
Arguments pos {F} _.
Arguments rule {F} _ _ _.
Arguments timespan {F} _.
Arguments deathtime {F} _.
Arguments timeshift {F} _.
Arguments speed {F} _.
Arguments width {F} _.
Arguments width_exponent {F} _.
Arguments birthtime {F} _.
Arguments next_graze {F} _.
Arguments collision_active {F} _.
Arguments unclearable {F} _.
Arguments bbox {F} _.
Arguments segments_ofs {F} _.
Arguments num_segments {F} _.

Definition set_bbox {F} (l : Laser F) (r : Rect F) : Laser F :=
  mkLaser (pos l) (rule l) (timespan l) (deathtime l) (timeshift l) (speed l)
    (width l) (width_exponent l) (birthtime l) (next_graze l)
    (collision_active l) (unclearable l) r (segments_ofs l) (num_segments l).

Definition set_width_active {F} (l : Laser F) (w : F) (active : bool) : Laser F :=
  mkLaser (pos l) (rule l) (timespan l) (deathtime l) (timeshift l) (speed l)
    w (width_exponent l) (birthtime l) (next_graze l)
    active (unclearable l) (bbox l) (segments_ofs l) (num_segments l).

Definition set_range {F} (l : Laser F) (ofs n : Z) : Laser F :=
  mkLaser (pos l) (rule l) (timespan l) (deathtime l) (timeshift l) (speed l)
    (width l) (width_exponent l) (birthtime l) (next_graze l)
    (collision_active l) (unclearable l) (bbox l) ofs n.

Definition set_next_graze {F} (l : Laser F) (g : Z) : Laser F :=
  mkLaser (pos l) (rule l) (timespan l) (deathtime l) (timeshift l) (speed l)
    (width l) (width_exponent l) (birthtime l) g
    (collision_active l) (unclearable l) (bbox l) (segments_ofs l) (num_segments l).

(** The player, as the collision pass reads it. *)
Record Player (F : Type) : Type := mkPlayer {
  plr_pos : cmplx F;
  plr_velocity : cmplx F
}.
Arguments mkPlayer {F} _ _.
Arguments plr_pos {F} _.
Arguments plr_velocity {F} _.

(** ** [lasers/laser.c]: width model, sampler, segment builder *)

Section LaserCode.
Context {F : Type} {NF : Num F}.
Local Open Scope num_scope.
Local Open Scope checked_scope.

(** [powf] of the C library, a parameter of the model. *)
Variable powf : F -> F -> F.

(** [l->rule.func(l, t, &l->rule.data)] *)
Definition laser_pos_at (l : Laser F) (t : F) : cmplx F := rule l (pos l) t.

(** [lasers/rules.c]: the linear and the accelerated rule, each given its
    data, then the laser's origin [l->pos] and the curve time. *)
Definition laser_rule_linear (velocity : cmplx F) (pos : cmplx F) (t : F) : cmplx F :=
  cadd pos (cscale velocity t).

Definition laser_rule_accelerated (velocity accel : cmplx F) (pos : cmplx F) (t : F)
    : cmplx F :=
  let half_accel := cscale accel (lit 1 2) in
  cadd pos (cscale (cadd velocity (cscale half_accel t)) t).

(** [frames] is [global.frames]. [None] is the return value [false];
    [ns], a [float] holding an integer, is kept as that integer. *)
Definition laser_prepare_sampling_params (frames : Z) (l : Laser F) (step : F)
    : option (LaserSamplingParams F) :=
  let c := timespan l in
  let t := of_Z (frames - birthtime l) * speed l - timespan l + timeshift l in
  let c :=
    if deathtime l + timeshift l <? t + timespan l
    then c + (deathtime l + timeshift l - (t + timespan l)) else c in
  let ct := if t <? of_Z 0 then (c + t, of_Z 0) else (c, t) in
  let c := fst ct in
  let t := snd ct in
  if c <=? of_Z 0 then None
  else
    let ns := fceil ((c + step) / step) in
    Some (mkLaserSamplingParams (Z.to_nat ns) t ((c + step) / of_Z ns)).

Definition calc_width_params (l : Laser F) : LaserWidthParams F :=
  let midpoint := timespan l * lit 1 2 in
  let tail := timespan l * lit 5 8 in
  let tail_factor := (- of_Z 1) / (tail * tail) in
  mkLaserWidthParams midpoint tail tail_factor (width_exponent l)
    (lit 3 4 * width l).

Definition calc_sample_width (wp : LaserWidthParams F) (t : F) : F :=
  let mid_ofs := t - midpoint wp in
  let w := tail_factor wp * (mid_ofs - tail wp) * (mid_ofs + tail wp) in
  let w := if negb (exponent wp =? of_Z 1) then powf w (exponent wp) else w in
  scale wp * w.

Definition laserseg_flip (s : LaserSegment F) : LaserSegment F :=
  mkLaserSegment (pos_b s) (pos_a s) (width_b s) (width_a s) (time_b s) (time_a s).

(** The loop of [fill_samples]: [n] iterations left, [array] the samples
    appended so far, [prev] the last of them, [t] the time of this
    iteration. *)
Fixpoint fill_samples_loop (l : Laser F) (sp : LaserSamplingParams F) (maxtime : F)
    (n : nat) (array : list (LaserSample F)) (prev : LaserSample F) (t : F)
    : list (LaserSample F) :=
  match n with
  | O => array
  | S n' =>
      let p := laser_pos_at l t in
      let t' := fmin (t + time_step sp) maxtime in
      if negb (ceqb (sample_p prev) p) then
        let s := mkLaserSample p t in
        fill_samples_loop l sp maxtime n' (array ++ [s]) s t'
      else
        fill_samples_loop l sp maxtime n' array prev t'
  end.

(** [dynarray_get_ptr(array, array->num_elements - 1)->t = maxtime] *)
Fixpoint set_last_t (array : list (LaserSample F)) (maxtime : F) : list (LaserSample F) :=
  match array with
  | [] => []
  | [s] => [mkLaserSample (sample_p s) maxtime]
  | s :: rest => s :: set_last_t rest maxtime
  end.

Definition fill_samples (sp : LaserSamplingParams F) (l : Laser F)
    : Checked (list (LaserSample F)) :=
  let t := time_shift sp in
  let maxtime := time_shift sp + timespan l in
  let prev := mkLaserSample (laser_pos_at l t) t in
  let t := t + time_step sp in
  let array := fill_samples_loop l sp maxtime (num_samples sp - 1) [prev] prev t in
  let array := set_last_t array maxtime in
  (if (1 <? List.length array)%nat then
     match nth_error array (List.length array - 2) with
     | Some s => assert (sample_t s <? maxtime) "second to last sample before maxtime"
     | None => Ok tt
     end
   else Ok tt) ;;;
  Ok array.

Definition segment_is_visible (a b : cmplx F) (bounds : FloatRect F) : bool :=
  let xa := re a in
  let ya := im a in
  let xb := re b in
  let yb := im b in
  let left := rect_x bounds in
  let right := left + rect_w bounds in
  let top := rect_y bounds in
  let bottom := top + rect_h bounds in
  if (left <=? xa) && (xa <=? right) && (top <=? ya) && (ya <=? bottom) then true
  else if (left <=? xb) && (xb <=? right) && (top <=? yb) && (yb <=? bottom) then true
  else if (xa <? left) && (xb <? left) then false
  else if (right <? xa) && (right <? xb) then false
  else if (ya <? top) && (yb <? top) then false
  else if (bottom <? ya) && (bottom <? yb) then false
  else if (left <=? xa) && (xa <=? right) && (left <=? xb) && (xb <=? right) then true
  else
    let m := (im a - im b) / (re a - re b) in
    let c := im a - m * re a in
    let y0 := m * left + c in
    let y1 := m * right + c in
    (top <=? fmax y0 y1) && (fmin y0 y1 <=? bottom).

(** [add_segment] appends to the shared buffer [lintern.segments] (here
    [segments]) and folds the endpoints into the laser's bounding box. The
    returned pointer [seg] is the last element of the new buffer. *)
Definition add_segment (segments : list (LaserSegment F)) (l : Laser F)
    (cseg : LaserSegment F) : Checked (list (LaserSegment F) * Laser F) :=
  let seg := cseg in
  let seg := if width_b cseg <? width_a cseg then laserseg_flip seg else seg in
  assert (width_a seg <=? width_b seg) "seg->width.a <= seg->width.b" ;;;
  let xa := re (pos_a cseg) in
  let ya := im (pos_a cseg) in
  let xb := re (pos_b cseg) in
  let yb := im (pos_b cseg) in
  let bb := bbox l in
  let top_left_x := fmin (re (top_left bb)) (fmin xa xb) in
  let top_left_y := fmin (im (top_left bb)) (fmin ya yb) in
  let bottom_right_x := fmax (re (bottom_right bb)) (fmax xa xb) in
  let bottom_right_y := fmax (im (bottom_right bb)) (fmax ya yb) in
  Ok (segments ++ [seg],
      set_bbox l (mkRect (CMPLX top_left_x top_left_y)
                         (CMPLX bottom_right_x bottom_right_y))).

(** Maximum value of [1 - cos(angle)] between two curve segments that are
    reduced to one straight line. *)
Definition thres_angular : F := lit 1 10000.

(** The turn measure [1 - |cos theta|] between [u] and [v], where [u_abs2]
    is the squared length of [u]; the assertion is [norm2 != 0]. *)
Definition turn_measure (u : cmplx F) (u_abs2 : F) (v : cmplx F) : Checked F :=
  let dot := cdot u v in
  let norm2 := u_abs2 * cabs2 v in
  assert (negb (norm2 =? of_Z 0)) "norm2 != 0" ;;;
  let norm := fsqrt norm2 in
  let cosTheta := dot / norm in
  Ok (of_Z 1 - fabs cosTheta).

(** The loop of [construct_segments] from the sample [sample] on, [rest']
    being the samples after it; [segments] and [l] are the shared buffer
    and the laser, [t0], [a], [w0], [v0], [v0_abs2] the loop's variables. *)
Fixpoint construct_segments_loop
    (sp : LaserSamplingParams F) (wp : LaserWidthParams F)
    (viewbounds : FloatRect F) (thres_temporal : F)
    (rest : list (LaserSample F))
    (segments : list (LaserSegment F)) (l : Laser F)
    (t0 : F) (a : cmplx F) (w0 : F) (v0 : cmplx F) (v0_abs2 : F)
    : Checked (list (LaserSegment F) * Laser F) :=
  match rest with
  | [] => Ok (segments, l)
  | sample :: rest' =>
      let b := sample_p sample in
      skip <-
        match rest' with
        | next :: _ =>
            (* sample != last_sample *)
            if sample_t sample - t0 <? thres_temporal then
              let v1 := csub b a in
              d <- turn_measure v0 v0_abs2 v1 ;;
              if d <? thres_angular then
                let c := sample_p next in
                let v2 := csub c b in
                d <- turn_measure v1 (cabs2 v1) v2 ;;
                Ok (d <? thres_angular)
              else Ok false
            else Ok false
        | [] => Ok false
        end ;;
      if (skip : bool) then
        construct_segments_loop sp wp viewbounds thres_temporal rest'
          segments l t0 a w0 v0 v0_abs2
      else
        let w := calc_sample_width wp (sample_t sample - time_shift sp) in
        sl <-
          (if segment_is_visible a b viewbounds then
             add_segment segments l
               (mkLaserSegment a b w0 w
                  (time_shift sp - t0) (time_shift sp - sample_t sample))
           else Ok (segments, l)) ;;
        let t0 := sample_t sample in
        let w0 := w in
        let v0 := csub b a in
        let v0_abs2 := cabs2 v0 in
        assert (negb (v0_abs2 =? of_Z 0)) "v0_abs2 != 0" ;;;
        construct_segments_loop sp wp viewbounds thres_temporal rest'
          (fst sl) (snd sl) t0 b w0 v0 v0_abs2
  end.

(** [construct_segments] reads the scratch array [lasers.samples], here
    [samples]; it is called on two samples or more. *)
Definition construct_segments (segments : list (LaserSegment F)) (l : Laser F)
    (sp : LaserSamplingParams F) (wp : LaserWidthParams F)
    (viewbounds : FloatRect F) (samples : list (LaserSample F))
    : Checked (list (LaserSegment F) * Laser F) :=
  let thres_temporal := of_Z (Z.of_nat (num_samples sp)) / of_Z 16 in
  match samples with
  | sample0 :: ((sample1 :: _) as rest) =>
      let t0 := sample_t sample0 in
      let a := sample_p sample0 in
      let w0 := calc_sample_width wp (of_Z 0) in
      let v0 := csub a (sample_p sample1) in
      let v0_abs2 := cabs2 v0 in
      assert (negb (v0_abs2 =? of_Z 0)) "v0_abs2 != 0" ;;;
      construct_segments_loop sp wp viewbounds thres_temporal rest
        segments l t0 a w0 v0 v0_abs2
  | _ => AssertFail "dynarray index in range"
  end.

(** The constants [VIEWPORT_W], [VIEWPORT_H] (the extent [VIEWPORT_SIZE])
    and [LASER_SDF_RANGE] are defined in headers that are not among the
    sources; they are parameters of the model. *)
Variables VIEWPORT_W VIEWPORT_H LASER_SDF_RANGE : F.

(** The viewport, inflated on every side by [viewmargin]. *)
Definition quantize_viewbounds (l : Laser F) : FloatRect F :=
  let viewmargin := LASER_SDF_RANGE + width l * lit 1 2 in
  mkFloatRect (of_Z 0 - viewmargin) (of_Z 0 - viewmargin)
    (VIEWPORT_W + viewmargin * of_Z 2) (VIEWPORT_H + viewmargin * of_Z 2).

(** [quantize_laser]: [frames] is [global.frames], [segments] the shared
    buffer. The value returned by the C function is [num_segments] of the
    laser returned here. *)
Definition quantize_laser (frames : Z) (segments : list (LaserSegment F))
    (l : Laser F) : Checked (list (LaserSegment F) * Laser F) :=
  let l := set_range l (Z.of_nat (List.length segments)) 0%Z in
  match laser_prepare_sampling_params frames l (lit 1 2) with
  | None =>
      let zero := CMPLX (of_Z 0) (of_Z 0) in
      Ok (segments, set_bbox l (mkRect zero zero))
  | Some sp =>
      assert (0 <? num_samples sp)%nat "sp.num_samples > 0" ;;;
      let viewbounds := quantize_viewbounds l in
      let wp := calc_width_params l in
      samples <- fill_samples sp l ;;
      match samples with
      | [] => AssertFail "dynarray index in range"
      | sample0 :: _ =>
          let l := set_bbox l (mkRect (sample_p sample0) (sample_p sample0)) in
          sl <-
            (if (List.length samples =? 1)%nat then
               let p := sample_p sample0 in
               if segment_is_visible p p viewbounds then
                 let w := calc_sample_width wp (sample_t sample0 - time_shift sp) in
                 let t := time_shift sp - sample_t sample0 in
                 add_segment segments l (mkLaserSegment p p w w t t)
               else Ok (segments, l)
             else construct_segments segments l sp wp viewbounds samples) ;;
          let segments := fst sl in
          let l := snd sl in
          let aabb_margin := LASER_SDF_RANGE + width l * lit 1 2 in
          let margin := CMPLX aabb_margin aabb_margin in
          let l := set_bbox l (mkRect (csub (top_left (bbox l)) margin)
                                      (cadd (bottom_right (bbox l)) margin)) in
          Ok (segments,
              set_range l (segments_ofs l)
                (Z.of_nat (List.length segments) - segments_ofs l))
      end
  end.

(** ** [lasers/laser.c]: charge envelope, collision and graze *)

Definition laser_charge (l : Laser F) (t : Z) (charge width : F) : Laser F :=
  let t := of_Z t in
  let new_width :=
    if t <? charge - of_Z 10 then
      fmin (of_Z 2) (of_Z 2 * t / fmin (of_Z 30) (charge - of_Z 10))
    else if (charge - of_Z 10 <=? t) && (t <? deathtime l - of_Z 20) then
      fmin width (lit 17 10 + width / of_Z 20 * (t - charge + of_Z 10))
    else if deathtime l - of_Z 20 <=? t then
      fmax (of_Z 0) (width - width / of_Z 20 * (t - deathtime l + of_Z 20))
    else width in
  set_width_active l new_width (width * lit 6 10 <? new_width).

Definition laser_is_active (l : Laser F) : bool := collision_active l.

Definition laser_bbox_rect (l : Laser F) : Rect F :=
  mkRect (top_left (bbox l)) (bottom_right (bbox l)).

(** [UnevenCapsule c] of the loop of [laser_collision], for the segment
    [lseg]. *)
Definition hit_capsule (lseg : LaserSegment F) : UnevenCapsule F :=
  mkUnevenCapsule (mkLineSegment (pos_a lseg) (pos_b lseg))
    (fmax (width_a lseg * lit 1 2 - of_Z 4) (of_Z 2))
    (fmax (width_b lseg * lit 1 2 - of_Z 4) (of_Z 2)).

(** The loop of [laser_collision] over the laser's segments: [None] when
    the loop returns [true] (a hit), else the graze distance and position
    it leaves. *)
Fixpoint laser_collision_loop (plrpos : cmplx F) (player_moved : bool)
    (plrmotion : LineSegment F) (graze : bool)
    (segs : list (LaserSegment F)) (graze_dist : F) (graze_pos : cmplx F)
    : option (F * cmplx F) :=
  match segs with
  | [] => Some (graze_dist, graze_pos)
  | lseg :: segs' =>
      let s := mkLineSegment (pos_a lseg) (pos_b lseg) in
      if player_moved && lineseg_lineseg_intersection plrmotion s then None
      else
        let c := hit_capsule lseg in
        let d := ucapsule_dist_from_point plrpos c in
        if d <? of_Z 0 then None
        else if graze && (d <? graze_dist) then
          let f := lineseg_closest_factor (uc_pos c) plrpos in
          let graze_pos := clerp (ls_a (uc_pos c)) (ls_b (uc_pos c)) f in
          let v := cnormalize (csub plrpos graze_pos) in
          (* [clerp] of the two real widths is their [lerp] *)
          let graze_pos :=
            cadd graze_pos (cscale v (lit 1 2 * lerp (width_a lseg) (width_b lseg) f)) in
          laser_collision_loop plrpos player_moved plrmotion graze segs' d graze_pos
        else
          laser_collision_loop plrpos player_moved plrmotion graze segs'
            graze_dist graze_pos
  end.

(** The outcome of one call of [laser_collision]: its return value, the
    laser as it leaves it, and the position given to [player_graze] when
    the call invokes it. *)
Record CollisionResult : Type := mkCollisionResult {
  hit : bool;
  laser_after : Laser F;
  grazed : option (cmplx F)
}.

(** [frames] is [global.frames], [segments] the shared buffer
    [lintern.segments]. *)
Definition laser_collision (frames : Z) (segments : list (LaserSegment F))
    (l : Laser F) (plr : Player F) : CollisionResult :=
  if negb (laser_is_active l) then mkCollisionResult false l None
  else
    let num_segs := num_segments l in
    if (num_segs <? 1)%Z then mkCollisionResult false l None
    else
      let graze := (next_graze l <=? frames)%Z in
      let graze_maxdist := of_Z 42 in
      let graze_dist := graze_maxdist in
      let graze_pos := CMPLX (of_Z 0) (of_Z 0) in
      let bbox := laser_bbox_rect l in
      let bbox :=
        if graze then
          let graze_bbox_ofs := CMPLX graze_dist graze_dist in
          mkRect (csub (top_left bbox) graze_bbox_ofs)
                 (cadd (bottom_right bbox) graze_bbox_ofs)
        else bbox in
      if negb (point_in_rect (plr_pos plr) bbox) then mkCollisionResult false l None
      else
        let segs := firstn (Z.to_nat num_segs)
                      (skipn (Z.to_nat (segments_ofs l)) segments) in
        let plrpos := plr_pos plr in
        let player_moved :=
          negb (ceqb (plr_velocity plr) (CMPLX (of_Z 0) (of_Z 0))) in
        let plrmotion := mkLineSegment (csub plrpos (plr_velocity plr)) plrpos in
        match laser_collision_loop plrpos player_moved plrmotion graze segs
                graze_dist graze_pos with
        | None => mkCollisionResult true l None
        | Some (graze_dist, graze_pos) =>
            if graze_dist <? graze_maxdist then
              mkCollisionResult false (set_next_graze l (frames + 4)%Z)
                (Some graze_pos)
            else mkCollisionResult false l None
        end.

End LaserCode.

(** ** [lasers/laser.c]: the trace walker, over binary64

    [real] is [double] and [cmplx] is [double complex]. *)

Module Trace.
Local Open Scope num_scope.

Record LaserTraceSample : Type := mkLaserTraceSample {
  ts_pos : cmplx float;
  ts_segment : option (LaserSegment float);   (* [None]: the null pointer *)
  segment_param : float;
  discontinuous : bool
}.

(** The fields of [LaserTraceState] that change during the walk; [l],
    [func], [userdata] and [step] are arguments of the functions below. *)
Record LaserTraceState : Type := mkLaserTraceState {
  st_sample : LaserTraceSample;
  st_p : cmplx float;
  st_accum : float;
  st_inverse_seglen : float
}.

(** A run of a loop or of a recursion that C does not bound: [fuel] bounds
    it here, and [OutOfFuel] is the run that did not end within it. *)
Inductive Outcome (A : Type) : Type :=
| Done (a : A)
| OutOfFuel.
Arguments Done {A} _.
Arguments OutOfFuel {A}.

Section Walk.
(** The callback's user data, which it may update, and the non-null
    pointers it may return; [None] is [NULL]. *)
Variables U P : Type.

Definition LaserTraceFunc : Type :=
  Laser float -> LaserTraceSample -> U -> option P * U.

Variable l : Laser float.
Variable step : float.
Variable func : LaserTraceFunc.

Definition laser_trace_dispatch (st : LaserTraceState) (userdata : U) : option P * U :=
  func l (st_sample st) userdata.

Fixpoint laser_trace_advance (fuel : nat) (st : LaserTraceState) (userdata : U)
    (v : cmplx float) (len : float) : Outcome (option P * LaserTraceState * U) :=
  match fuel with
  | O => OutOfFuel
  | S fuel' =>
      let full := len in
      let len := fmin len (step - st_accum st) in
      let sample := st_sample st in
      let st := mkLaserTraceState
                  (mkLaserTraceSample (ts_pos sample) (ts_segment sample)
                     (segment_param sample + len * st_inverse_seglen st)
                     (discontinuous sample))
                  (cadd (st_p st) (cscale v len))
                  (st_accum st + len)
                  (st_inverse_seglen st) in
      let dispatched :=
        if step <=? st_accum st then
          let sample := st_sample st in
          let st := mkLaserTraceState
                      (mkLaserTraceSample (st_p st) (ts_segment sample)
                         (segment_param sample) (discontinuous sample))
                      (st_p st)
                      (st_accum st - step)
                      (st_inverse_seglen st) in
          let (result, userdata) := laser_trace_dispatch st userdata in
          (result, st, userdata)
        else (None, st, userdata) in
      match dispatched with
      | (Some result, st, userdata) => Done (Some result, st, userdata)
      | (None, st, userdata) =>
          if of_Z 0 <? full - len then
            laser_trace_advance fuel' st userdata v (full - len)
          else Done (None, st, userdata)
      end
  end.

(** [while(len >= pstep) { ... }] of [laser_trace]. *)
Fixpoint laser_trace_steps (fuel : nat) (st : LaserTraceState) (userdata : U)
    (v : cmplx float) (len pstep : float)
    : Outcome (option P * LaserTraceState * U * float) :=
  match fuel with
  | O => OutOfFuel
  | S fuel' =>
      if pstep <=? len then
        match laser_trace_advance fuel st userdata v pstep with
        | OutOfFuel => OutOfFuel
        | Done (Some result, st, userdata) => Done (Some result, st, userdata, len)
        | Done (None, st, userdata) =>
            laser_trace_steps fuel' st userdata v (len - pstep) pstep
        end
      else Done (None, st, userdata, len)
  end.

(** The body of [for(int seg = first_seg; seg <= last_seg; ++seg)], on the
    segments [segs] of the laser's range that are left. *)
Fixpoint laser_trace_segments (fuel : nat) (segs : list (LaserSegment float))
    (st : LaserTraceState) (userdata : U) (prev_endpos : cmplx float)
    : Outcome (option P * U) :=
  match segs with
  | [] => Done (None, userdata)
  | s :: segs' =>
      let s := if negb (ceqb prev_endpos (pos_a s)) && ceqb prev_endpos (pos_b s)
               then laserseg_flip s else s in
      let v := csub (pos_b s) (pos_a s) in
      let len := cabs v in
      let inverse_seglen := of_Z 1 / len in
      let v := cscale v inverse_seglen in
      let st := mkLaserTraceState
                  (mkLaserTraceSample (ts_pos (st_sample st)) (Some s) (of_Z 0)
                     (discontinuous (st_sample st)))
                  (st_p st) (st_accum st) inverse_seglen in
      let first :=
        if negb (ceqb prev_endpos (pos_a s)) then
          (* discontinuity, or first segment *)
          let st := mkLaserTraceState
                      (mkLaserTraceSample (pos_a s) (Some s) (of_Z 0) true)
                      (pos_a s) (of_Z 0) inverse_seglen in
          let (result, userdata) := laser_trace_dispatch st userdata in
          let st' := mkLaserTraceState
                       (mkLaserTraceSample (pos_a s) (Some s) (of_Z 0) false)
                       (pos_a s) (of_Z 0) inverse_seglen in
          (result, st', userdata)
        else (None, st, userdata) in
      match first with
      | (Some result, _, userdata) => Done (Some result, userdata)
      | (None, st, userdata) =>
          let pstep := step * of_Z 1 in
          match laser_trace_steps fuel st userdata v len pstep with
          | OutOfFuel => OutOfFuel
          | Done (Some result, _, userdata, _) => Done (Some result, userdata)
          | Done (None, st, userdata, len) =>
              (* [laser_trace_advance(&st, v, len);] the result is not read *)
              match laser_trace_advance fuel st userdata v len with
              | OutOfFuel => OutOfFuel
              | Done (_, st, userdata) =>
                  laser_trace_segments fuel segs' st userdata (pos_b s)
              end
          end
      end
  end.

(** [segments] is the shared buffer [lintern.segments]. *)
Definition laser_trace (fuel : nat) (segments : list (LaserSegment float))
    (userdata : U) : Outcome (option P * U) :=
  if (num_segments l <? 1)%Z then Done (None, userdata)
  else
    let first_seg := segments_ofs l in
    let segs := firstn (Z.to_nat (num_segments l))
                  (skipn (Z.to_nat first_seg) segments) in
    match segs with
    | [] => Done (None, userdata)
    | seg0 :: _ =>
        let zero := of_Z 0 in
        let st := mkLaserTraceState
                    (mkLaserTraceSample (CMPLX zero zero) None zero false)
                    (pos_a seg0) zero zero in
        let prev_endpos := CMPLX infinity zero in
        laser_trace_segments fuel segs st userdata prev_endpos
    end.

End Walk.

Arguments laser_trace_dispatch {U P} _ _ _ _.
Arguments laser_trace_advance {U P} _ _ _ _ _ _ _ _.
Arguments laser_trace_steps {U P} _ _ _ _ _ _ _ _ _.
Arguments laser_trace_segments {U P} _ _ _ _ _ _ _ _.
Arguments laser_trace {U P} _ _ _ _ _ _.

End Trace.

(** ** [util/geometry.c]: rectangles, ellipses and circles *)

Record Ellipse (F : Type) : Type := mkEllipse {
  e_origin : cmplx F;
  e_axes : cmplx F;     (* the two diameters *)
  e_angle : F
}.
Arguments mkEllipse {F} _ _ _.
Arguments e_origin {F} _.
Arguments e_axes {F} _.
Arguments e_angle {F} _.

Record Circle (F : Type) : Type := mkCircle {
  c_origin : cmplx F;
  c_radius : F
}.
Arguments mkCircle {F} _ _.
Arguments c_origin {F} _.
Arguments c_radius {F} _.

Section GeometryShapes.
Context {F : Type} {NF : Num F}.
Local Open Scope num_scope.
Local Open Scope checked_scope.

(** Modelled from the spec: [cdir] of [util/miscmath.h], the unit vector
    of a given angle; the header and the C library's [cos] and [sin] are
    not among the sources. It is a parameter of the model. *)
Variable cdir : F -> cmplx F.

(** Modelled from the spec: the accessors of [util/geometry.h] and the
    componentwise helpers of [util/miscmath.h], none among the sources:
    the sides of a rectangle, the componentwise product and quotient, and
    [csort], which puts the smaller part first. *)
Definition rect_left (r : Rect F) : F := re (top_left r).
Definition rect_right (r : Rect F) : F := re (bottom_right r).
Definition rect_top (r : Rect F) : F := im (top_left r).
Definition rect_bottom (r : Rect F) : F := im (bottom_right r).
Definition cwmul (x y : cmplx F) : cmplx F := CMPLX (re x * re y) (im x * im y).
Definition cwdiv (x y : cmplx F) : cmplx F := CMPLX (re x / re y) (im x / im y).
Definition csort (c : cmplx F) : cmplx F := if im c <? re c then cswap c else c.

Definition ellipse_bbox (e : Ellipse F) : Rect F :=
  let largest_radius := fmax (re (e_axes e)) (im (e_axes e)) * lit 1 2 in
  let d := CMPLX largest_radius largest_radius in
  mkRect (csub (e_origin e) d) (cadd (e_origin e) d).

Definition point_in_ellipse (p : cmplx F) (e : Ellipse F) : bool :=
  let e_bbox := ellipse_bbox e in
  if negb (point_in_rect p e_bbox) then false
  else
    let p := csub p (e_origin e) in
    let dir := cdir (e_angle e) in
    let dotcross := CMPLX (cdot p dir) (ccross p dir) in
    let dotcross2 := cwmul dotcross dotcross in
    let terms := cwdiv dotcross2 (cwmul (e_axes e) (e_axes e)) in
    re terms + im terms <=? lit 1 4.

Definition lineseg_bbox (seg : LineSegment F) : Rect F :=
  let rmm := csort (CMPLX (re (ls_a seg)) (re (ls_b seg))) in
  let imm := csort (CMPLX (im (ls_a seg)) (im (ls_b seg))) in
  mkRect (CMPLX (re rmm) (re imm)) (CMPLX (im rmm) (im imm)).

Definition rect_in_rect (inner outer : Rect F) : bool :=
  (rect_left outer <=? rect_left inner) &&
  (rect_right inner <=? rect_right outer) &&
  (rect_top outer <=? rect_top inner) &&
  (rect_bottom inner <=? rect_bottom outer).

Definition rect_rect_intersect (r1 r2 : Rect F) (edges corners : bool) : bool :=
  if (rect_bottom r1 <? rect_top r2) ||
     (rect_bottom r2 <? rect_top r1) ||
     (rect_right r2 <? rect_left r1) ||
     (rect_right r1 <? rect_left r2)
  then false   (* not even touching *)
  else if negb edges &&
          ((rect_bottom r1 =? rect_top r2) ||
           (rect_top r1 =? rect_bottom r2) ||
           (rect_left r1 =? rect_right r2) ||
           (rect_right r1 =? rect_left r2))
  then false   (* discard edge intersects *)
  else if negb corners &&
          (((rect_left r1 =? rect_right r2) && (rect_bottom r1 =? rect_top r2)) ||
           ((rect_left r1 =? rect_right r2) && (rect_bottom r2 =? rect_top r1)) ||
           ((rect_left r2 =? rect_right r1) && (rect_bottom r1 =? rect_top r2)) ||
           ((rect_left r2 =? rect_right r1) && (rect_bottom r2 =? rect_top r1)))
  then false   (* discard corner intersects *)
  else true.

(** [None] is the return value [false], which leaves [*out] as it was. *)
Definition rect_rect_intersection (r1 r2 : Rect F) (edges corners : bool)
    : option (Rect F) :=
  if negb (rect_rect_intersect r1 r2 edges corners) then None
  else
    Some (mkRect
            (CMPLX (fmax (rect_left r1) (rect_left r2))
                   (fmax (rect_top r1) (rect_top r2)))
            (CMPLX (fmin (rect_right r1) (rect_right r2))
                   (fmin (rect_bottom r1) (rect_bottom r2)))).

(** The return value and [*r1] as the call leaves it. *)
Definition rect_join (r1 r2 : Rect F) : bool * Rect F :=
  if rect_in_rect r2 r1 then (true, r1)
  else if rect_in_rect r1 r2 then (true, r2)
  else if negb (rect_rect_intersect r1 r2 true false) then (false, r1)
  else if (rect_left r1 =? rect_left r2) && (rect_right r1 =? rect_right r2) then
    (* r2 is directly above/below r1 *)
    let y_min := fmin (rect_top r1) (rect_top r2) in
    let y_max := fmax (rect_bottom r1) (rect_bottom r2) in
    (true, mkRect (CMPLX (re (top_left r1)) y_min)
                  (CMPLX (re (bottom_right r1)) y_max))
  else if (rect_top r1 =? rect_top r2) && (rect_bottom r1 =? rect_bottom r2) then
    (* r2 is directly left/right to r1 *)
    let x_min := fmin (rect_left r1) (rect_left r2) in
    let x_max := fmax (rect_right r1) (rect_right r2) in
    (true, mkRect (CMPLX x_min (im (top_left r1)))
                  (CMPLX x_max (im (bottom_right r1))))
  else (false, r1).

(** [lineseg_lineseg_intersection] called with a non-null [out]: [Some q]
    is the return value [true] with [q] written to [*out], [None] the
    return value [false], which leaves [*out] as it was. *)
Definition lineseg_lineseg_intersection_out (seg0 seg1 : LineSegment F)
    : option (cmplx F) :=
  let p0_x := re (ls_a seg0) in
  let p0_y := im (ls_a seg0) in
  let p1_x := re (ls_b seg0) in
  let p1_y := im (ls_b seg0) in
  let p2_x := re (ls_a seg1) in
  let p2_y := im (ls_a seg1) in
  let p3_x := re (ls_b seg1) in
  let p3_y := im (ls_b seg1) in
  let s1_x := p1_x - p0_x in
  let s1_y := p1_y - p0_y in
  let s2_x := p3_x - p2_x in
  let s2_y := p3_y - p2_y in
  let d := (- s2_x) * s1_y + s1_x * s2_y in
  if d =? of_Z 0 then None
  else
    let s := ((- s1_y) * (p0_x - p2_x) + s1_x * (p0_y - p2_y)) / d in
    if (s <? of_Z 0) || (of_Z 1 <? s) then None
    else
      let t := (s2_x * (p0_y - p2_y) - s2_y * (p0_x - p2_x)) / d in
      if (t <? of_Z 0) || (of_Z 1 <? t) then None
      else Some (CMPLX (p0_x + t * s1_x) (p0_y + t * s1_y)).

Definition segment_ellipse_nonintersection_heuristic (seg : LineSegment F)
    (e : Ellipse F) : bool :=
  let seg_bbox := lineseg_bbox seg in
  let e_bbox := ellipse_bbox e in
  negb (rect_rect_intersect seg_bbox e_bbox true true).

Definition lineseg_closest_point (seg : LineSegment F) (p : cmplx F) : cmplx F :=
  clerp (ls_a seg) (ls_b seg)
    (lineseg_closest_factor_impl (csub (ls_b seg) (ls_a seg)) (csub (ls_a seg) p)).

Definition lineseg_circle_intersect_fallback (seg : LineSegment F) (c : Circle F) : F :=
  let rad2 := c_radius c * c_radius c in
  let f := lineseg_closest_factor_impl (csub (ls_b seg) (ls_a seg))
             (csub (ls_a seg) (c_origin c)) in
  let p := clerp (ls_a seg) (ls_b seg) f in
  if cabs2 (csub p (c_origin c)) <=? rad2 then f else - of_Z 1.

(** [assert(0 && "Bad ellipse")] stops a debug build when the ratio of the
    axes is zero or not a number. *)
Definition lineseg_ellipse_intersect (seg : LineSegment F) (e : Ellipse F)
    : Checked bool :=
  if segment_ellipse_nonintersection_heuristic seg e then Ok false
  else
    let a := csub (ls_a seg) (e_origin e) in
    let b := csub (ls_b seg) (e_origin e) in
    let ratio := re (e_axes e) / im (e_axes e) in
    if negb (ratio =? ratio) || (ratio =? of_Z 0) then AssertFail "Bad ellipse"
    else
      let rotation := cdir (- e_angle e) in
      let a := cmul_finite a rotation in
      let b := cmul_finite b rotation in
      let a := CMPLX (re a) (im a * ratio) in
      let b := CMPLX (re b) (im b * ratio) in
      let c := mkCircle (CMPLX (of_Z 0) (of_Z 0)) (re (e_axes e) * lit 1 2) in
      Ok (of_Z 0 <=? lineseg_circle_intersect_fallback (mkLineSegment a b) c).

Definition lineseg_circle_intersect (seg : LineSegment F) (c : Circle F) : F :=
  let e := mkEllipse (c_origin c)
             (CMPLX (of_Z 2 * c_radius c) (of_Z 2 * c_radius c)) (of_Z 0) in
  if segment_ellipse_nonintersection_heuristic seg e then - of_Z 1
  else lineseg_circle_intersect_fallback seg c.

(** ** [lasers/laser.c]: queries and mutators *)

(** [laser_intersects_ellipse]: [segments] is the shared buffer. *)
Fixpoint laser_intersects_ellipse_loop (segs : list (LaserSegment F)) (e : Ellipse F)
    : Checked bool :=
  match segs with
  | [] => Ok false
  | lseg :: segs' =>
      let s := mkLineSegment (pos_a lseg) (pos_b lseg) in
      hit <- lineseg_ellipse_intersect s e ;;
      if (hit : bool) then Ok true else laser_intersects_ellipse_loop segs' e
  end.

Definition laser_intersects_ellipse (segments : list (LaserSegment F)) (l : Laser F)
    (ellipse : Ellipse F) : Checked bool :=
  let num_segs := num_segments l in
  if (num_segs <? 1)%Z then Ok false
  else
    let e_bbox := ellipse_bbox ellipse in
    let l_bbox := laser_bbox_rect l in
    if negb (rect_rect_intersect e_bbox l_bbox true true) then Ok false
    else
      let segs := firstn (Z.to_nat num_segs)
                    (skipn (Z.to_nat (segments_ofs l)) segments) in
      laser_intersects_ellipse_loop segs ellipse.

Definition laser_intersects_circle (segments : list (LaserSegment F)) (l : Laser F)
    (circle : Circle F) : Checked bool :=
  let ellipse := mkEllipse (c_origin circle)
                   (CMPLX (c_radius circle * of_Z 2) (c_radius circle * of_Z 2))
                   (of_Z 0) in
  laser_intersects_ellipse segments l ellipse.

End GeometryShapes.

Section LaserMutators.
Context {F : Type} {NF : Num F}.
Local Open Scope num_scope.

Definition set_pos_rule (l : Laser F) (p : cmplx F) (r : cmplx F -> F -> cmplx F)
    : Laser F :=
  mkLaser p r (timespan l) (deathtime l) (timeshift l) (speed l)
    (width l) (width_exponent l) (birthtime l) (next_graze l)
    (collision_active l) (unclearable l) (bbox l) (segments_ofs l) (num_segments l).

Definition set_speed_timeshift (l : Laser F) (s ts : F) : Laser F :=
  mkLaser (pos l) (rule l) (timespan l) (deathtime l) ts s
    (width l) (width_exponent l) (birthtime l) (next_graze l)
    (collision_active l) (unclearable l) (bbox l) (segments_ofs l) (num_segments l).

(** [laserline_set_ab], on a laser whose rule is the linear one: the data
    of the rule gets the new velocity. *)
Definition laserline_set_ab (l : Laser F) (a b : cmplx F) : Laser F :=
  set_pos_rule l a (laser_rule_linear (cdivr (csub b a) (timespan l))).

(** [laserline_set_posdir]: [VIEWPORT_H] is defined in a header that is
    not among the sources and is a parameter. *)
Definition laserline_set_posdir (VIEWPORT_H : F) (l : Laser F) (pos dir : cmplx F)
    : Laser F :=
  laserline_set_ab l pos (cadd pos (cscale (cnormalize dir) VIEWPORT_H)).

Definition laser_make_static (l : Laser F) : Laser F :=
  set_speed_timeshift l (of_Z 0) (timespan l).

Definition laser_is_clearable (l : Laser F) : bool :=
  negb (unclearable l) && laser_is_active l.

(** [clear_laser]: the field [clear_flags] of the laser is kept beside the
    record; [CLEAR_HAZARDS_FORCE] is a bit mask defined in a header that is
    not among the sources. The result is the return value and the new
    [clear_flags]. *)
Definition clear_laser (CLEAR_HAZARDS_FORCE : Z) (l : Laser F) (clear_flags flags : Z)
    : bool * Z :=
  if (Z.land flags CLEAR_HAZARDS_FORCE =? 0)%Z && negb (laser_is_clearable l)
  then (false, clear_flags)
  else (true, Z.lor clear_flags flags).

End LaserMutators.

Section MoreRules.
Context {F : Type} {NF : Num F}.
Local Open Scope num_scope.

(** Modelled from the spec: [cdir], as in [util/geometry.c] above. *)
Variable cdir : F -> cmplx F.

(** [lasers/rules.c]: the arc rule, given its data, then the laser's
    origin and the curve time. The product of the complex radius and the
    unit vector is the product of finite complex numbers. *)
Definition laser_rule_arc (radius : cmplx F) (turn_speed time_ofs : F)
    (pos : cmplx F) (t : F) : cmplx F :=
  cadd pos (cmul_finite radius (cdir (turn_speed * (t + time_ofs)))).

End MoreRules.

Section ProcessLasers.
Context {F : Type} {NF : Num F}.
Local Open Scope num_scope.
Local Open Scope checked_scope.
Variable powf : F -> F -> F.
Variables VIEWPORT_W VIEWPORT_H LASER_SDF_RANGE : F.
Variables CLEAR_HAZARDS_LASERS CLEAR_HAZARDS_FORCE : Z.

(** The first loop of [process_lasers], the rebuild pass, over the list
    [global.lasers] from the laser [lasers] starts with on: each laser
    comes with its [clear_flags]; an expired laser is deleted, every other
    one is quantized into the shared buffer, and cleared by force when the
    stage is. *)
Fixpoint process_lasers_rebuild (frames : Z) (stage_cleared : bool)
    (lasers : list (Laser F * Z)) (segments : list (LaserSegment F))
    : Checked (list (LaserSegment F) * list (Laser F * Z)) :=
  match lasers with
  | [] => Ok (segments, [])
  | (laser, clear_flags) :: next =>
      if deathtime laser + timespan laser * speed laser
         <? of_Z (frames - birthtime laser)
      then process_lasers_rebuild frames stage_cleared next segments
      else
        sl <- quantize_laser powf VIEWPORT_W VIEWPORT_H LASER_SDF_RANGE
                frames segments laser ;;
        let clear_flags :=
          if stage_cleared then
            snd (clear_laser CLEAR_HAZARDS_FORCE (snd sl) clear_flags
                   (Z.lor CLEAR_HAZARDS_LASERS CLEAR_HAZARDS_FORCE))
          else clear_flags in
        rest <- process_lasers_rebuild frames stage_cleared next (fst sl) ;;
        Ok (fst rest, (snd sl, clear_flags) :: snd rest)
  end.

(** [lintern.segments.num_elements = 0] and the rebuild pass. *)
Definition process_lasers_pass1 (frames : Z) (stage_cleared : bool)
    (lasers : list (Laser F * Z)) : Checked (list (LaserSegment F) * list (Laser F * Z)) :=
  process_lasers_rebuild frames stage_cleared lasers [].

End ProcessLasers.


(** ** Notions the statements use *)

Section Notions.
Context {F : Type} {NF : Num F}.
Local Open Scope num_scope.

(** The midpoint of the segment from [a] to [b]. *)
Definition seg_midpoint (a b : cmplx F) : cmplx F :=
  CMPLX ((re a + re b) / of_Z 2) ((im a + im b) / of_Z 2).

(** No two neighbours of [ps] compare equal with C's [==]. *)
Fixpoint distinct_neighbours (ps : list (cmplx F)) : bool :=
  match ps with
  | p :: ((q :: _) as rest) => negb (ceqb p q) && distinct_neighbours rest
  | _ => true
  end.

(** The collision passes of consecutive frames, from frame [frames] on,
    for one laser. [process_lasers] calls [laser_collision] once per frame
    and laser. Between two passes the rest of the game may change the
    laser, the player and the segment buffer at will, [next_graze]
    excepted, which only [laser_collision] writes: each input is the
    buffer, the laser and the player as the pass of that frame finds them,
    and the laser keeps the [next_graze] the pass before left. *)
Fixpoint collision_passes (frames : Z) (l : Laser F)
    (inputs : list (list (LaserSegment F) * Laser F * Player F))
    : list (@CollisionResult F) :=
  match inputs with
  | [] => []
  | (segments, l', plr) :: rest =>
      let r := laser_collision frames segments
                 (set_next_graze l' (next_graze l)) plr in
      r :: collision_passes (frames + 1) (laser_after r) rest
  end.

End Notions.

(** The plane geometry of culling, in exact arithmetic: the rectangle
    [bounds] with its border, the point of the chord from [a] to [b] at
    parameter [s], and the chords that have no point in the rectangle. *)
Definition in_float_rect (p : cmplx R) (bounds : FloatRect R) : Prop :=
  (rect_x bounds <= re p <= rect_x bounds + rect_w bounds /\
   rect_y bounds <= im p <= rect_y bounds + rect_h bounds)%R.

Definition chord_point (a b : cmplx R) (s : R) : cmplx R :=
  CMPLX (re a + s * (re b - re a))%R (im a + s * (im b - im a))%R.

Definition chord_outside (a b : cmplx R) (bounds : FloatRect R) : Prop :=
  forall s : R, (0 <= s <= 1)%R -> ~ in_float_rect (chord_point a b s) bounds.

(** ** Concrete inputs *)

Module Inputs.

(** A laser line as [create_laserline_ab] makes it: [timespan] 4, default
    width 10 and exponent 1, made static by the charge task; it runs from
    the origin to (0, 100). *)
Definition line_laser : Laser R :=
  mkLaser (CMPLX 0 0)%R (laser_rule_linear (CMPLX 0 25)%R) 4%R 100%R 4%R 0%R 10%R 1%R 0%Z 0%Z true false
    (mkRect (CMPLX 0 0) (CMPLX 0 0))%R 0%Z 0%Z.

(** A static laser of timespan 1/2 that stays at (-1000, 0), far to the
    left of the viewport, and the sampling parameters and samples that
    [quantize_laser] computes for it. *)
Definition offscreen_point : Laser R :=
  mkLaser (CMPLX (-1000) 0)%R (fun o _ => o) (1 / 2)%R 100%R (1 / 2)%R 0%R 10%R 1%R
    0%Z 0%Z true false (mkRect (CMPLX 0 0) (CMPLX 0 0))%R 0%Z 0%Z.
Definition offscreen_sp : LaserSamplingParams R :=
  mkLaserSamplingParams 2 0%R (1 / 2)%R.
Definition offscreen_samples : list (LaserSample R) :=
  [mkLaserSample (CMPLX (-1000) 0)%R (0 + 1 / 2)%R].

Local Open Scope float_scope.

Definition origin : cmplx float := CMPLX 0 0.
Definition no_bbox : Rect float := mkRect origin origin.

(** [powf] is not called when the exponent is 1; any function stands for
    it in the evaluations below. *)
Definition powf_unused (x y : float) : float := x.

(** A laser whose range in the buffer is a chain of four segments of
    length 2 on the x axis, each starting where the one before ends,
    walked with [step] 4. The callback returns a non-null pointer once the walk has
    reached x = 4; its user data is the log of its invocations, each with
    the position of the sample it was given and the pointer it
    returned. *)
Definition chain_segment (x0 x1 : float) : LaserSegment float :=
  mkLaserSegment (CMPLX x0 0) (CMPLX x1 0) 1 1 0 0.
Definition chain : list (LaserSegment float) :=
  [chain_segment 0 2; chain_segment 2 4; chain_segment 4 6; chain_segment 6 8].
Definition chain_laser : Laser float :=
  mkLaser origin (fun o _ => o) 4 100 0 1 10 1 0%Z 0%Z true false no_bbox 0%Z 4%Z.
Definition stop_at_4
    : Trace.LaserTraceFunc (list (cmplx float * option nat)) nat :=
  fun _ sample log =>
    let result := if 4 <=? re (Trace.ts_pos sample) then Some 1%nat else None in
    (result, log ++ [(Trace.ts_pos sample, result)]).

(** In the runs of [quantize_laser] below the viewport is taken as 480 by
    560 and [LASER_SDF_RANGE] as 0, the least padding a range can give. *)
Definition quantize (frames : Z) (l : Laser float)
    : Checked (list (LaserSegment float) * Laser float) :=
  quantize_laser powf_unused 480 560 0 frames [] l.

(** A laser as [create_laser(0, T, 1000, color, laser_rule_accelerated(1,
    -2))] makes it at frame 0: a beam that leaves the origin along the x
    axis, slows down and comes back along its own path, at [t - t^2] at
    curve time [t]. [sp4] is what [laser_prepare_sampling_params] computes
    with step 1/2 for a fully visible window of length 4: 9 samples, half
    a time unit apart. *)
Definition returning_laser (T : float) : Laser float :=
  mkLaser origin (laser_rule_accelerated (CMPLX 1 0) (CMPLX (-2) 0))
    T 1000 0 1 10 1 0%Z 0%Z true false no_bbox 0%Z 0%Z.
Definition sp4 : LaserSamplingParams float := mkLaserSamplingParams 9 0 0.5.

(** One segment from (0,0) to (128,0) of width 10, with the bounding box
    that [quantize_laser] leaves for it, and a player at rest 16 units
    beside its midpoint. *)
Definition graze_segments : list (LaserSegment float) :=
  [mkLaserSegment (CMPLX 0 0) (CMPLX 128 0) 10 10 0 0].
Definition graze_laser : Laser float :=
  mkLaser origin (fun o _ => o) 4 100 0 1 10 1 0%Z 0%Z true false
    (mkRect (CMPLX (-5) (-5)) (CMPLX 133 5)) 0%Z 1%Z.
Definition graze_player : Player float := mkPlayer (CMPLX 64 16) origin.

(** A laser as [create_laser] makes it at frame 0, of timespan 4, that
    moves left from (-1000, 100), far to the left of the viewport. *)
Definition offscreen_line : Laser float :=
  mkLaser (CMPLX (-1000) 100) (laser_rule_linear (CMPLX (-8) 0)) 4 1000 0 1 10 1 0%Z 0%Z true false
    no_bbox 0%Z 0%Z.

(** One segment of width 0 from (0,0) to (128,0), and a player at rest one
    unit beside its midpoint. *)
Definition thin_segments : list (LaserSegment float) :=
  [mkLaserSegment (CMPLX 0 0) (CMPLX 128 0) 0 0 0 0].
Definition thin_player : Player float := mkPlayer (CMPLX 64 1) origin.

End Inputs.

(** A rectangle whose left side is not right of its right side and whose
    top is not below its bottom (the y axis points down). *)
Definition rect_wf (r : Rect R) : Prop :=
  (rect_left r <= rect_right r /\ rect_top r <= rect_bottom r)%R.

(** The range of the shared segment buffer that belongs to the laser [l],
    as [laser_collision] and [laser_intersects_ellipse] read it:
    [num_segments] segments from index [segments_ofs] on. *)
Definition laser_segments {F : Type} (segments : list (LaserSegment F)) (l : Laser F)
    : list (LaserSegment F) :=
  firstn (Z.to_nat (num_segments l)) (skipn (Z.to_nat (segments_ofs l)) segments).

(** ** More concrete inputs *)

Module Scene.
Import Inputs.
Local Open Scope float_scope.

(** A laser as [create_laser] makes it at frame 0, of timespan 4, that
    moves right from (100, 100) at 5 units per frame, inside the viewport;
    the same laser made unclearable, one row below; and a laser that
    dies at frame 10. *)
Definition visible_line : Laser float :=
  mkLaser (CMPLX 100 100) (laser_rule_linear (CMPLX 5 0)) 4 1000 0 1 10 1 0%Z 0%Z
    true false no_bbox 0%Z 0%Z.
Definition unclearable_line : Laser float :=
  mkLaser (CMPLX 100 200) (laser_rule_linear (CMPLX 5 0)) 4 1000 0 1 10 1 0%Z 0%Z
    true true no_bbox 0%Z 0%Z.
Definition short_lived : Laser float :=
  mkLaser (CMPLX 100 300) (laser_rule_linear (CMPLX 5 0)) 4 10 0 1 10 1 0%Z 0%Z
    true false no_bbox 0%Z 0%Z.

(** [global.lasers] with the clear flags of each laser, all zero. *)
Definition lasers : list (Laser float * Z) :=
  [(visible_line, 0%Z); (short_lived, 0%Z); (unclearable_line, 0%Z)].

(** The rebuild pass of [process_lasers] at frame [frames], with the
    viewport and [LASER_SDF_RANGE] of [Inputs.quantize]; the two bit
    masks are taken as 4 and 8. *)
Definition rebuild (frames : Z) (stage_cleared : bool)
    : Checked (list (LaserSegment float) * list (Laser float * Z)) :=
  process_lasers_pass1 powf_unused 480 560 0 4 8 frames stage_cleared lasers.

(** A static laser line of timespan 1/2 from (100, 100) to (100, 150),
    inside the viewport, with the sampling parameters and the samples
    that [quantize_laser] computes for it. *)
Definition short_line : Laser R :=
  mkLaser (CMPLX 100 100)%R (laser_rule_linear (CMPLX 0 100)%R) (1 / 2)%R 100%R (1 / 2)%R
    0%R 10%R 1%R 0%Z 0%Z true false (mkRect (CMPLX 0 0) (CMPLX 0 0))%R 0%Z 0%Z.
Definition short_sp : LaserSamplingParams R :=
  mkLaserSamplingParams 2 0%R (1 / 2)%R.
Definition short_samples : list (LaserSample R) :=
  [mkLaserSample (laser_pos_at short_line 0%R) 0%R;
   mkLaserSample (laser_pos_at short_line (0 + 1 / 2)%R) (0 + 1 / 2)%R].

End Scene.

(** The sample times strictly increase along the array: each sample is
    earlier than every later one. *)
Fixpoint times_increase (samples : list (LaserSample R)) : Prop :=
  match samples with
  | [] => True
  | s :: rest =>
      Forall (fun s' => (sample_t s < sample_t s')%R) rest /\ times_increase rest
  end.

(** The segment [seg] is stored with its smaller width first and has both
    endpoints in the rectangle [r]. *)
Definition stored_in (r : Rect R) (seg : LaserSegment R) : Prop :=
  (width_a seg <= width_b seg)%R /\
  point_in_rect (pos_a seg) r = true /\ point_in_rect (pos_b seg) r = true.

(** The segments of [segs], each taken in one of its two directions, run
    end to end from the point [a] to the point [b]. ([add_segment] stores
    a segment flipped when its widths decrease.) *)
Fixpoint polyline (a : cmplx R) (segs : list (LaserSegment R)) (b : cmplx R) : Prop :=
  match segs with
  | [] => a = b
  | s :: rest =>
      (pos_a s = a /\ polyline (pos_b s) rest b) \/
      (pos_b s = a /\ polyline (pos_a s) rest b)
  end.

(** * Properties *)

(** ** Exact arithmetic: comparisons *)

Lemma Rltb_true (x y : R) : Rltb x y = true <-> (x < y)%R.
Proof. unfold Rltb; destruct (Rlt_dec x y); split; intros; easy. Qed.

Lemma Rltb_false (x y : R) : Rltb x y = false <-> (y <= x)%R.
Proof. unfold Rltb; destruct (Rlt_dec x y); split; intros; try easy; lra. Qed.

Lemma Rleb_true (x y : R) : Rleb x y = true <-> (x <= y)%R.
Proof. unfold Rleb; destruct (Rle_dec x y); split; intros; easy. Qed.

Lemma Reqb_refl (x : R) : Reqb x x = true.
Proof. unfold Reqb; destruct (Req_dec_T x x); congruence. Qed.

(** ** Capsule distance *)

Section CapsuleDistance.
Local Open Scope R_scope.

(** With equal radii [r], at a point [p] whose offset from the midpoint is
    perpendicular to the segment, the distance is the length of that
    offset less [r]. *)
Lemma ucapsule_dist_beside_midpoint (a b p : cmplx R) (r : R) :
  a <> b ->
  cdot (csub p (seg_midpoint a b)) (csub b a) = 0 ->
  ucapsule_dist_from_point p (mkUnevenCapsule (mkLineSegment a b) r r)
  = cabs (csub p (seg_midpoint a b)) - r.
Proof.
  destruct a as [ax ay], b as [bx by_], p as [px py]. intros Hab Hperp.
  unfold ucapsule_dist_from_point, cabs, cabs2, cdot, ccross, cswap, conj,
    cdivr, csub, seg_midpoint in *.
  cbn in *.
  set (dx := bx - ax) in *. set (dy := by_ - ay) in *.
  set (h := dx * dx + dy * dy).
  assert (Hh : 0 < h).
  { assert (dx <> 0 \/ dy <> 0) as Hd.
    { destruct (Req_dec dx 0); [|now left]. destruct (Req_dec dy 0); [|now right].
      exfalso; apply Hab; f_equal; unfold dx, dy in *; lra. }
    unfold h; nra. }
  replace (r - r) with 0 by ring.
  replace (h - 0 * 0) with h by ring.
  set (u := px - ax) in *. set (v := py - ay) in *.
  assert (Hq : (u * dx + v * dy) / h = 1 / 2).
  { apply Rmult_eq_reg_r with (r := h); [|lra].
    unfold Rdiv. rewrite Rmult_assoc, Rinv_l by lra.
    unfold h, u, v, dx, dy in *. lra. }
  rewrite Hq.
  set (cr := (u * dy + v * - dx) / h).
  assert (Hs : 0 < sqrt h) by (apply sqrt_lt_R0; exact Hh).
  assert (Hk1 : Rltb (sqrt h * (1 / 2) - 0 * Rabs cr) 0 = false)
    by (apply Rltb_false; lra).
  assert (Hk2 : Rltb (sqrt h) (sqrt h * (1 / 2) - 0 * Rabs cr) = false)
    by (apply Rltb_false; lra).
  rewrite Hk1, Hk2.
  f_equal. symmetry.
  set (e1 := px - (ax + bx) / 2) in *. set (e2 := py - (ay + by_) / 2) in *.
  assert (Hcr : cr * h = e1 * dy - e2 * dx).
  { unfold cr, Rdiv. rewrite Rmult_assoc, Rinv_l by lra.
    unfold u, v, e1, e2, dx, dy. lra. }
  assert (Hcr2 : (cr * cr) * h = e1 * e1 + e2 * e2).
  { apply Rmult_eq_reg_r with (r := h); [|lra].
    replace (cr * cr * h * h) with ((cr * h) * (cr * h)) by ring.
    rewrite Hcr. unfold h. nra. }
  apply sqrt_lem_1.
  - nra.
  - pose proof (Rabs_pos cr). nra.
  - replace (sqrt h * Rabs cr + 0 * (1 / 2)) with (sqrt h * Rabs cr) by ring.
    replace (sqrt h * Rabs cr * (sqrt h * Rabs cr))
      with ((sqrt h * sqrt h) * (Rabs cr * Rabs cr)) by ring.
    rewrite sqrt_sqrt by lra.
    replace (Rabs cr * Rabs cr) with (cr * cr).
    2:{ rewrite <- Rabs_mult. symmetry. apply Rabs_pos_eq. nra. }
    lra.
Qed.



End CapsuleDistance.

(** ** Width model *)

Section WidthModel.
Local Open Scope R_scope.
Variable powf : R -> R -> R.

(** With exponent 1 the profile is the parabola of peak [0.75 * width] at
    the midpoint of the curve time window, whatever [powf] is. *)
Lemma calc_sample_width_exact (l : Laser R) (t : R) :
  width_exponent l = 1 -> 0 < timespan l ->
  calc_sample_width powf (calc_width_params l) t
  = 3 / 4 * width l * (1 - ((t - timespan l / 2) / (5 / 8 * timespan l)) ^ 2).
Proof.
  intros He HT. unfold calc_sample_width, calc_width_params, lit. cbn.
  rewrite He, Reqb_refl. cbn. field. lra.
Qed.


(** The profile vanishes [0.625 * T] before and after the midpoint, outside
    the window [0, T]. *)
Lemma calc_sample_width_zeros (l : Laser R) :
  width_exponent l = 1 -> 0 < timespan l ->
  calc_sample_width powf (calc_width_params l) (- timespan l / 8) = 0 /\
  calc_sample_width powf (calc_width_params l) (9 * timespan l / 8) = 0.
Proof.
  intros He HT. rewrite !calc_sample_width_exact by assumption.
  split; field; lra.
Qed.


End WidthModel.

Section WidthModelAtTheLine.
Local Open Scope R_scope.
Import Inputs.




End WidthModelAtTheLine.

(** ** Segment canonicalization *)

Section CanonicalizationAny.
Context {F : Type} {NF : Num F}.

(** In any arithmetic, binary64 included: when the two widths compare, one
    not less than the other (neither is NaN), [add_segment] passes its
    assertion and stores the segment with [width.a <= width.b]. *)
Lemma add_segment_canonical_comparable (segments : list (LaserSegment F))
    (l : Laser F) (cseg : LaserSegment F) :
  (fltb (width_b cseg) (width_a cseg) = true -> fleb (width_b cseg) (width_a cseg) = true) ->
  (fltb (width_b cseg) (width_a cseg) = false -> fleb (width_a cseg) (width_b cseg) = true) ->
  exists (seg : LaserSegment F) (l' : Laser F),
    add_segment segments l cseg = Ok (segments ++ [seg], l') /\
    fleb (width_a seg) (width_b seg) = true.
Proof.
  intros Hlt Hge. unfold add_segment.
  destruct (fltb (width_b cseg) (width_a cseg)) eqn:E.
  - cbn [laserseg_flip width_a width_b]. rewrite (Hlt eq_refl). cbn.
    eexists _, _. split; [reflexivity|]. cbn. apply Hlt. reflexivity.
  - rewrite (Hge eq_refl). cbn.
    eexists _, _. split; [reflexivity|]. apply Hge. reflexivity.
Qed.

End CanonicalizationAny.

Section Canonicalization.
Local Open Scope R_scope.

(** [laserseg_flip] swaps endpoints, times and widths together. *)
Lemma laserseg_flip_swaps (s : LaserSegment R) :
  pos_a (laserseg_flip s) = pos_b s /\ pos_b (laserseg_flip s) = pos_a s /\
  time_a (laserseg_flip s) = time_b s /\ time_b (laserseg_flip s) = time_a s /\
  width_a (laserseg_flip s) = width_b s /\ width_b (laserseg_flip s) = width_a s.
Proof. repeat split. Qed.


End Canonicalization.

(** ** Charge envelope *)

Section ChargeAny.
Context {F : Type} {NF : Num F}.
Local Open Scope num_scope.

(** In any arithmetic, binary64 included: the flag is the comparison of the
    code, on the width the call stores. *)
Lemma laser_charge_collision_active_any (l : Laser F) (t : Z) (charge target : F) :
  collision_active (laser_charge l t charge target)
  = (target * lit 6 10 <? width (laser_charge l t charge target)).
Proof. reflexivity. Qed.

End ChargeAny.

Section Charge.
Local Open Scope R_scope.


End Charge.

(** ** Sampler and segment builder *)

Section Sampler.
Context {F : Type} {NF : Num F}.

Lemma distinct_neighbours_snoc (ps : list (cmplx F)) (p q : cmplx F) :
  distinct_neighbours (ps ++ [p]) = true ->
  ceqb p q = false ->
  distinct_neighbours ((ps ++ [p]) ++ [q]) = true.
Proof.
  induction ps as [|x ps IH]; intros Hd Hpq.
  - cbn. now rewrite Hpq.
  - destruct ps as [|y ps].
    + cbn in *. rewrite Hpq. apply andb_true_iff in Hd. destruct Hd as [-> _]. reflexivity.
    + cbn [app distinct_neighbours] in *.
      apply andb_true_iff in Hd. destruct Hd as [-> Hd]. cbn [andb].
      apply IH; assumption.
Qed.

Lemma set_last_t_positions (array : list (LaserSample F)) (maxtime : F) :
  map sample_p (set_last_t array maxtime) = map sample_p array.
Proof.
  induction array as [|s array IH]; [reflexivity|].
  destruct array as [|s' array]; [reflexivity|].
  change (set_last_t (s :: s' :: array) maxtime)
    with (s :: set_last_t (s' :: array) maxtime).
  cbn [map]. now rewrite IH.
Qed.

Lemma fill_samples_loop_distinct (l : Laser F) (sp : LaserSamplingParams F)
    (maxtime : F) (n : nat) :
  forall (array : list (LaserSample F)) (prev : LaserSample F) (t : F),
    distinct_neighbours (map sample_p (array ++ [prev])) = true ->
    distinct_neighbours
      (map sample_p (fill_samples_loop l sp maxtime n (array ++ [prev]) prev t)) = true.
Proof.
  induction n as [|n IH]; intros array prev t Hd; [exact Hd|].
  cbn [fill_samples_loop].
  destruct (ceqb (sample_p prev) (laser_pos_at l t)) eqn:E; cbn [negb].
  - apply IH. exact Hd.
  - apply IH. rewrite !map_app in *. cbn [map] in *.
    apply distinct_neighbours_snoc; assumption.
Qed.

(** X1: in any arithmetic, the sample sequence that [fill_samples]
    produces has no two consecutive samples whose positions compare
    equal. *)
Theorem fill_samples_distinct (sp : LaserSamplingParams F) (l : Laser F)
    (array : list (LaserSample F)) :
  fill_samples sp l = Ok array ->
  distinct_neighbours (map sample_p array) = true.
Proof.
  unfold fill_samples.
  set (maxtime := fadd (time_shift sp) (timespan l)).
  set (prev := mkLaserSample (laser_pos_at l (time_shift sp)) (time_shift sp)).
  intros Hfs. unfold bind in Hfs.
  match type of Hfs with
  | match ?c with _ => _ end = _ => destruct c; [|discriminate]
  end.
  injection Hfs as <-.
  rewrite set_last_t_positions.
  apply (fill_samples_loop_distinct l sp maxtime (num_samples sp - 1) [] prev).
  reflexivity.
Qed.

End Sampler.

Section SamplerRuns.
Import Inputs.
Local Open Scope float_scope.

Lemma fill_samples_distinct_witness :
  distinct_neighbours
    (map sample_p
       [mkLaserSample (CMPLX 0 0) 0;         mkLaserSample (CMPLX 0.25 0) 0.5;
        mkLaserSample (CMPLX 0 0) 1;         mkLaserSample (CMPLX (-0.75) 0) 1.5;
        mkLaserSample (CMPLX (-2) 0) 2;      mkLaserSample (CMPLX (-3.75) 0) 2.5;
        mkLaserSample (CMPLX (-6) 0) 3;      mkLaserSample (CMPLX (-8.75) 0) 3.5;
        mkLaserSample (CMPLX (-12) 0) 4]) = true.
Proof.
  apply (fill_samples_distinct sp4 (returning_laser 4)).
  vm_compute. reflexivity.
Defined.

(** C6, the code at the failing input. The beam that comes back along its
    own path is sampled at the positions 0, 0.25, 0, -0.75, ... on the x
    axis: no two consecutive samples are equal, yet the first and the
    third are. [construct_segments] skips the second sample as collinear
    and then measures the third against the first:
    - with timespan 4 (9 samples) the third sample is past the temporal
      threshold, a segment of length zero is emitted and
      [assume(v0_abs2 != 0)] fails;
    - with timespan 16 (33 samples) the third sample is a candidate for
      skipping and [assert(norm2 != 0)] fails. *)
Theorem construct_segments_zero_length :
  laser_prepare_sampling_params 4 (returning_laser 4) 0.5 = Some sp4 /\
  fill_samples sp4 (returning_laser 4)
  = Ok [mkLaserSample (CMPLX 0 0) 0;         mkLaserSample (CMPLX 0.25 0) 0.5;
        mkLaserSample (CMPLX 0 0) 1;         mkLaserSample (CMPLX (-0.75) 0) 1.5;
        mkLaserSample (CMPLX (-2) 0) 2;      mkLaserSample (CMPLX (-3.75) 0) 2.5;
        mkLaserSample (CMPLX (-6) 0) 3;      mkLaserSample (CMPLX (-8.75) 0) 3.5;
        mkLaserSample (CMPLX (-12) 0) 4] /\
  quantize 4 (returning_laser 4) = AssertFail "v0_abs2 != 0" /\
  quantize 16 (returning_laser 16) = AssertFail "norm2 != 0".
Proof. repeat split; vm_compute; reflexivity. Qed.

End SamplerRuns.

(** ** Trace walker *)

Section TraceRuns.
Import Inputs.

(** C2, the code at the failing input. On the chain of four segments of
    length 2 walked with step 4, the callback is invoked at x = 0, at
    x = 4, where it returns a non-null pointer, and again at x = 8;
    [laser_trace] returns [NULL]. The second and the third invocation
    come from the call of [laser_trace_advance] that ends a segment,
    whose result [laser_trace] does not read. *)
Theorem laser_trace_drops_abort :
  Trace.laser_trace chain_laser 4%float stop_at_4 8 chain []
  = Trace.Done
      (None,
       [(CMPLX 0 0, None); (CMPLX 4 0, Some 1%nat); (CMPLX 8 0, Some 1%nat)]%float).
Proof. vm_compute. reflexivity. Qed.

End TraceRuns.

(** ** Graze cooldown *)

Section Graze.
Context {F : Type} {NF : Num F}.

(** With the graze gate closed the loop leaves the graze distance and
    position as it found them. *)
Lemma laser_collision_loop_gate_closed (plrpos : cmplx F) (player_moved : bool)
    (plrmotion : LineSegment F) (segs : list (LaserSegment F)) :
  forall (graze_dist : F) (graze_pos : cmplx F) (r : F * cmplx F),
    laser_collision_loop plrpos player_moved plrmotion false segs graze_dist graze_pos
    = Some r ->
    r = (graze_dist, graze_pos).
Proof.
  induction segs as [|lseg segs IH]; intros graze_dist graze_pos r Hr.
  - cbn in Hr. congruence.
  - cbn [laser_collision_loop] in Hr.
    destruct (player_moved && lineseg_lineseg_intersection _ _); [discriminate|].
    destruct (fltb _ _); [discriminate|].
    cbn [andb] in Hr. apply IH. exact Hr.
Qed.

(** A call of [laser_collision] that invokes [player_graze] sets
    [next_graze] four frames ahead. *)
Lemma laser_collision_grazed (frames : Z) (segments : list (LaserSegment F))
    (l : Laser F) (plr : Player F) :
  grazed (laser_collision frames segments l plr) <> None ->
  next_graze (laser_after (laser_collision frames segments l plr)) = (frames + 4)%Z.
Proof.
  unfold laser_collision.
  destruct (negb (laser_is_active l)); [cbn; congruence|].
  destruct (num_segments l <? 1)%Z; [cbn; congruence|].
  destruct (negb (point_in_rect _ _)); [cbn; congruence|].
  destruct (laser_collision_loop _ _ _ _ _ _ _) as [[gd gp]|]; [|cbn; congruence].
  destruct (fltb gd _); cbn; congruence.
Qed.

End Graze.

Section GrazeBinary64.
Import Inputs.

(** Before frame [next_graze], [laser_collision] neither invokes
    [player_graze] nor changes the laser. *)
Lemma laser_collision_gate_closed (frames : Z) (segments : list (LaserSegment float))
    (l : Laser float) (plr : Player float) :
  (frames < next_graze l)%Z ->
  grazed (laser_collision frames segments l plr) = None /\
  laser_after (laser_collision frames segments l plr) = l.
Proof.
  intros Hlt. unfold laser_collision.
  destruct (negb (laser_is_active l)); [split; reflexivity|].
  destruct (num_segments l <? 1)%Z; [split; reflexivity|].
  assert (Hg : (next_graze l <=? frames)%Z = false) by (apply Z.leb_gt; exact Hlt).
  rewrite Hg.
  destruct (negb (point_in_rect _ _)); [split; reflexivity|].
  destruct (laser_collision_loop _ _ _ _ _ _ _) as [r|] eqn:Hloop;
    [|split; reflexivity].
  apply laser_collision_loop_gate_closed in Hloop. subst r.
  change (fltb (of_Z 42) (of_Z 42)) with false.
  split; reflexivity.
Qed.

Lemma collision_passes_gate_closed
    (inputs : list (list (LaserSegment float) * Laser float * Player float)) :
  forall (frames : Z) (l : Laser float),
    (frames + Z.of_nat (List.length inputs) <= next_graze l)%Z ->
    Forall (fun r => grazed r = None) (collision_passes frames l inputs).
Proof.
  induction inputs as [|[[segments l'] plr] inputs IH]; intros frames l Hle.
  - constructor.
  - cbn [collision_passes]. cbn [List.length] in Hle.
    destruct (laser_collision_gate_closed frames segments
                (set_next_graze l' (next_graze l)) plr) as [Hnone Hsame].
    { cbn. lia. }
    constructor; [exact Hnone|].
    apply IH. rewrite Hsame. cbn. lia.
Qed.

(** C8: if [laser_collision] invokes [player_graze] for a laser in the
    collision pass of frame [frames], it sets the laser's [next_graze] to
    [frames + 4], and the collision passes of the next three frames invoke
    no [player_graze] for that laser, whatever the laser's other fields,
    the player and the segments are then: the gate [global.frames >=
    l->next_graze] opens again at frame [frames + 4]. *)
Theorem graze_cooldown (frames : Z) (segments : list (LaserSegment float))
    (l : Laser float) (plr : Player float) :
  grazed (laser_collision frames segments l plr) <> None ->
  let l1 := laser_after (laser_collision frames segments l plr) in
  next_graze l1 = (frames + 4)%Z /\
  forall inputs : list (list (LaserSegment float) * Laser float * Player float),
    (List.length inputs <= 3)%nat ->
    Forall (fun r => grazed r = None) (collision_passes (frames + 1) l1 inputs).
Proof.
  intros Hgraze l1.
  assert (Hnext : next_graze l1 = (frames + 4)%Z)
    by (apply laser_collision_grazed; exact Hgraze).
  split; [exact Hnext|].
  intros inputs Hlen. apply collision_passes_gate_closed. lia.
Qed.

Lemma graze_cooldown_witness :
  let l1 := laser_after (laser_collision 100 graze_segments graze_laser graze_player) in
  next_graze l1 = 104%Z /\
  forall inputs : list (list (LaserSegment float) * Laser float * Player float),
    (List.length inputs <= 3)%nat ->
    Forall (fun r => grazed r = None) (collision_passes 101 l1 inputs).
Proof.
  apply (graze_cooldown 100 graze_segments graze_laser graze_player).
  vm_compute. discriminate.
Defined.

(** On the same input the graze fires at frame 100, 14 units from the
    capsule, is withheld at frames 101 to 103, and fires again at frame
    104. *)
Example graze_fires_again_at_frame_104 :
  map (fun r => grazed r)
    (collision_passes 100 graze_laser
       (repeat (graze_segments, graze_laser, graze_player) 5))
  = [Some (CMPLX 64 5); None; None; None; Some (CMPLX 64 5)]%float.
Proof. vm_compute. reflexivity. Qed.

End GrazeBinary64.

(** ** Culling and the bounding box *)

Section Culling.
Import Inputs.
Local Open Scope R_scope.

Lemma Rleb_false (x y : R) : Rleb x y = false <-> (y < x)%R.
Proof. unfold Rleb; destruct (Rle_dec x y); split; intros; try easy; lra. Qed.

(** A line [x |-> y0 + m * (x - x0)] that is neither below [top] at both
    ends of [[x1, x2]] nor above [bottom] at both takes a value in
    [[top, bottom]] on it. *)
Lemma line_meets_band (m x0 y0 x1 x2 top bottom : R) :
  x1 <= x2 -> top <= bottom ->
  ~ (y0 + m * (x1 - x0) < top /\ y0 + m * (x2 - x0) < top) ->
  ~ (bottom < y0 + m * (x1 - x0) /\ bottom < y0 + m * (x2 - x0)) ->
  exists x : R, x1 <= x <= x2 /\ top <= y0 + m * (x - x0) <= bottom.
Proof.
  intros Hx Htb Habove Hbelow.
  set (L := fun x => y0 + m * (x - x0)).
  change (~ (L x1 < top /\ L x2 < top)) in Habove.
  change (~ (bottom < L x1 /\ bottom < L x2)) in Hbelow.
  change (exists x : R, x1 <= x <= x2 /\ top <= L x <= bottom).
  destruct (Rle_dec top (L x1)) as [H1t|H1t], (Rle_dec (L x1) bottom) as [H1b|H1b];
    try (exists x1; lra).
  - (* L x1 > bottom *)
    destruct (Rle_dec (L x2) bottom) as [H2b|H2b]; [|exfalso; apply Hbelow; lra].
    destruct (Rle_dec top (L x2)) as [H2t|H2t]; [exists x2; lra|].
    assert (Hm : m * (x2 - x1) = L x2 - L x1) by (unfold L; ring).
    assert (Hneg : m < 0) by nra.
    set (d := (top - L x1) / m).
    assert (Hd : d * m = top - L x1) by (unfold d; field; lra).
    exists (x1 + d). assert (L (x1 + d) = top) by (unfold L in *; nra).
    split; [|lra]. split; nra.
  - (* L x1 < top *)
    destruct (Rle_dec top (L x2)) as [H2t|H2t]; [|exfalso; apply Habove; lra].
    destruct (Rle_dec (L x2) bottom) as [H2b|H2b]; [exists x2; lra|].
    assert (Hm : m * (x2 - x1) = L x2 - L x1) by (unfold L; ring).
    assert (Hpos : 0 < m) by nra.
    set (d := (top - L x1) / m).
    assert (Hd : d * m = top - L x1) by (unfold d; field; lra).
    exists (x1 + d). assert (L (x1 + d) = top) by (unfold L in *; nra).
    split; [|lra]. split; nra.
Qed.

(** The same on the part of [[lo, hi]] within [[left, right]], when the
    line is neither below [top] nor above [bottom] at both ends of
    [[lo, hi]] and at both ends of [[left, right]]. *)
Lemma line_meets_box (m x0 y0 lo hi left right top bottom : R) :
  lo <= hi -> left <= right -> top <= bottom ->
  left <= hi -> lo <= right ->
  ~ (y0 + m * (lo - x0) < top /\ y0 + m * (hi - x0) < top) ->
  ~ (bottom < y0 + m * (lo - x0) /\ bottom < y0 + m * (hi - x0)) ->
  ~ (y0 + m * (left - x0) < top /\ y0 + m * (right - x0) < top) ->
  ~ (bottom < y0 + m * (left - x0) /\ bottom < y0 + m * (right - x0)) ->
  exists x : R,
    lo <= x <= hi /\ left <= x <= right /\ top <= y0 + m * (x - x0) <= bottom.
Proof.
  intros Hlh Hlr Htb H1 H2 Ha Hb Hc Hd.
  assert (Hclip : exists x1 x2 : R,
             x1 <= x2 /\ lo <= x1 /\ x2 <= hi /\ left <= x1 /\ x2 <= right /\
             ~ (y0 + m * (x1 - x0) < top /\ y0 + m * (x2 - x0) < top) /\
             ~ (bottom < y0 + m * (x1 - x0) /\ bottom < y0 + m * (x2 - x0))).
  { destruct (Rle_dec left lo) as [Hl|Hl], (Rle_dec hi right) as [Hr|Hr].
    - exists lo, hi. repeat split; try lra; assumption.
    - exists lo, right. repeat split; try lra;
        destruct (Rle_dec 0 m); intros [? ?]; first [apply Ha | apply Hb | apply Hc | apply Hd]; nra.
    - exists left, hi. repeat split; try lra;
        destruct (Rle_dec 0 m); intros [? ?]; first [apply Ha | apply Hb | apply Hc | apply Hd]; nra.
    - exists left, right. repeat split; try lra; assumption. }
  destruct Hclip as (x1 & x2 & H12 & Hlo & Hhi & Hleft & Hright & Hab & Hbe).
  destruct (line_meets_band m x0 y0 x1 x2 top bottom H12 Htb Hab Hbe) as (x & Hx & Hy).
  exists x. repeat split; lra.
Qed.



(** Booleans of the comparisons in the context, as propositions. *)
Ltac bools_to_props :=
  repeat match goal with
  | H : _ = true |- _ =>
      progress rewrite ?andb_true_iff, ?andb_false_iff, ?Rleb_true, ?Rleb_false,
        ?Rltb_true, ?Rltb_false in H
  | H : _ = false |- _ =>
      progress rewrite ?andb_true_iff, ?andb_false_iff, ?Rleb_true, ?Rleb_false,
        ?Rltb_true, ?Rltb_false in H
  end.

Lemma chord_point_on_line (a b : cmplx R) (m x : R) :
  re a <> re b ->
  m * (re a - re b) = im a - im b ->
  Rmin (re a) (re b) <= x <= Rmax (re a) (re b) ->
  exists s : R, 0 <= s <= 1 /\
    chord_point a b s = CMPLX x (im a + m * (x - re a)).
Proof.
  intros Hne Hm Hx.
  set (s := (x - re a) / (re b - re a)).
  assert (Hs : s * (re b - re a) = x - re a) by (unfold s; field; lra).
  exists s. split.
  - unfold Rmin, Rmax in Hx. destruct (Rle_dec (re a) (re b)); split; nra.
  - unfold chord_point. f_equal; nra.
Qed.

(** Culling is complete: a chord with no point in the rectangle is not
    visible to [segment_is_visible]. *)
Lemma segment_is_visible_outside (a b : cmplx R) (bounds : FloatRect R) :
  0 <= rect_w bounds -> 0 <= rect_h bounds ->
  chord_outside a b bounds ->
  segment_is_visible a b bounds = false.
Proof.
  intros Hw Hh Hout.
  destruct (segment_is_visible a b bounds) eqn:Hvis; [exfalso|reflexivity].
  unfold segment_is_visible in Hvis. cbn in Hvis.
  set (left := rect_x bounds) in *. set (top := rect_y bounds) in *.
  set (right := left + rect_w bounds) in *. set (bottom := top + rect_h bounds) in *.
  assert (Hlr : left <= right) by (unfold right; lra).
  assert (Htb : top <= bottom) by (unfold bottom; lra).
  assert (Hin : forall s x y, 0 <= s <= 1 -> chord_point a b s = CMPLX x y ->
                  left <= x <= right -> top <= y <= bottom -> False).
  { intros s x y Hs Hp Hx Hy. apply (Hout s Hs). rewrite Hp. split; exact Hx || exact Hy. }
  clear Hout. clearbody left top right bottom.
  destruct a as [xa ya], b as [xb yb]. cbn in *.
  destruct (_ && _) eqn:E1 in Hvis.
  { bools_to_props. apply (Hin 0 xa ya); unfold chord_point; cbn; try lra. f_equal; ring. }
  destruct (_ && _) eqn:E2 in Hvis.
  { bools_to_props. apply (Hin 1 xb yb); unfold chord_point; cbn; try lra. f_equal; ring. }
  destruct (_ && _) eqn:E3 in Hvis; [discriminate|].
  destruct (_ && _) eqn:E4 in Hvis; [discriminate|].
  destruct (_ && _) eqn:E5 in Hvis; [discriminate|].
  destruct (_ && _) eqn:E6 in Hvis; [discriminate|].
  destruct (_ && _) eqn:E7 in Hvis.
  - (* both within the horizontal bounds, one above and one below *)
    clear Hvis. bools_to_props.
    assert (Hy : (ya < top /\ bottom < yb) \/ (yb < top /\ bottom < ya)) by lra.
    set (s := (top - ya) / (yb - ya)).
    assert (Hs : s * (yb - ya) = top - ya) by (unfold s; field; lra).
    apply (Hin s (xa + s * (xb - xa)) top); unfold chord_point; cbn.
    + destruct Hy; split; nra.
    + f_equal. lra.
    + destruct Hy; split; nra.
    + lra.
  - bools_to_props.
    assert (Hne : xa <> xb) by lra.
    set (m := (ya - yb) / (xa - xb)) in *.
    assert (Hm : m * (xa - xb) = ya - yb) by (unfold m; field; lra).
    unfold fmax, fmin in *. cbn in *.
    destruct (line_meets_box m xa ya (Rmin xa xb) (Rmax xa xb) left right top bottom)
      as (x & Hxs & Hxb & Hxy).
    + apply Rle_trans with xa; [apply Rmin_l|apply Rmax_l].
    + lra.
    + lra.
    + unfold Rmax; destruct (Rle_dec xa xb); lra.
    + unfold Rmin; destruct (Rle_dec xa xb); lra.
    + unfold Rmin, Rmax; destruct (Rle_dec xa xb); nra.
    + unfold Rmin, Rmax; destruct (Rle_dec xa xb); nra.
    + intros [Hy0 Hy1]. destruct Hvis as [Hv _]. destruct (Rltb _ _) in Hv; nra.
    + intros [Hy0 Hy1]. destruct Hvis as [_ Hv]. destruct (Rltb _ _) in Hv; nra.
    + destruct (chord_point_on_line (CMPLX xa ya) (CMPLX xb yb) m x Hne Hm Hxs)
        as (s & Hs & Hp).
      apply (Hin s _ _ Hs Hp); cbn; lra.
Qed.

Section CulledLoop.
Context {F : Type} {NF : Num F}.
Variable powf : F -> F -> F.

Lemma construct_segments_loop_culled (sp : LaserSamplingParams F)
    (wp : LaserWidthParams F) (viewbounds : FloatRect F) (thres_temporal : F)
    (ps : list (cmplx F)) :
  (forall p q, In p ps -> In q ps -> segment_is_visible p q viewbounds = false) ->
  forall (rest : list (LaserSample F)) (segments : list (LaserSegment F)) (l : Laser F)
         (t0 : F) (a : cmplx F) (w0 : F) (v0 : cmplx F) (v0_abs2 : F)
         (r : list (LaserSegment F) * Laser F),
    In a ps -> incl (map sample_p rest) ps ->
    construct_segments_loop powf sp wp viewbounds thres_temporal rest
      segments l t0 a w0 v0 v0_abs2 = Ok r ->
    r = (segments, l).
Proof.
  intros Hinv. induction rest as [|sample rest IH];
    intros segments l t0 a w0 v0 v0_abs2 r Ha Hrest Hr.
  - cbn in Hr. congruence.
  - cbn [construct_segments_loop] in Hr.
    assert (Hb : In (sample_p sample) ps) by (apply Hrest; left; reflexivity).
    assert (Hrest' : incl (map sample_p rest) ps)
      by (intros p Hp; apply Hrest; right; exact Hp).
    match type of Hr with bind ?c _ = _ => destruct c as [skip|]; [|discriminate] end.
    cbn [bind] in Hr. destruct skip.
    + apply (IH _ _ _ _ _ _ _ _ Ha Hrest' Hr).
    + rewrite (Hinv _ _ Ha Hb) in Hr. cbn [bind fst snd] in Hr.
      match type of Hr with bind ?c _ = _ => destruct c; [|discriminate] end.
      cbn [bind] in Hr.
      apply (IH _ _ _ _ _ _ _ _ Hb Hrest' Hr).
Qed.

Lemma fill_samples_loop_set_range (l : Laser F) (ofs k : Z) (sp : LaserSamplingParams F)
    (maxtime : F) (n : nat) :
  forall (array : list (LaserSample F)) (prev : LaserSample F) (t : F),
    fill_samples_loop (set_range l ofs k) sp maxtime n array prev t
    = fill_samples_loop l sp maxtime n array prev t.
Proof.
  induction n as [|n IH]; intros array prev t; [reflexivity|].
  cbn [fill_samples_loop].
  change (laser_pos_at (set_range l ofs k) t) with (laser_pos_at l t).
  rewrite !IH. reflexivity.
Qed.

Lemma fill_samples_set_range (l : Laser F) (ofs k : Z) (sp : LaserSamplingParams F) :
  fill_samples sp (set_range l ofs k) = fill_samples sp l.
Proof.
  unfold fill_samples. rewrite fill_samples_loop_set_range. reflexivity.
Qed.

Lemma fill_samples_loop_head (l : Laser F) (sp : LaserSamplingParams F)
    (maxtime : F) (n : nat) :
  forall (s0 : LaserSample F) (array : list (LaserSample F)) (prev : LaserSample F) (t : F),
    exists rest, fill_samples_loop l sp maxtime n (s0 :: array) prev t = s0 :: rest.
Proof.
  induction n as [|n IH]; intros s0 array prev t.
  - exists array. reflexivity.
  - cbn [fill_samples_loop]. destruct (negb _).
    + apply (IH s0 (array ++ [_])).
    + apply IH.
Qed.

Lemma fill_samples_head (sp : LaserSamplingParams F) (l : Laser F)
    (samples : list (LaserSample F)) :
  fill_samples sp l = Ok samples ->
  exists s0 rest, samples = s0 :: rest /\ sample_p s0 = laser_pos_at l (time_shift sp).
Proof.
  unfold fill_samples. intros Hfs. unfold bind in Hfs.
  match type of Hfs with
  | match ?c with _ => _ end = _ => destruct c; [|discriminate]
  end.
  injection Hfs as <-.
  match goal with |- context [fill_samples_loop ?l ?sp ?m ?n [?s0] ?prev ?t] =>
    destruct (fill_samples_loop_head l sp m n s0 [] prev t) as [rest ->];
    pose proof (set_last_t_positions (s0 :: rest) m) as Hpos
  end.
  destruct (set_last_t _ _) as [|s0' rest']; [discriminate|].
  cbn [map] in Hpos. injection Hpos as Hp _.
  exists s0', rest'. split; [reflexivity|exact Hp].
Qed.
End CulledLoop.

Section QuantizeCulled.
Variable powf : R -> R -> R.
Variables VIEWPORT_W VIEWPORT_H LASER_SDF_RANGE : R.

End QuantizeCulled.

Lemma Reqb_false (x y : R) : Reqb x y = false <-> x <> y.
Proof. unfold Reqb; destruct (Req_dec_T x y); split; intros; easy. Qed.

Lemma Rceil_ge (x : R) : x <= IZR (Rceil x).
Proof.
  unfold Rceil. rewrite opp_IZR.
  destruct (base_Int_part (- x)) as [H _]. lra.
Qed.

Lemma cabs2_csub_nonzero (a b : cmplx R) : a <> b -> cabs2 (csub b a) <> 0.
Proof.
  destruct a as [xa ya], b as [xb yb]. intros Hne. unfold cabs2, csub. cbn.
  intros H. apply Hne.
  destruct (Rplus_sqr_eq_0 (xb - xa) (yb - ya)) as [Hx Hy]; [exact H|].
  f_equal; lra.
Qed.

Lemma turn_measure_returns (u : cmplx R) (u_abs2 : R) (v : cmplx R) :
  u_abs2 <> 0 -> cabs2 v <> 0 -> exists d, turn_measure u u_abs2 v = Ok d.
Proof.
  intros Hu Hv. unfold turn_measure.
  replace (fmul u_abs2 (cabs2 v) =? of_Z 0)%num with false.
  - cbn. eexists. reflexivity.
  - symmetry. apply Reqb_false. cbn. intros E.
    apply Rmult_integral in E. destruct E; contradiction.
Qed.

Section CulledReturns.
Variable powf : R -> R -> R.

Lemma construct_segments_loop_culled_returns (sp : LaserSamplingParams R)
    (wp : LaserWidthParams R) (viewbounds : FloatRect R) (thres_temporal : R)
    (ps : list (cmplx R)) :
  (forall p q, In p ps -> In q ps -> segment_is_visible p q viewbounds = false) ->
  forall (rest : list (LaserSample R)) (segments : list (LaserSegment R)) (l : Laser R)
         (t0 : R) (a : cmplx R) (w0 : R) (v0 : cmplx R) (v0_abs2 : R),
    In a ps -> incl (map sample_p rest) ps ->
    NoDup (a :: map sample_p rest) -> v0_abs2 <> 0 ->
    construct_segments_loop powf sp wp viewbounds thres_temporal rest
      segments l t0 a w0 v0 v0_abs2 = Ok (segments, l).
Proof.
  intros Hinv. induction rest as [|sample rest IH];
    intros segments l t0 a w0 v0 v0_abs2 Ha Hrest Hnd Hv0; [reflexivity|].
  cbn [construct_segments_loop].
  assert (Hb : In (sample_p sample) ps) by (apply Hrest; left; reflexivity).
  assert (Hrest' : incl (map sample_p rest) ps)
    by (intros p Hp; apply Hrest; right; exact Hp).
  cbn [map] in Hnd.
  assert (Hab : a <> sample_p sample).
  { intros ->. inversion Hnd as [|? ? Hnin _]. apply Hnin. left. reflexivity. }
  assert (Hnd_a : NoDup (a :: map sample_p rest)).
  { inversion Hnd as [|? ? Hnin Hnd']. inversion Hnd' as [|? ? _ Hnd''].
    constructor; [|exact Hnd'']. intros Hin. apply Hnin. right. exact Hin. }
  assert (Hnd_b : NoDup (sample_p sample :: map sample_p rest))
    by (inversion Hnd; assumption).
  assert (Hv1 : cabs2 (csub (sample_p sample) a) <> 0)
    by (apply cabs2_csub_nonzero; exact Hab).
  assert (Hskip : exists skip : bool,
    match rest with
    | next :: _ =>
        if (sample_t sample - t0 <? thres_temporal)%num then
          bind (turn_measure v0 v0_abs2 (csub (sample_p sample) a)) (fun d =>
            if (d <? thres_angular)%num then
              bind (turn_measure (csub (sample_p sample) a)
                      (cabs2 (csub (sample_p sample) a))
                      (csub (sample_p next) (sample_p sample)))
                (fun d => Ok (d <? thres_angular)%num)
            else Ok false)
        else Ok false
    | [] => Ok false
    end = Ok skip).
  { destruct rest as [|next rest']; [exists false; reflexivity|].
    destruct (_ <? thres_temporal)%num; [|exists false; reflexivity].
    destruct (turn_measure_returns v0 v0_abs2 _ Hv0 Hv1) as [d ->]. cbn [bind].
    destruct (d <? thres_angular)%num; [|exists false; reflexivity].
    assert (Hbc : sample_p sample <> sample_p next).
    { intros E. cbn [map] in Hnd_b. inversion Hnd_b as [|? ? Hnin _].
      apply Hnin. left. symmetry. exact E. }
    destruct (turn_measure_returns (csub (sample_p sample) a) _
                (csub (sample_p next) (sample_p sample)) Hv1
                (cabs2_csub_nonzero _ _ Hbc)) as [d' ->].
    cbn [bind]. eexists. reflexivity. }
  destruct Hskip as [skip ->]. cbn [bind]. destruct skip.
  - apply IH; assumption.
  - rewrite (Hinv _ _ Ha Hb). cbn [bind fst snd].
    replace (cabs2 (csub (sample_p sample) a) =? of_Z 0)%num with false
      by (symmetry; apply Reqb_false; exact Hv1).
    cbn [negb assert bind].
    apply IH; assumption.
Qed.

Lemma laser_prepare_sampling_params_samples (frames : Z) (l : Laser R)
    (sp : LaserSamplingParams R) :
  laser_prepare_sampling_params frames l (1 / 2) = Some sp ->
  (0 < num_samples sp)%nat.
Proof.
  unfold laser_prepare_sampling_params.
  match goal with |- context [if fleb ?c _ then None else _] => set (c0 := c) end.
  change (fleb c0 (of_Z 0)) with (Rleb c0 0).
  destruct (Rleb c0 0) eqn:Hc; [discriminate|].
  intros Hsp. injection Hsp as <-. cbn [num_samples].
  apply Rleb_false in Hc.
  pose proof (Rceil_ge ((c0 + 1 / 2) / (1 / 2))) as Hceil.
  change (fceil (fdiv (fadd c0 (1 / 2)) (1 / 2))) with (Rceil ((c0 + 1 / 2) / (1 / 2))).
  assert (H1 : 1 < IZR (Rceil ((c0 + 1 / 2) / (1 / 2)))).
  { replace ((c0 + 1 / 2) / (1 / 2)) with (2 * c0 + 1) in * by field. lra. }
  apply lt_IZR in H1. lia.
Qed.

Variables VIEWPORT_W VIEWPORT_H LASER_SDF_RANGE : R.

(** When moreover the positions of the samples are pairwise distinct, no
    assertion fails and the call returns. *)
Lemma quantize_laser_culled_returns (frames : Z) (segments : list (LaserSegment R))
    (l : Laser R) (sp : LaserSamplingParams R) (samples : list (LaserSample R)) :
  0 <= VIEWPORT_W -> 0 <= VIEWPORT_H -> 0 <= LASER_SDF_RANGE + width l / 2 ->
  laser_prepare_sampling_params frames l (1 / 2) = Some sp ->
  fill_samples sp l = Ok samples ->
  NoDup (map sample_p samples) ->
  (forall p q : cmplx R,
      In p (map sample_p samples) -> In q (map sample_p samples) ->
      chord_outside p q (quantize_viewbounds VIEWPORT_W VIEWPORT_H LASER_SDF_RANGE l)) ->
  exists l' : Laser R,
    quantize_laser powf VIEWPORT_W VIEWPORT_H LASER_SDF_RANGE frames segments l
    = Ok (segments, l').
Proof.
  intros HW HH Hmargin Hsp Hfs Hnd Hout.
  set (vb := quantize_viewbounds VIEWPORT_W VIEWPORT_H LASER_SDF_RANGE l) in *.
  assert (Hinv : forall p q : cmplx R,
             In p (map sample_p samples) -> In q (map sample_p samples) ->
             segment_is_visible p q vb = false).
  { intros p q Hp Hq'. apply segment_is_visible_outside.
    - unfold vb, quantize_viewbounds, lit. cbn. lra.
    - unfold vb, quantize_viewbounds, lit. cbn. lra.
    - apply Hout; assumption. }
  pose proof (laser_prepare_sampling_params_samples frames l sp Hsp) as Hns.
  destruct (fill_samples_head sp l samples Hfs) as (s0 & rest & -> & Hp0).
  unfold quantize_laser.
  change (laser_prepare_sampling_params frames (set_range l _ _) (lit 1 2))
    with (laser_prepare_sampling_params frames l (1 / 2)).
  rewrite Hsp.
  apply Nat.ltb_lt in Hns. rewrite Hns. cbn [assert bind].
  rewrite fill_samples_set_range, Hfs. cbn [bind].
  change (quantize_viewbounds _ _ _ (set_range l _ _)) with vb.
  destruct rest as [|s1 rest].
  - cbn [List.length Nat.eqb]. rewrite Hinv by (left; reflexivity).
    cbn. eexists. reflexivity.
  - cbn [List.length Nat.eqb]. unfold construct_segments.
    cbn [map] in Hnd.
    assert (H01 : sample_p s0 <> sample_p s1).
    { intros E. inversion Hnd as [|? ? Hnin _]. apply Hnin. left. symmetry. exact E. }
    assert (Hv0 : cabs2 (csub (sample_p s0) (sample_p s1)) <> 0).
    { apply cabs2_csub_nonzero. intros E. apply H01. symmetry. exact E. }
    replace (cabs2 (csub (sample_p s0) (sample_p s1)) =? of_Z 0)%num with false
      by (symmetry; apply Reqb_false; exact Hv0).
    cbn [negb assert bind].
    rewrite (construct_segments_loop_culled_returns _ _ vb _ _ Hinv).
    + cbn. eexists. reflexivity.
    + left. reflexivity.
    + intros p Hp. right. exact Hp.
    + exact Hnd.
    + exact Hv0.
Qed.
End CulledReturns.

Lemma Rceil_IZR (z : Z) : Rceil (IZR z) = z.
Proof.
  unfold Rceil, Int_part.
  rewrite <- opp_IZR.
  rewrite <- (tech_up (IZR (- z)) (- z + 1)).
  - lia.
  - rewrite plus_IZR. lra.
  - rewrite plus_IZR. lra.
Qed.

Ltac decide_R :=
  repeat match goal with
  | |- context [Rltb ?x ?y] =>
      first [ replace (Rltb x y) with true by (symmetry; apply Rltb_true; lra)
            | replace (Rltb x y) with false by (symmetry; apply Rltb_false; lra) ]
  | |- context [Rleb ?x ?y] =>
      first [ replace (Rleb x y) with true by (symmetry; apply Rleb_true; lra)
            | replace (Rleb x y) with false by (symmetry; apply Rleb_false; lra) ]
  end.

Lemma offscreen_prepare :
  laser_prepare_sampling_params 0 offscreen_point (1 / 2) = Some offscreen_sp.
Proof.
  unfold laser_prepare_sampling_params, offscreen_point, offscreen_sp. cbn.
  decide_R. cbn. decide_R. cbn.
  replace ((1 / 2 + 1 / 2) / (1 / 2)) with (IZR 2) by lra.
  rewrite Rceil_IZR. cbn. repeat f_equal; lra.
Qed.

Lemma offscreen_fill :
  fill_samples offscreen_sp offscreen_point = Ok offscreen_samples.
Proof.
  unfold fill_samples, offscreen_point, offscreen_sp, offscreen_samples. cbn.
  unfold ceqb. cbn. rewrite !Reqb_refl. cbn. reflexivity.
Qed.

Lemma offscreen_outside (p q : cmplx R) :
  In p (map sample_p offscreen_samples) -> In q (map sample_p offscreen_samples) ->
  chord_outside p q (quantize_viewbounds 480 560 0 offscreen_point).
Proof.
  intros [<-|[]] [<-|[]] s Hs [Hx _].
  unfold quantize_viewbounds, lit in Hx. cbn in Hx. lra.
Qed.

Lemma offscreen_quantize :
  exists l' : Laser R,
    quantize_laser Rpower 480 560 0 0 [] offscreen_point = Ok ([], l').
Proof.
  unfold quantize_laser.
  change (laser_prepare_sampling_params 0 (set_range offscreen_point _ _) (lit 1 2))
    with (laser_prepare_sampling_params 0 offscreen_point (1 / 2)).
  rewrite offscreen_prepare. cbn [assert bind num_samples offscreen_sp Nat.ltb Nat.leb].
  rewrite fill_samples_set_range, offscreen_fill.
  cbn [bind offscreen_samples List.length Nat.eqb sample_p].
  rewrite segment_is_visible_outside.
  - cbn. eexists. reflexivity.
  - unfold quantize_viewbounds, lit. cbn. lra.
  - unfold quantize_viewbounds, lit. cbn. lra.
  - apply (offscreen_outside (CMPLX (-1000) 0) (CMPLX (-1000) 0)); left; reflexivity.
Qed.


(** Without a visible time window [quantize_laser] stores nothing and
    leaves the zero box. *)
Lemma quantize_laser_no_window (powf : R -> R -> R)
    (VIEWPORT_W VIEWPORT_H LASER_SDF_RANGE : R) (frames : Z)
    (segments : list (LaserSegment R)) (l : Laser R) :
  laser_prepare_sampling_params frames l (1 / 2) = None ->
  exists l' : Laser R,
    quantize_laser powf VIEWPORT_W VIEWPORT_H LASER_SDF_RANGE frames segments l
    = Ok (segments, l') /\
    num_segments l' = 0%Z /\
    bbox l' = mkRect (CMPLX 0 0) (CMPLX 0 0).
Proof.
  intros Hsp. unfold quantize_laser.
  change (laser_prepare_sampling_params frames (set_range l _ _) (lit 1 2))
    with (laser_prepare_sampling_params frames l (1 / 2)).
  rewrite Hsp. eexists. repeat split.
Qed.

End Culling.

Section CullingRuns.
Import Inputs.
Local Open Scope float_scope.


End CullingRuns.

(** ** Hit capsules *)

Section HitCapsule.
Local Open Scope R_scope.

(** C10: in [laser_collision] the hit capsule of every segment has the
    segment's endpoints and the radii [max(width.a * 0.5 - 4, 2)] and
    [max(width.b * 0.5 - 4, 2)]: each radius is the half-width less 4
    where that is at least 2, and 2 otherwise, so never below 2, and 2
    for a segment of width 0; a player at rest whose distance to that
    capsule is negative is hit (in exact arithmetic). *)
Theorem hit_capsule_radii (lseg : LaserSegment R) :
  let c := hit_capsule lseg in
  uc_pos c = mkLineSegment (pos_a lseg) (pos_b lseg) /\
  radius_a c = Rmax (width_a lseg * 0.5 - 4) 2 /\
  radius_b c = Rmax (width_b lseg * 0.5 - 4) 2 /\
  2 <= radius_a c /\ 2 <= radius_b c /\
  (2 <= width_a lseg * 0.5 - 4 -> radius_a c = width_a lseg * 0.5 - 4) /\
  (2 <= width_b lseg * 0.5 - 4 -> radius_b c = width_b lseg * 0.5 - 4) /\
  (width_a lseg = 0 -> radius_a c = 2) /\
  (width_b lseg = 0 -> radius_b c = 2) /\
  (forall (plrpos : cmplx R) (plrmotion : LineSegment R) (graze : bool)
          (segs : list (LaserSegment R)) (graze_dist : R) (graze_pos : cmplx R),
      ucapsule_dist_from_point plrpos c < 0 ->
      laser_collision_loop plrpos false plrmotion graze (lseg :: segs)
        graze_dist graze_pos = None).
Proof.
  intros c. subst c.
  assert (Hmax : forall w, fmax (w * lit 1 2 - of_Z 4) (of_Z 2) = Rmax (w * 0.5 - 4) 2).
  { intros w. unfold fmax, lit. cbn. unfold Rltb, Rmax.
    replace (w * (1 / 2) - 4) with (w * 0.5 - 4) by lra.
    destruct (Rlt_dec (w * 0.5 - 4) 2), (Rle_dec (w * 0.5 - 4) 2); lra. }
  unfold hit_capsule. cbn [uc_pos radius_a radius_b]. rewrite !Hmax.
  repeat split.
  - apply Rmax_r.
  - apply Rmax_r.
  - intros H. apply Rmax_left. exact H.
  - intros H. apply Rmax_left. exact H.
  - intros ->. apply Rmax_right. lra.
  - intros ->. apply Rmax_right. lra.
  - intros plrpos plrmotion graze segs graze_dist graze_pos Hd.
    cbn [laser_collision_loop andb]. unfold hit_capsule. rewrite !Hmax.
    change (fltb ?x (of_Z 0)) with (Rltb x 0).
    replace (Rltb _ 0) with true by (symmetry; apply Rltb_true; exact Hd).
    reflexivity.
Qed.

(** The capsule of a canonical segment meets the precondition
    [radius.b >= radius.a] that [ucapsule_dist_from_point] asserts. *)
Lemma hit_capsule_wf (lseg : LaserSegment R) :
  width_a lseg <= width_b lseg -> ucapsule_wf (hit_capsule lseg) = true.
Proof.
  intros Hw. unfold ucapsule_wf, hit_capsule, fmax, lit. cbn.
  apply Rleb_true. unfold Rltb.
  destruct (Rlt_dec _ _), (Rlt_dec _ _); lra.
Qed.

End HitCapsule.

Section HitCapsuleRuns.
Import Inputs.
Local Open Scope float_scope.

(** A segment of width 0 still hits: the player at rest one unit beside
    it is inside its capsule of radius 2. *)
Example zero_width_segment_hits :
  radius_a (hit_capsule (mkLaserSegment (CMPLX 0 0) (CMPLX 128 0) 0 0 0 0)) = 2 /\
  ucapsule_dist_from_point (plr_pos thin_player)
    (hit_capsule (mkLaserSegment (CMPLX 0 0) (CMPLX 128 0) 0 0 0 0)) = -1 /\
  hit (laser_collision 100 thin_segments graze_laser thin_player) = true.
Proof. repeat split; vm_compute; reflexivity. Qed.

End HitCapsuleRuns.

(** ** Plane geometry: closest points, rectangles, segments and circles *)

Lemma Reqb_true (x y : R) : Reqb x y = true <-> x = y.
Proof. unfold Reqb; destruct (Req_dec_T x y); split; intros; easy. Qed.

Ltac R_props :=
  repeat match goal with
  | H : _ = true |- _ =>
      progress rewrite ?andb_true_iff, ?andb_false_iff, ?orb_true_iff, ?orb_false_iff,
        ?negb_true_iff, ?negb_false_iff,
        ?Rleb_true, ?Rleb_false, ?Rltb_true, ?Rltb_false in H
  | H : _ = false |- _ =>
      progress rewrite ?andb_true_iff, ?andb_false_iff, ?orb_true_iff, ?orb_false_iff,
        ?negb_true_iff, ?negb_false_iff,
        ?Rleb_true, ?Rleb_false, ?Rltb_true, ?Rltb_false in H
  end.

Ltac to_R :=
  unfold lit in *;
  cbn [re im ls_a ls_b fadd fsub fmul fdiv fopp fabs fsqrt of_Z feqb fltb fleb Num_R] in *.

Ltac R_bools :=
  change (@fleb R Num_R) with Rleb in *; change (@fltb R Num_R) with Rltb in *;
  change (@feqb R Num_R) with Reqb in *.

Ltac R_decide :=
  R_bools;
  repeat match goal with
  | |- context [Rltb ?x ?y] =>
      first [ replace (Rltb x y) with true by (symmetry; apply Rltb_true; lra)
            | replace (Rltb x y) with false by (symmetry; apply Rltb_false; lra) ]
  | |- context [Rleb ?x ?y] =>
      first [ replace (Rleb x y) with true by (symmetry; apply Rleb_true; lra)
            | replace (Rleb x y) with false by (symmetry; apply Rleb_false; lra) ]
  | |- context [Reqb ?x ?y] =>
      first [ replace (Reqb x y) with true by (symmetry; apply Reqb_true; lra)
            | replace (Reqb x y) with false by (symmetry; apply Reqb_false; lra) ]
  end.

Ltac rect_R :=
  unfold rect_wf, rect_left, rect_right, rect_top, rect_bottom in *;
  cbn [top_left bottom_right re im] in *.

Section ClosestPoint.
Local Open Scope R_scope.

Lemma clamp_unit (f : R) :
  0 <= clamp f 0 1 <= 1 /\
  (f <= 0 -> clamp f 0 1 = 0) /\ (1 <= f -> clamp f 0 1 = 1) /\
  (0 <= f <= 1 -> clamp f 0 1 = f).
Proof.
  unfold clamp. cbn. unfold Rltb.
  destruct (Rlt_dec f 0), (Rlt_dec 1 f); repeat split; intros; lra.
Qed.

Lemma lineseg_closest_factor_unit (seg : LineSegment R) (p : cmplx R) :
  0 <= lineseg_closest_factor seg p <= 1.
Proof.
  unfold lineseg_closest_factor, lineseg_closest_factor_impl.
  change (feqb ?x (of_Z 0)) with (Reqb x 0). change (of_Z 0) with 0. change (of_Z 1) with 1.
  destruct (Reqb _ 0); [lra|]. apply clamp_unit.
Qed.

Lemma cabs2_csub_sym (p q : cmplx R) : cabs2 (csub p q) = cabs2 (csub q p).
Proof. unfold cabs2, csub. cbn. ring. Qed.

Lemma closest_point_optimal (seg : LineSegment R) (p : cmplx R) (s : R) :
  0 <= s <= 1 ->
  cabs2 (csub p (lineseg_closest_point seg p))
  <= cabs2 (csub p (clerp (ls_a seg) (ls_b seg) s)).
Proof.
  intros Hs. destruct seg as [[ax ay] [bx by_]], p as [px py].
  unfold lineseg_closest_point, lineseg_closest_factor_impl.
  unfold cmul_finite, conj, cabs2, csub, clerp, lerp. to_R.
  set (mx := bx - ax). set (my := by_ - ay).
  set (h := mx * mx + my * my).
  set (wx := px - ax) in *. set (wy := py - ay) in *.
  assert (E : forall x, (px - (ax + mx * x)) * (px - (ax + mx * x))
                      + (py - (ay + my * x)) * (py - (ay + my * x))
                = wx * wx + wy * wy + h * x * x - 2 * x * (wx * mx + wy * my)).
  { intros x. unfold h, wx, wy. ring. }
  rewrite (E s).
  destruct (Reqb h 0) eqn:Hh.
  - apply Reqb_true in Hh.
    assert (mx = 0 /\ my = 0) as [Hx Hy] by (apply Rplus_sqr_eq_0; exact Hh).
    rewrite E. rewrite Hh, Hx, Hy. lra.
  - apply Reqb_false in Hh.
    assert (Hpos : 0 < h) by (unfold h in *; nra).
    match goal with |- context [clamp ?uu 0 1] => set (u := uu) end.
    assert (Hu : u * h = wx * mx + wy * my).
    { unfold u. unfold wx, wy. field_simplify; [|lra]. ring. }
    destruct (clamp_unit u) as (Hc & Hlo & Hhi & Hmid).
    set (f := clamp u 0 1) in *.
    rewrite (E f). rewrite <- Hu. clearbody f u. clear E.
    destruct (Rle_dec u 0) as [H0|H0].
    { rewrite (Hlo H0).
      assert (0 <= s * s * h) by (apply Rmult_le_pos; nra).
      assert (0 <= s * (- u) * h) by (apply Rmult_le_pos; nra).
      lra. }
    destruct (Rle_dec 1 u) as [H1|H1].
    { rewrite (Hhi H1).
      assert (0 <= (1 - s) * (2 * u - 1 - s) * h)
        by (apply Rmult_le_pos; [apply Rmult_le_pos|]; lra).
      nra. }
    rewrite Hmid by lra.
    assert (0 <= (s - u) * (s - u) * h).
    { apply Rmult_le_pos; [|lra]. apply Rle_0_sqr. }
    nra.
Qed.

(** X2: over the real numbers, for every segment (a segment of length zero
    included) and every point [p], the factor [lineseg_closest_factor]
    returns lies in [0, 1], [lineseg_closest_point] is the point of the
    segment at that factor, and no point of the segment (the point at any
    factor [s] in [0, 1]) is nearer to [p] than it. *)
Theorem lineseg_closest_point_nearest (seg : LineSegment R) (p : cmplx R) (s : R) :
  0 <= s <= 1 ->
  let f := lineseg_closest_factor seg p in
  0 <= f <= 1 /\
  lineseg_closest_point seg p = clerp (ls_a seg) (ls_b seg) f /\
  cabs2 (csub p (lineseg_closest_point seg p))
  <= cabs2 (csub p (clerp (ls_a seg) (ls_b seg) s)).
Proof.
  intros Hs f. split; [apply lineseg_closest_factor_unit|].
  split; [reflexivity|]. apply closest_point_optimal. exact Hs.
Qed.

Lemma lineseg_closest_point_nearest_witness :
  let seg := mkLineSegment (CMPLX 0 0) (CMPLX 4 0) in
  let p := CMPLX 6 3 in
  let f := lineseg_closest_factor seg p in
  0 <= f <= 1 /\
  lineseg_closest_point seg p = clerp (ls_a seg) (ls_b seg) f /\
  cabs2 (csub p (lineseg_closest_point seg p))
  <= cabs2 (csub p (clerp (ls_a seg) (ls_b seg) (1 / 4))).
Proof.
  apply (lineseg_closest_point_nearest
           (mkLineSegment (CMPLX 0 0) (CMPLX 4 0)) (CMPLX 6 3) (1 / 4)).
  lra.
Defined.

End ClosestPoint.

Section Rectangles.
Local Open Scope R_scope.

Lemma point_in_rect_iff (p : cmplx R) (r : Rect R) :
  point_in_rect p r = true <->
  rect_left r <= re p <= rect_right r /\ rect_top r <= im p <= rect_bottom r.
Proof.
  unfold point_in_rect, rect_left, rect_right, rect_top, rect_bottom.
  change (fleb ?x ?y) with (Rleb x y).
  rewrite !andb_true_iff, !Rleb_true. tauto.
Qed.

Lemma fmax_R (x y : R) : fmax x y = Rmax x y.
Proof. unfold fmax, Rmax. R_bools. unfold Rltb. destruct (Rlt_dec x y), (Rle_dec x y); lra. Qed.

Lemma fmin_R (x y : R) : fmin x y = Rmin x y.
Proof. unfold fmin, Rmin. R_bools. unfold Rltb. destruct (Rlt_dec x y), (Rle_dec x y); lra. Qed.

Lemma rect_rect_intersect_touching (r1 r2 : Rect R) (edges corners : bool) :
  rect_rect_intersect r1 r2 edges corners = true ->
  rect_top r2 <= rect_bottom r1 /\ rect_top r1 <= rect_bottom r2 /\
  rect_left r1 <= rect_right r2 /\ rect_left r2 <= rect_right r1.
Proof.
  unfold rect_rect_intersect. R_bools.
  destruct (_ || _ || _ || _) eqn:E; [discriminate|]. intros _.
  R_props. lra.
Qed.

Lemma rect_in_rect_sides (inner outer : Rect R) :
  rect_in_rect inner outer = true <->
  rect_left outer <= rect_left inner /\ rect_right inner <= rect_right outer /\
  rect_top outer <= rect_top inner /\ rect_bottom inner <= rect_bottom outer.
Proof.
  unfold rect_in_rect. R_bools. rewrite !andb_true_iff, !Rleb_true. tauto.
Qed.

Lemma rect_rect_intersect_iff_common (r1 r2 : Rect R) :
  rect_wf r1 -> rect_wf r2 ->
  (rect_rect_intersect r1 r2 true true = true <->
   exists p : cmplx R, point_in_rect p r1 = true /\ point_in_rect p r2 = true).
Proof.
  intros Hw1 Hw2. unfold rect_rect_intersect. cbn [negb andb]. R_bools.
  destruct r1 as [[l1 t1] [rr1 b1]], r2 as [[l2 t2] [rr2 b2]]. rect_R.
  split.
  - destruct (_ || _) eqn:E; [discriminate|]. intros _. R_props.
    exists (CMPLX (Rmax l1 l2) (Rmax t1 t2)).
    rewrite !point_in_rect_iff. rect_R.
    unfold Rmax. destruct (Rle_dec l1 l2), (Rle_dec t1 t2); lra.
  - intros [[x y] [H1 H2]]. apply point_in_rect_iff in H1, H2. rect_R.
    destruct (_ || _) eqn:E; [|reflexivity]. R_props. lra.
Qed.

(** X3: over the real numbers, for two rectangles with left <= right and
    top <= bottom, [rect_rect_intersect] with edge and corner contacts
    counted returns true exactly when some point lies in both rectangles
    in the sense of [point_in_rect]. *)
Theorem rect_rect_intersect_common_point (r1 r2 : Rect R) :
  rect_wf r1 -> rect_wf r2 ->
  (rect_rect_intersect r1 r2 true true = true <->
   exists p : cmplx R, point_in_rect p r1 = true /\ point_in_rect p r2 = true).
Proof. exact (rect_rect_intersect_iff_common r1 r2). Qed.

Lemma rect_rect_intersect_common_point_witness :
  let r1 := mkRect (CMPLX 0 0) (CMPLX 2 2) in
  let r2 := mkRect (CMPLX 2 2) (CMPLX 3 5) in
  rect_rect_intersect r1 r2 true true = true <->
  exists p : cmplx R, point_in_rect p r1 = true /\ point_in_rect p r2 = true.
Proof.
  apply (rect_rect_intersect_common_point
           (mkRect (CMPLX 0 0) (CMPLX 2 2)) (mkRect (CMPLX 2 2) (CMPLX 3 5)));
    unfold rect_wf, rect_left, rect_right, rect_top, rect_bottom; cbn; lra.
Defined.

(** X4: over the real numbers, whenever [rect_rect_intersection] reports
    an intersection, whatever the edge and corner flags, the rectangle it
    writes to [out] holds exactly the points that lie in both rectangles. *)
Theorem rect_rect_intersection_points (r1 r2 out : Rect R) (edges corners : bool)
    (p : cmplx R) :
  rect_rect_intersection r1 r2 edges corners = Some out ->
  (point_in_rect p out = true <->
   point_in_rect p r1 = true /\ point_in_rect p r2 = true).
Proof.
  unfold rect_rect_intersection. destruct (negb _); [discriminate|].
  intros H. injection H as <-. rewrite !point_in_rect_iff. rect_R.
  rewrite !fmax_R, !fmin_R.
  destruct r1 as [[l1 t1] [rr1 b1]], r2 as [[l2 t2] [rr2 b2]]. cbn [top_left bottom_right re im].
  unfold Rmax, Rmin.
  destruct (Rle_dec l1 l2), (Rle_dec t1 t2), (Rle_dec rr1 rr2), (Rle_dec b1 b2); lra.
Qed.

Lemma rect_rect_intersection_points_witness :
  let r1 := mkRect (CMPLX 0 0) (CMPLX 2 2) in
  let r2 := mkRect (CMPLX 1 1) (CMPLX 3 3) in
  let out := mkRect (CMPLX 1 1) (CMPLX 2 2) in
  let p := CMPLX (3 / 2) 2 in
  point_in_rect p out = true <->
  point_in_rect p r1 = true /\ point_in_rect p r2 = true.
Proof.
  apply (rect_rect_intersection_points
           (mkRect (CMPLX 0 0) (CMPLX 2 2)) (mkRect (CMPLX 1 1) (CMPLX 3 3))
           (mkRect (CMPLX 1 1) (CMPLX 2 2)) false false (CMPLX (3 / 2) 2)).
  unfold rect_rect_intersection, rect_rect_intersect, fmax, fmin,
    rect_left, rect_right, rect_top, rect_bottom.
  cbn [top_left bottom_right re im]. R_decide. reflexivity.
Defined.

(** X5: over the real numbers, for an inner rectangle with left <= right
    and top <= bottom, [rect_in_rect] returns true exactly when every
    point of the inner rectangle is a point of the outer one. *)
Theorem rect_in_rect_points (inner outer : Rect R) :
  rect_wf inner ->
  (rect_in_rect inner outer = true <->
   forall p : cmplx R, point_in_rect p inner = true -> point_in_rect p outer = true).
Proof.
  intros Hw. unfold rect_in_rect. R_bools.
  rewrite !andb_true_iff, !Rleb_true.
  destruct inner as [[l1 t1] [rr1 b1]], outer as [[l2 t2] [rr2 b2]]. rect_R.
  split.
  - intros H p. rewrite !point_in_rect_iff. rect_R. lra.
  - intros H.
    pose proof (H (CMPLX l1 t1)) as Ha. pose proof (H (CMPLX rr1 b1)) as Hb.
    rewrite !point_in_rect_iff in Ha, Hb. rect_R. lra.
Qed.

Lemma rect_in_rect_points_witness :
  let inner := mkRect (CMPLX 1 1) (CMPLX 2 3) in
  let outer := mkRect (CMPLX 0 0) (CMPLX 2 4) in
  rect_in_rect inner outer = true <->
  forall p : cmplx R, point_in_rect p inner = true -> point_in_rect p outer = true.
Proof.
  apply (rect_in_rect_points
           (mkRect (CMPLX 1 1) (CMPLX 2 3)) (mkRect (CMPLX 0 0) (CMPLX 2 4))).
  unfold rect_wf, rect_left, rect_right, rect_top, rect_bottom; cbn; lra.
Defined.

(** X6: over the real numbers, for two rectangles with left <= right and
    top <= bottom, whenever [rect_join] returns true the rectangle it
    leaves in [*r1] holds exactly the points of the two rectangles: the
    join is their union, never a larger box. *)
Theorem rect_join_union (r1 r2 : Rect R) (p : cmplx R) :
  rect_wf r1 -> rect_wf r2 ->
  fst (rect_join r1 r2) = true ->
  (point_in_rect p (snd (rect_join r1 r2)) = true <->
   point_in_rect p r1 = true \/ point_in_rect p r2 = true).
Proof.
  intros Hw1 Hw2. unfold rect_join.
  destruct (rect_in_rect r2 r1) eqn:E1.
  { intros _. cbn [snd]. apply rect_in_rect_sides in E1.
    rewrite !point_in_rect_iff. lra. }
  destruct (rect_in_rect r1 r2) eqn:E2.
  { intros _. cbn [snd]. apply rect_in_rect_sides in E2.
    rewrite !point_in_rect_iff. lra. }
  clear E1 E2.
  destruct (rect_rect_intersect r1 r2 true false) eqn:E3; [|cbn; discriminate].
  apply rect_rect_intersect_touching in E3. cbn [negb]. R_bools.
  destruct r1 as [[l1 t1] [rr1 b1]], r2 as [[l2 t2] [rr2 b2]]. rect_R.
  destruct p as [x y].
  destruct (Reqb l1 l2 && Reqb rr1 rr2) eqn:E5.
  { intros _. cbn [snd]. rewrite !point_in_rect_iff. rect_R.
    rewrite fmin_R, fmax_R. apply andb_true_iff in E5. destruct E5 as [Ea Eb].
    apply Reqb_true in Ea, Eb. subst.
    unfold Rmin, Rmax. destruct (Rle_dec t1 t2), (Rle_dec b1 b2); split; intros; lra. }
  destruct (Reqb t1 t2 && Reqb b1 b2) eqn:E6.
  { intros _. cbn [snd]. rewrite !point_in_rect_iff. rect_R.
    rewrite fmin_R, fmax_R. apply andb_true_iff in E6. destruct E6 as [Ea Eb].
    apply Reqb_true in Ea, Eb. subst.
    unfold Rmin, Rmax. destruct (Rle_dec l1 l2), (Rle_dec rr1 rr2); split; intros; lra. }
  cbn. discriminate.
Qed.

Lemma rect_join_union_witness :
  let r1 := mkRect (CMPLX 0 0) (CMPLX 2 2) in
  let r2 := mkRect (CMPLX 0 1) (CMPLX 2 5) in
  let p := CMPLX 1 4 in
  point_in_rect p (snd (rect_join r1 r2)) = true <->
  point_in_rect p r1 = true \/ point_in_rect p r2 = true.
Proof.
  apply (rect_join_union
           (mkRect (CMPLX 0 0) (CMPLX 2 2)) (mkRect (CMPLX 0 1) (CMPLX 2 5)) (CMPLX 1 4)).
  - unfold rect_wf, rect_left, rect_right, rect_top, rect_bottom; cbn; lra.
  - unfold rect_wf, rect_left, rect_right, rect_top, rect_bottom; cbn; lra.
  - unfold rect_join, rect_in_rect, rect_rect_intersect,
      rect_left, rect_right, rect_top, rect_bottom.
    cbn [top_left bottom_right re im]. R_decide. reflexivity.
Defined.

(** Two rectangles stacked on a common pair of sides are joined into the
    box (0,0)-(2,5); two rectangles that only overlap in part, without a
    common pair of sides, are not joined. *)
Example rect_join_runs :
  rect_join (mkRect (CMPLX 0 0) (CMPLX 2 2)) (mkRect (CMPLX 0 1) (CMPLX 2 5))
  = (true, mkRect (CMPLX 0 0) (CMPLX 2 5)) /\
  fst (rect_join (mkRect (CMPLX 0 0) (CMPLX 2 2)) (mkRect (CMPLX 1 1) (CMPLX 3 3)))
  = false.
Proof.
  split;
    unfold rect_join, rect_in_rect, rect_rect_intersect, fmin, fmax,
      rect_left, rect_right, rect_top, rect_bottom;
    cbn [top_left bottom_right re im]; R_decide; reflexivity.
Qed.

End Rectangles.

Section Segments.
Local Open Scope R_scope.

Lemma lineseg_lineseg_intersection_out_some (seg0 seg1 : LineSegment R) :
  lineseg_lineseg_intersection seg0 seg1 = true <->
  exists q, lineseg_lineseg_intersection_out seg0 seg1 = Some q.
Proof.
  unfold lineseg_lineseg_intersection, lineseg_lineseg_intersection_out.
  destruct (_ =? _)%num; [split; [discriminate|intros [q H]; discriminate]|].
  destruct (_ || _); [split; [discriminate|intros [q H]; discriminate]|].
  destruct (_ || _); [split; [discriminate|intros [q H]; discriminate]|].
  split; [intros _; eexists; reflexivity|reflexivity].
Qed.

Lemma lineseg_lineseg_intersection_out_iff (seg0 seg1 : LineSegment R) (q : cmplx R) :
  lineseg_lineseg_intersection_out seg0 seg1 = Some q <->
  ccross (csub (ls_b seg0) (ls_a seg0)) (csub (ls_b seg1) (ls_a seg1)) <> 0 /\
  exists s t : R, 0 <= s <= 1 /\ 0 <= t <= 1 /\
    clerp (ls_a seg0) (ls_b seg0) t = q /\ clerp (ls_a seg1) (ls_b seg1) s = q.
Proof.
  destruct seg0 as [[p0x p0y] [p1x p1y]], seg1 as [[p2x p2y] [p3x p3y]].
  unfold lineseg_lineseg_intersection_out, ccross, csub, clerp, lerp. to_R.
  set (s1x := p1x - p0x). set (s1y := p1y - p0y).
  set (s2x := p3x - p2x). set (s2y := p3y - p2y).
  set (d := - s2x * s1y + s1x * s2y).
  replace (s1x * s2y - s1y * s2x) with d by (unfold d; ring).
  set (s := (- s1y * (p0x - p2x) + s1x * (p0y - p2y)) / d).
  set (t := (s2x * (p0y - p2y) - s2y * (p0x - p2x)) / d).
  destruct (Reqb d 0) eqn:Hd.
  { apply Reqb_true in Hd. split; [discriminate|]. intros [Hne _]. contradiction. }
  apply Reqb_false in Hd.
  assert (Hs : s * d = - s1y * (p0x - p2x) + s1x * (p0y - p2y)) by (unfold s; field; exact Hd).
  assert (Ht : t * d = s2x * (p0y - p2y) - s2y * (p0x - p2x)) by (unfold t; field; exact Hd).
  assert (Hpoint : p0x + s1x * t = p2x + s2x * s /\ p0y + s1y * t = p2y + s2y * s).
  { split; apply Rmult_eq_reg_r with (r := d); try exact Hd.
    - replace ((p0x + s1x * t) * d) with (p0x * d + s1x * (t * d)) by ring.
      replace ((p2x + s2x * s) * d) with (p2x * d + s2x * (s * d)) by ring.
      rewrite Hs, Ht. unfold d. ring.
    - replace ((p0y + s1y * t) * d) with (p0y * d + s1y * (t * d)) by ring.
      replace ((p2y + s2y * s) * d) with (p2y * d + s2y * (s * d)) by ring.
      rewrite Hs, Ht. unfold d. ring. }
  clearbody s t.
  split.
  - intros H. split; [exact Hd|].
    destruct (Rltb s 0 || Rltb 1 s) eqn:Es; [discriminate|].
    destruct (Rltb t 0 || Rltb 1 t) eqn:Et; [discriminate|].
    apply orb_false_iff in Es, Et. destruct Es as [Es0 Es1], Et as [Et0 Et1].
    apply Rltb_false in Es0, Es1, Et0, Et1.
    injection H as <-.
    exists s, t. repeat split; try lra.
    + f_equal; ring.
    + destruct Hpoint as [Hx Hy]. f_equal; lra.
  - intros [_ (s' & t' & Hs' & Ht' & E0 & E1)]. subst q. injection E1 as Ex Ey.
    assert (s' = s).
    { apply Rmult_eq_reg_r with (r := d); [|exact Hd]. rewrite Hs. unfold d.
      replace (p0x - p2x) with (s2x * s' - s1x * t') by lra.
      replace (p0y - p2y) with (s2y * s' - s1y * t') by lra. ring. }
    assert (t' = t).
    { apply Rmult_eq_reg_r with (r := d); [|exact Hd]. rewrite Ht. unfold d.
      replace (p0x - p2x) with (s2x * s' - s1x * t') by lra.
      replace (p0y - p2y) with (s2y * s' - s1y * t') by lra. ring. }
    subst s' t'.
    replace (Rltb s 0) with false by (symmetry; apply Rltb_false; lra).
    replace (Rltb 1 s) with false by (symmetry; apply Rltb_false; lra).
    replace (Rltb t 0) with false by (symmetry; apply Rltb_false; lra).
    replace (Rltb 1 t) with false by (symmetry; apply Rltb_false; lra).
    cbn. f_equal. f_equal; ring.
Qed.

(** X7: over the real numbers, [lineseg_lineseg_intersection] returns true
    with the point [q] in [*out] exactly when the two segments are not
    parallel (the cross product of their directions is not zero) and [q]
    is a point of both, at a factor in [0, 1] on each. Two collinear
    segments are reported as not intersecting even when they overlap. *)
Theorem lineseg_lineseg_intersection_point (seg0 seg1 : LineSegment R) (q : cmplx R) :
  lineseg_lineseg_intersection_out seg0 seg1 = Some q <->
  ccross (csub (ls_b seg0) (ls_a seg0)) (csub (ls_b seg1) (ls_a seg1)) <> 0 /\
  exists s t : R, 0 <= s <= 1 /\ 0 <= t <= 1 /\
    clerp (ls_a seg0) (ls_b seg0) t = q /\ clerp (ls_a seg1) (ls_b seg1) s = q.
Proof. exact (lineseg_lineseg_intersection_out_iff seg0 seg1 q). Qed.

(** The same for a call with [out = NULL], as [laser_collision] makes it. *)
Corollary lineseg_lineseg_intersection_iff (seg0 seg1 : LineSegment R) :
  lineseg_lineseg_intersection seg0 seg1 = true <->
  ccross (csub (ls_b seg0) (ls_a seg0)) (csub (ls_b seg1) (ls_a seg1)) <> 0 /\
  exists s t : R, 0 <= s <= 1 /\ 0 <= t <= 1 /\
    clerp (ls_a seg0) (ls_b seg0) t = clerp (ls_a seg1) (ls_b seg1) s.
Proof.
  rewrite lineseg_lineseg_intersection_out_some. split.
  - intros [q H]. apply lineseg_lineseg_intersection_out_iff in H.
    destruct H as [Hd (s & t & Hs & Ht & E0 & E1)]. split; [exact Hd|].
    exists s, t. repeat split; try tauto. congruence.
  - intros [Hd (s & t & Hs & Ht & E)].
    exists (clerp (ls_a seg1) (ls_b seg1) s).
    apply lineseg_lineseg_intersection_out_iff. split; [exact Hd|].
    exists s, t. repeat split; try tauto.
Qed.

(** Two overlapping segments of the x axis: no intersection is reported. *)
Example lineseg_lineseg_intersection_collinear :
  lineseg_lineseg_intersection
    (mkLineSegment (CMPLX 0 0) (CMPLX 2 0)) (mkLineSegment (CMPLX 1 0) (CMPLX 3 0))
  = false.
Proof.
  unfold lineseg_lineseg_intersection. cbn [ls_a ls_b re im]. to_R. R_decide. reflexivity.
Qed.

Lemma lineseg_bbox_wf (seg : LineSegment R) : rect_wf (lineseg_bbox seg).
Proof.
  destruct seg as [[ax ay] [bx by_]]. unfold lineseg_bbox, csort, cswap.
  cbn [ls_a ls_b re im]. R_bools. unfold Rltb.
  destruct (Rlt_dec bx ax), (Rlt_dec by_ ay); rect_R; lra.
Qed.

Lemma lineseg_bbox_contains (seg : LineSegment R) (s : R) :
  0 <= s <= 1 ->
  point_in_rect (clerp (ls_a seg) (ls_b seg) s) (lineseg_bbox seg) = true.
Proof.
  intros Hs. rewrite point_in_rect_iff.
  destruct seg as [[ax ay] [bx by_]]. unfold lineseg_bbox, csort, cswap, clerp, lerp.
  cbn [ls_a ls_b re im]. to_R. R_bools. unfold Rltb.
  destruct (Rlt_dec bx ax), (Rlt_dec by_ ay); rect_R; nra.
Qed.

Lemma lineseg_circle_intersect_fallback_iff (seg : LineSegment R) (c : Circle R) :
  let f := lineseg_circle_intersect_fallback seg c in
  let within s :=
    cabs2 (csub (clerp (ls_a seg) (ls_b seg) s) (c_origin c))
    <= c_radius c * c_radius c in
  (0 <= f <-> exists s : R, 0 <= s <= 1 /\ within s) /\
  (0 <= f -> f <= 1 /\ within f) /\
  (f < 0 -> f = -1).
Proof.
  intros f within. subst f within. unfold lineseg_circle_intersect_fallback.
  pose proof (lineseg_closest_factor_unit seg (c_origin c)) as Hf.
  unfold lineseg_closest_factor in Hf.
  set (f := lineseg_closest_factor_impl _ _) in *.
  R_bools. change (fopp (of_Z 1)) with (-1). change (fmul ?x ?y) with (x * y).
  destruct (Rleb _ _) eqn:E.
  - apply Rleb_true in E. split; [split|split].
    + intros _. exists f. split; [exact Hf|exact E].
    + intros _. lra.
    + intros _. split; [lra|exact E].
    + intros H. lra.
  - apply Rleb_false in E. split; [split|split].
    + intros H. lra.
    + intros (s & Hs & Hin). exfalso.
      pose proof (closest_point_optimal seg (c_origin c) s Hs) as Hopt.
      unfold lineseg_closest_point, lineseg_closest_factor in Hopt. fold f in Hopt.
      rewrite (cabs2_csub_sym (c_origin c)) in Hopt.
      rewrite (cabs2_csub_sym (c_origin c) (clerp _ _ s)) in Hopt. lra.
    + intros H. lra.
    + intros _. reflexivity.
Qed.

(** X8: over the real numbers, [lineseg_circle_intersect_fallback] returns
    a factor in [0, 1] whose point of the segment lies in the closed disc
    when some point of the segment lies in the disc, and -1 when none
    does; the result is non-negative exactly in the first case. *)
Theorem lineseg_circle_intersect_fallback_meets (seg : LineSegment R) (c : Circle R) :
  let f := lineseg_circle_intersect_fallback seg c in
  let within s :=
    cabs2 (csub (clerp (ls_a seg) (ls_b seg) s) (c_origin c))
    <= c_radius c * c_radius c in
  (0 <= f <-> exists s : R, 0 <= s <= 1 /\ within s) /\
  (0 <= f -> f <= 1 /\ within f) /\
  (f < 0 -> f = -1).
Proof. exact (lineseg_circle_intersect_fallback_iff seg c). Qed.

Lemma within_disc_within_box (x y r : R) :
  0 <= r -> x * x + y * y <= r * r -> - r <= x <= r /\ - r <= y <= r.
Proof.
  intros Hr H. repeat split; apply Rnot_lt_le; intros Hc; nra.
Qed.

Lemma circle_bbox (c : Circle R) :
  ellipse_bbox (mkEllipse (c_origin c)
                  (CMPLX (of_Z 2 * c_radius c)%num (of_Z 2 * c_radius c)%num) (of_Z 0))
  = mkRect (csub (c_origin c) (CMPLX (c_radius c) (c_radius c)))
           (cadd (c_origin c) (CMPLX (c_radius c) (c_radius c))).
Proof.
  unfold ellipse_bbox. cbn [e_axes e_origin re im]. rewrite fmax_R. to_R.
  rewrite Rmax_left by lra.
  replace (2 * c_radius c * (1 / 2)) with (c_radius c) by lra. reflexivity.
Qed.

(** X9: over the real numbers, for a circle of radius at least 0, the
    bounding-box test at the head of [lineseg_circle_intersect] never
    changes the answer: the function returns what
    [lineseg_circle_intersect_fallback] returns. *)
Theorem lineseg_circle_intersect_heuristic_sound (seg : LineSegment R) (c : Circle R) :
  0 <= c_radius c ->
  lineseg_circle_intersect seg c = lineseg_circle_intersect_fallback seg c.
Proof.
  intros Hr. unfold lineseg_circle_intersect, segment_ellipse_nonintersection_heuristic.
  rewrite circle_bbox.
  destruct (rect_rect_intersect _ _ true true) eqn:E; [reflexivity|]. cbn [negb].
  destruct (lineseg_circle_intersect_fallback_iff seg c) as (Hiff & Hin & Hneg).
  cbv zeta in Hiff, Hin, Hneg.
  destruct (Rlt_dec (lineseg_circle_intersect_fallback seg c) 0) as [Hlt|Hge].
  { rewrite (Hneg Hlt). reflexivity. }
  exfalso. apply Rnot_lt_le in Hge. destruct (Hin Hge) as [Hle1 Hw].
  set (f := lineseg_circle_intersect_fallback seg c) in *.
  assert (Ht : rect_rect_intersect (lineseg_bbox seg)
                 (mkRect (csub (c_origin c) (CMPLX (c_radius c) (c_radius c)))
                         (cadd (c_origin c) (CMPLX (c_radius c) (c_radius c))))
                 true true = true).
  { apply rect_rect_intersect_iff_common.
    - apply lineseg_bbox_wf.
    - unfold csub, cadd. rect_R. to_R. lra.
    - exists (clerp (ls_a seg) (ls_b seg) f). split.
      + apply lineseg_bbox_contains. lra.
      + rewrite point_in_rect_iff. clearbody f.
        set (q := clerp (ls_a seg) (ls_b seg) f) in *. clearbody q.
        destruct q as [qx qy], c as [[ox oy] r].
        unfold cabs2, csub, cadd in *. cbn [c_origin c_radius re im] in *. rect_R.
        to_R. pose proof (within_disc_within_box _ _ _ Hr Hw). lra. }
  congruence.
Qed.

Lemma lineseg_circle_intersect_heuristic_sound_witness :
  let seg := mkLineSegment (CMPLX 0 0) (CMPLX 4 0) in
  let c := mkCircle (CMPLX 2 1) 2 in
  lineseg_circle_intersect seg c = lineseg_circle_intersect_fallback seg c.
Proof.
  apply (lineseg_circle_intersect_heuristic_sound
           (mkLineSegment (CMPLX 0 0) (CMPLX 4 0)) (mkCircle (CMPLX 2 1) 2)).
  cbn. lra.
Defined.

(** A negative radius breaks the agreement: the disc test squares the
    radius, the bounding box does not. *)
Example lineseg_circle_intersect_negative_radius :
  let seg := mkLineSegment (CMPLX 0 0) (CMPLX 4 0) in
  let c := mkCircle (CMPLX 2 1) (-2) in
  lineseg_circle_intersect seg c = -1 /\
  lineseg_circle_intersect_fallback seg c = 1 / 2.
Proof.
  split.
  - unfold lineseg_circle_intersect, segment_ellipse_nonintersection_heuristic.
    rewrite circle_bbox.
    unfold rect_rect_intersect, lineseg_bbox, csort, cswap, csub, cadd,
      rect_left, rect_right, rect_top, rect_bottom.
    cbn [ls_a ls_b c_origin c_radius top_left bottom_right re im]. to_R.
    R_decide. cbn [re im]. R_decide. reflexivity.
  - unfold lineseg_circle_intersect_fallback, lineseg_closest_factor_impl, clamp,
      cmul_finite, conj, cabs2, csub, clerp, lerp.
    cbn [ls_a ls_b c_origin c_radius re im]. to_R.
    R_decide.
    replace (- ((0 - 2) * (4 - 0) - (0 - 1) * - (0 - 0)) / ((4 - 0) * (4 - 0) + (0 - 0) * (0 - 0)))
      with (1 / 2) by lra.
    R_decide. reflexivity.
Qed.

End Segments.

Section CapsuleOfEqualRadii.
Local Open Scope R_scope.

(** X10: over the real numbers, for a capsule on a segment [a], [b] with
    [a <> b] and both radii [r], [ucapsule_dist_from_point] is, at every
    point [p], the distance from [p] to the nearest point of the segment
    (the point [lineseg_closest_point] returns), less [r]. *)
Theorem ucapsule_dist_equal_radii (a b p : cmplx R) (r : R) :
  a <> b ->
  ucapsule_dist_from_point p (mkUnevenCapsule (mkLineSegment a b) r r)
  = cabs (csub p (lineseg_closest_point (mkLineSegment a b) p)) - r.
Proof.
  intros Hab. destruct a as [ax ay], b as [bx by_], p as [px py].
  assert (Hne : bx - ax <> 0 \/ by_ - ay <> 0).
  { destruct (Req_dec_T (bx - ax) 0) as [E1|E1]; [|left; exact E1].
    destruct (Req_dec_T (by_ - ay) 0) as [E2|E2]; [|right; exact E2].
    exfalso. apply Hab. f_equal; lra. }
  unfold ucapsule_dist_from_point, lineseg_closest_point, lineseg_closest_factor_impl.
  unfold cabs, cabs2, cdot, ccross, conj, cswap, cdivr, csub, cmul_finite, clerp, lerp.
  cbn [uc_pos radius_a radius_b ls_a ls_b re im]. to_R. R_bools.
  set (dx := bx - ax) in *. set (dy := by_ - ay) in *.
  set (wx := px - ax). set (wy := py - ay).
  set (h := dx * dx + dy * dy).
  assert (Hh : 0 < h) by (unfold h; destruct Hne; nra).
  replace (h - (r - r) * (r - r)) with h by ring.
  set (rh := sqrt h).
  assert (Hrh : 0 < rh) by (apply sqrt_lt_R0; exact Hh).
  assert (Hrh2 : rh * rh = h) by (apply sqrt_sqrt; lra).
  set (X := (wx * dy + wy * - dx) / h).
  set (u := (wx * dx + wy * dy) / h).
  replace (- ((ax - px) * dx - (ay - py) * - dy) / h) with u
    by (unfold u, wx, wy; field; lra).
  replace (rh * u - (r - r) * Rabs X) with (rh * u) by ring.
  replace (rh * Rabs X + (r - r) * u) with (rh * Rabs X) by ring.
  assert (Habs : Rabs X * Rabs X = X * X).
  { unfold Rabs. destruct (Rcase_abs X); ring. }
  assert (HX : X * h = wx * dy - wy * dx) by (unfold X; field; lra).
  assert (Hu : u * h = wx * dx + wy * dy) by (unfold u; field; lra).
  assert (Hlag : h * (X * X + u * u) = wx * wx + wy * wy).
  { apply Rmult_eq_reg_r with (r := h); [|lra].
    replace (h * (X * X + u * u) * h) with ((X * h) * (X * h) + (u * h) * (u * h)) by ring.
    rewrite HX, Hu. unfold h. ring. }
  replace (Reqb h 0) with false by (symmetry; apply Reqb_false; lra).
  destruct (clamp_unit u) as (_ & Hlo & Hhi & Hmid).
  destruct (Rltb (rh * u) 0) eqn:E1.
  - apply Rltb_true in E1. assert (u < 0) by nra.
    rewrite Hlo by lra. f_equal. f_equal. rewrite Habs, Hlag.
    unfold wx, wy. ring.
  - apply Rltb_false in E1. assert (0 <= u) by nra.
    destruct (Rltb rh (rh * u)) eqn:E2.
    + apply Rltb_true in E2. assert (1 < u) by nra.
      rewrite Hhi by lra. f_equal. f_equal. rewrite Habs.
      replace (h * (X * X + u * u + 1 - 2 * u)) with (h * (X * X + u * u) + h - 2 * (u * h)) by ring.
      rewrite Hlag, Hu. unfold h, wx, wy, dx, dy. ring.
    + apply Rltb_false in E2. assert (u <= 1) by nra.
      rewrite Hmid by lra. f_equal. symmetry. apply sqrt_lem_1.
      * apply Rplus_le_le_0_compat; apply Rle_0_sqr.
      * apply Rmult_le_pos; [lra|apply Rabs_pos].
      * replace (rh * Rabs X * (rh * Rabs X)) with ((rh * rh) * (Rabs X * Rabs X)) by ring.
        rewrite Hrh2, Habs.
        replace (px - (ax + dx * u)) with (wx - dx * u) by (unfold wx; ring).
        replace (py - (ay + dy * u)) with (wy - dy * u) by (unfold wy; ring).
        replace ((wx - dx * u) * (wx - dx * u) + (wy - dy * u) * (wy - dy * u))
          with (wx * wx + wy * wy - 2 * u * (wx * dx + wy * dy) + u * u * h)
          by (unfold h; ring).
        rewrite <- Hlag, <- Hu. ring.
Qed.

Lemma ucapsule_dist_equal_radii_witness :
  let a := CMPLX 0 0 in
  let b := CMPLX 4 0 in
  let p := CMPLX 7 4 in
  ucapsule_dist_from_point p (mkUnevenCapsule (mkLineSegment a b) 1 1)
  = cabs (csub p (lineseg_closest_point (mkLineSegment a b) p)) - 1.
Proof.
  apply (ucapsule_dist_equal_radii (CMPLX 0 0) (CMPLX 4 0) (CMPLX 7 4) 1).
  intros H. injection H as H. lra.
Defined.

End CapsuleOfEqualRadii.

Section Ellipses.
Local Open Scope R_scope.

(** What the code needs of [cdir]: a unit vector, and the conjugate for
    the opposite angle. *)
Variable cdir : R -> cmplx R.
Hypothesis cdir_unit : forall angle, cabs2 (cdir angle) = 1.
Hypothesis cdir_opp : forall angle, cdir (- angle) = conj (cdir angle).

Lemma ellipse_bbox_wf (e : Ellipse R) :
  0 < re (e_axes e) -> rect_wf (ellipse_bbox e).
Proof.
  intros HA. unfold ellipse_bbox, csub, cadd. rewrite fmax_R. rect_R. to_R.
  pose proof (Rmax_l (re (e_axes e)) (im (e_axes e))). lra.
Qed.

Lemma point_in_ellipse_iff (q : cmplx R) (e : Ellipse R) :
  0 < re (e_axes e) -> 0 < im (e_axes e) ->
  (point_in_ellipse cdir q e = true <->
   cdot (csub q (e_origin e)) (cdir (e_angle e))
   * cdot (csub q (e_origin e)) (cdir (e_angle e)) / (re (e_axes e) * re (e_axes e))
   + ccross (csub q (e_origin e)) (cdir (e_angle e))
     * ccross (csub q (e_origin e)) (cdir (e_angle e)) / (im (e_axes e) * im (e_axes e))
   <= 1 / 4).
Proof.
  intros HA HB. unfold point_in_ellipse.
  pose proof (cdir_unit (e_angle e)) as Hu.
  destruct e as [[ox oy] [A B] th]. destruct q as [qx qy].
  cbn [e_origin e_axes e_angle re im] in *.
  destruct (cdir th) as [c s]. unfold cabs2 in Hu. cbn [re im] in Hu.
  unfold cwdiv, cwmul, cdot, ccross, csub. cbn [re im]. to_R. R_bools.
  set (x := qx - ox). set (y := qy - oy).
  set (D := x * c + y * s). set (C := x * s - y * c).
  destruct (point_in_rect _ _) eqn:Hin; cbn [negb]; [apply Rleb_true|].
  split; [discriminate|]. intros Heq. exfalso.
  assert (Hin' : point_in_rect (CMPLX qx qy)
                   (ellipse_bbox (mkEllipse (CMPLX ox oy) (CMPLX A B) th)) = true).
  { rewrite point_in_rect_iff. unfold ellipse_bbox, csub, cadd. rewrite fmax_R.
    rect_R. cbn [e_origin e_axes re im]. to_R.
    set (M := Rmax A B).
    assert (HMA : A <= M) by apply Rmax_l. assert (HMB : B <= M) by apply Rmax_r.
    set (al := D * D / (A * A)) in *. set (be := C * C / (B * B)) in *.
    assert (Hal : al * (A * A) = D * D) by (unfold al; field; lra).
    assert (Hbe : be * (B * B) = C * C) by (unfold be; field; lra).
    assert (Hal0 : 0 <= al).
    { unfold al. apply Rmult_le_pos; [apply Rle_0_sqr|].
      apply Rlt_le, Rinv_0_lt_compat. nra. }
    assert (Hbe0 : 0 <= be).
    { unfold be. apply Rmult_le_pos; [apply Rle_0_sqr|].
      apply Rlt_le, Rinv_0_lt_compat. nra. }
    assert (HAM : A * A <= M * M) by nra. assert (HBM : B * B <= M * M) by nra.
    assert (Hsum : D * D + C * C <= M * (1 / 2) * (M * (1 / 2))).
    { rewrite <- Hal, <- Hbe. clearbody al be.
      assert (al * (A * A) <= al * (M * M)) by (apply Rmult_le_compat_l; lra).
      assert (be * (B * B) <= be * (M * M)) by (apply Rmult_le_compat_l; lra).
      assert ((al + be) * (M * M) <= 1 / 4 * (M * M))
        by (apply Rmult_le_compat_r; nra).
      lra. }
    assert (Hxy : x * x + y * y = D * D + C * C).
    { unfold D, C. replace (x * x + y * y) with ((x * x + y * y) * (c * c + s * s))
        by (rewrite Hu; ring). ring. }
    rewrite <- Hxy in Hsum.
    assert (HM0 : 0 <= M * (1 / 2)) by lra.
    pose proof (within_disc_within_box _ _ _ HM0 Hsum). unfold x, y in *. lra. }
  rewrite Hin' in Hin. discriminate.
Qed.

Lemma lineseg_ellipse_intersect_iff (seg : LineSegment R) (e : Ellipse R) :
  0 < re (e_axes e) -> 0 < im (e_axes e) ->
  exists hit : bool,
    lineseg_ellipse_intersect cdir seg e = Ok hit /\
    (hit = true <->
     exists s : R, 0 <= s <= 1 /\
       point_in_ellipse cdir (clerp (ls_a seg) (ls_b seg) s) e = true).
Proof.
  intros HA HB. unfold lineseg_ellipse_intersect, segment_ellipse_nonintersection_heuristic.
  destruct (rect_rect_intersect (lineseg_bbox seg) (ellipse_bbox e) true true) eqn:Hh;
    cbn [negb].
  2:{ exists false. split; [reflexivity|]. split; [discriminate|].
      intros (s & Hs & Hin). exfalso.
      assert (Ht : rect_rect_intersect (lineseg_bbox seg) (ellipse_bbox e) true true = true).
      { apply rect_rect_intersect_iff_common.
        - apply lineseg_bbox_wf.
        - apply ellipse_bbox_wf; exact HA.
        - exists (clerp (ls_a seg) (ls_b seg) s). split.
          + apply lineseg_bbox_contains; exact Hs.
          + unfold point_in_ellipse in Hin.
            destruct (point_in_rect _ (ellipse_bbox e)); [reflexivity|discriminate]. }
      congruence. }
  clear Hh. R_bools.
  assert (Hratio : 0 < re (e_axes e) / im (e_axes e)).
  { apply Rdiv_lt_0_compat; assumption. }
  change (fdiv (re (e_axes e)) (im (e_axes e))) with (re (e_axes e) / im (e_axes e)).
  replace (Reqb (re (e_axes e) / im (e_axes e)) (re (e_axes e) / im (e_axes e))) with true
    by (symmetry; apply Reqb_true; reflexivity).
  replace (Reqb (re (e_axes e) / im (e_axes e)) (of_Z 0)) with false
    by (symmetry; apply Reqb_false; cbn; lra).
  cbn [negb orb].
  eexists. split; [reflexivity|].
  rewrite Rleb_true. change (of_Z 0) with 0.
  match goal with |- context [lineseg_circle_intersect_fallback ?sg ?c] =>
    destruct (lineseg_circle_intersect_fallback_iff sg c) as (Hiff & _ & _);
    set (seg' := sg) in *; set (c' := c) in *
  end.
  cbv zeta in Hiff. rewrite Hiff. clear Hiff.
  assert (Hpt : forall s,
    cabs2 (csub (clerp (ls_a seg') (ls_b seg') s) (c_origin c')) <= c_radius c' * c_radius c'
    <-> point_in_ellipse cdir (clerp (ls_a seg) (ls_b seg) s) e = true).
  { intros s. rewrite point_in_ellipse_iff by assumption.
    unfold seg', c'. cbn [ls_a ls_b c_origin c_radius].
    change (fopp (e_angle e)) with (- e_angle e). rewrite cdir_opp.
    pose proof (cdir_unit (e_angle e)) as Hu.
    destruct e as [[ox oy] [A B] th]. destruct seg as [[ax ay] [bx by_]].
    cbn [e_origin e_axes e_angle re im ls_a ls_b] in *.
    destruct (cdir th) as [c sn]. unfold cabs2 in Hu. cbn [re im] in Hu.
    unfold cabs2, cdot, ccross, csub, clerp, lerp, cmul_finite, conj. cbn [re im]. to_R.
    set (x := ax + (bx - ax) * s - ox). set (y := ay + (by_ - ay) * s - oy).
    set (D := x * c + y * sn). set (C := x * sn - y * c).
    replace ((ax - ox) * c - (ay - oy) * - sn
             + ((bx - ox) * c - (by_ - oy) * - sn - ((ax - ox) * c - (ay - oy) * - sn)) * s - 0)
      with D by (unfold D, x, y; ring).
    replace (((ax - ox) * - sn + (ay - oy) * c) * (A / B)
             + (((bx - ox) * - sn + (by_ - oy) * c) * (A / B)
                - ((ax - ox) * - sn + (ay - oy) * c) * (A / B)) * s - 0)
      with (- C * (A / B)) by (unfold C, x, y; field; lra).
    clearbody D C.
    assert (HAA : 0 < A * A) by nra.
    replace (D * D / (A * A) + C * C / (B * B))
      with ((D * D + - C * (A / B) * (- C * (A / B))) / (A * A)) by (field; lra).
    replace (A * (1 / 2) * (A * (1 / 2))) with (1 / 4 * (A * A)) by field.
    set (N := D * D + - C * (A / B) * (- C * (A / B))). clearbody N.
    split; intros H.
    - apply Rmult_le_reg_r with (r := A * A); [exact HAA|].
      replace (N / (A * A) * (A * A)) with N by (field; lra). exact H.
    - apply Rmult_le_compat_r with (r := A * A) in H; [|lra].
      replace (N / (A * A) * (A * A)) with N in H by (field; lra). exact H. }
  split.
  - intros (s & Hs & Hw). exists s. split; [exact Hs|]. apply Hpt. exact Hw.
  - intros (s & Hs & Hw). exists s. split; [exact Hs|]. apply Hpt. exact Hw.
Qed.

(** X11: over the real numbers, with [cdir] a unit vector that turns into
    its conjugate for the opposite angle, for an ellipse whose two axes
    are positive: [lineseg_ellipse_intersect] meets no assertion, and it
    returns true exactly when some point of the segment is in the ellipse
    in the sense of [point_in_ellipse]. *)
Theorem lineseg_ellipse_intersect_points (seg : LineSegment R) (e : Ellipse R) :
  0 < re (e_axes e) -> 0 < im (e_axes e) ->
  exists hit : bool,
    lineseg_ellipse_intersect cdir seg e = Ok hit /\
    (hit = true <->
     exists s : R, 0 <= s <= 1 /\
       point_in_ellipse cdir (clerp (ls_a seg) (ls_b seg) s) e = true).
Proof. exact (lineseg_ellipse_intersect_iff seg e). Qed.

End Ellipses.

Section EllipsesRun.
Local Open Scope R_scope.

Lemma lineseg_ellipse_intersect_points_witness :
  let cdir := fun angle : R => CMPLX (cos angle) (sin angle) in
  let seg := mkLineSegment (CMPLX (-3) 0) (CMPLX 3 1) in
  let e := mkEllipse (CMPLX 0 0) (CMPLX 4 2) (PI / 6) in
  exists hit : bool,
    lineseg_ellipse_intersect cdir seg e = Ok hit /\
    (hit = true <->
     exists s : R, 0 <= s <= 1 /\
       point_in_ellipse cdir (clerp (ls_a seg) (ls_b seg) s) e = true).
Proof.
  apply (lineseg_ellipse_intersect_points
           (fun angle : R => CMPLX (cos angle) (sin angle))).
  - intros angle. unfold cabs2. cbn.
    pose proof (sin2_cos2 angle) as H. unfold Rsqr in H. lra.
  - intros angle. unfold conj. cbn. rewrite cos_neg, sin_neg. reflexivity.
  - cbn. lra.
  - cbn. lra.
Defined.

End EllipsesRun.

Section ZeroRadius.
Local Open Scope float_scope.
Variable cdir : float -> cmplx float.

Lemma lineseg_ellipse_intersect_zero_axes (seg : LineSegment float) (o : cmplx float)
    (angle : float) :
  lineseg_ellipse_intersect cdir seg (mkEllipse o (CMPLX (0 * 2) (0 * 2)) angle) = Ok false \/
  lineseg_ellipse_intersect cdir seg (mkEllipse o (CMPLX (0 * 2) (0 * 2)) angle)
  = AssertFail "Bad ellipse".
Proof.
  unfold lineseg_ellipse_intersect.
  destruct (segment_ellipse_nonintersection_heuristic _ _); [left; reflexivity|].
  right. reflexivity.
Qed.

Lemma laser_intersects_ellipse_loop_zero_axes (segs : list (LaserSegment float))
    (o : cmplx float) (angle : float) :
  laser_intersects_ellipse_loop cdir segs (mkEllipse o (CMPLX (0 * 2) (0 * 2)) angle)
  = Ok false \/
  laser_intersects_ellipse_loop cdir segs (mkEllipse o (CMPLX (0 * 2) (0 * 2)) angle)
  = AssertFail "Bad ellipse".
Proof.
  induction segs as [|lseg segs IH]; [left; reflexivity|].
  cbn [laser_intersects_ellipse_loop].
  destruct (lineseg_ellipse_intersect_zero_axes
              (mkLineSegment (pos_a lseg) (pos_b lseg)) o angle) as [-> | ->].
  - cbn [bind]. exact IH.
  - right. reflexivity.
Qed.

(** X15: in binary64, for every laser, segment buffer and centre, a query
    of [laser_intersects_circle] with a circle of radius 0 never reports
    an intersection: the ratio of the axes is 0/0, not a number, so each
    segment that passes the bounding-box test stops a debug build at
    [assert(0 && "Bad ellipse")], and the others count as misses. *)
Theorem laser_intersects_circle_zero_radius (segments : list (LaserSegment float))
    (l : Laser float) (o : cmplx float) :
  laser_intersects_circle cdir segments l (mkCircle o 0) = Ok false \/
  laser_intersects_circle cdir segments l (mkCircle o 0) = AssertFail "Bad ellipse".
Proof.
  unfold laser_intersects_circle, laser_intersects_ellipse. cbn [c_origin c_radius].
  destruct (num_segments l <? 1)%Z; [left; reflexivity|].
  destruct (negb _); [left; reflexivity|].
  apply laser_intersects_ellipse_loop_zero_axes.
Qed.

End ZeroRadius.

(** The query at the midpoint of the segment of [Inputs.graze_laser]. *)
Example laser_intersects_circle_zero_radius_asserts :
  laser_intersects_circle (fun _ => CMPLX 1 0)%float Inputs.graze_segments
    Inputs.graze_laser (mkCircle (CMPLX 64 0) 0)%float
  = AssertFail "Bad ellipse".
Proof. vm_compute. reflexivity. Qed.

(** ** The shared segment buffer *)

Section SegmentBuffer.
Context {F : Type} {NF : Num F}.
Variable powf : F -> F -> F.
Variables VIEWPORT_W VIEWPORT_H LASER_SDF_RANGE : F.

Lemma add_segment_appends (segments segments' : list (LaserSegment F))
    (l l' : Laser F) (cseg : LaserSegment F) :
  add_segment segments l cseg = Ok (segments', l') ->
  (exists seg, segments' = segments ++ [seg]) /\ l' = set_bbox l (bbox l').
Proof.
  unfold add_segment. destruct (assert _ _); [|discriminate]. cbn [bind].
  intros H. injection H as <- <-. split; [eexists; reflexivity|reflexivity].
Qed.

Lemma set_bbox_set_bbox (l : Laser F) (r r' : Rect F) :
  set_bbox (set_bbox l r) r' = set_bbox l r'.
Proof. reflexivity. Qed.

Lemma construct_segments_loop_appends (sp : LaserSamplingParams F)
    (wp : LaserWidthParams F) (viewbounds : FloatRect F) (thres_temporal : F)
    (rest : list (LaserSample F)) :
  forall (segments : list (LaserSegment F)) (l : Laser F) t0 a w0 v0 v0_abs2
         segments' l',
    construct_segments_loop powf sp wp viewbounds thres_temporal rest
      segments l t0 a w0 v0 v0_abs2 = Ok (segments', l') ->
    (exists new, segments' = segments ++ new) /\ l' = set_bbox l (bbox l').
Proof.
  induction rest as [|sample rest' IH]; intros segments l t0 a w0 v0 v0_abs2 segments' l' H.
  - cbn in H. injection H as <- <-. split; [exists []; symmetry; apply app_nil_r|].
    destruct l; reflexivity.
  - cbn [construct_segments_loop] in H.
    match type of H with bind ?c _ = _ => destruct c as [skip|]; [|discriminate] end.
    cbn [bind] in H. destruct skip.
    + apply IH in H. exact H.
    + match type of H with bind ?c _ = _ => destruct c as [[segs1 l1]|] eqn:E1;
        [|discriminate] end.
      cbn [bind fst snd] in H.
      match type of H with bind ?c _ = _ => destruct c; [|discriminate] end.
      cbn [bind] in H. apply IH in H. destruct H as [[new Hnew] Hl].
      destruct (segment_is_visible a (sample_p sample) viewbounds).
      * apply add_segment_appends in E1. destruct E1 as [[seg Hseg] Hl1].
        split.
        -- exists (seg :: new). rewrite Hnew, Hseg, <- app_assoc. reflexivity.
        -- rewrite Hl, Hl1. reflexivity.
      * injection E1 as <- <-. split; [exists new; exact Hnew|exact Hl].
Qed.

Lemma construct_segments_appends (segments segments' : list (LaserSegment F))
    (l l' : Laser F) (sp : LaserSamplingParams F) (wp : LaserWidthParams F)
    (viewbounds : FloatRect F) (samples : list (LaserSample F)) :
  construct_segments powf segments l sp wp viewbounds samples = Ok (segments', l') ->
  (exists new, segments' = segments ++ new) /\ l' = set_bbox l (bbox l').
Proof.
  unfold construct_segments. destruct samples as [|s0 [|s1 rest]]; try discriminate.
  destruct (assert _ _); [|discriminate]. cbn [bind].
  apply construct_segments_loop_appends.
Qed.

Lemma laser_segments_appended (before new later : list (LaserSegment F)) (l : Laser F) :
  segments_ofs l = Z.of_nat (List.length before) ->
  num_segments l = Z.of_nat (List.length new) ->
  laser_segments (before ++ new ++ later) l = new.
Proof.
  intros Ho Hn. unfold laser_segments. rewrite Ho, Hn, !Nat2Z.id.
  rewrite skipn_app, skipn_all, Nat.sub_diag. cbn [skipn app].
  rewrite firstn_app, firstn_all, Nat.sub_diag. cbn [firstn]. apply app_nil_r.
Qed.

Lemma quantize_laser_appends_range (frames : Z) (segments segments' : list (LaserSegment F))
    (l l' : Laser F) :
  quantize_laser powf VIEWPORT_W VIEWPORT_H LASER_SDF_RANGE frames segments l
  = Ok (segments', l') ->
  exists new : list (LaserSegment F),
    segments' = segments ++ new /\
    laser_segments segments' l' = new /\
    l' = set_range (set_bbox l (bbox l'))
           (Z.of_nat (List.length segments)) (Z.of_nat (List.length new)).
Proof.
  unfold quantize_laser.
  set (l0 := set_range l (Z.of_nat (List.length segments)) 0%Z).
  destruct (laser_prepare_sampling_params frames l0 (lit 1 2)) as [sp|].
  2:{ intros H. injection H as <- <-. exists []. rewrite app_nil_r.
      split; [reflexivity|]. split; [|reflexivity].
      unfold laser_segments. cbn. reflexivity. }
  destruct (assert _ _); [|discriminate]. cbn [bind].
  destruct (fill_samples sp l0) as [samples|]; [|discriminate]. cbn [bind].
  destruct samples as [|sample0 samples]; [discriminate|].
  set (l1 := set_bbox l0 (mkRect (sample_p sample0) (sample_p sample0))).
  match goal with |- bind ?c _ = _ -> _ => destruct c as [[segs2 l2]|] eqn:E; [|discriminate] end.
  cbn [bind fst snd]. intros H. injection H as <- <-.
  assert (Hap : (exists new, segs2 = segments ++ new) /\ l2 = set_bbox l1 (bbox l2)).
  { destruct (List.length (sample0 :: samples) =? 1)%nat.
    - destruct (segment_is_visible _ _ _).
      + apply add_segment_appends in E. destruct E as [[seg ->] Hl].
        split; [eexists; reflexivity|exact Hl].
      + injection E as <- <-. split; [exists []; symmetry; apply app_nil_r|reflexivity].
    - eapply construct_segments_appends. exact E. }
  destruct Hap as [[new ->] Hl2]. exists new. split; [reflexivity|].
  assert (Hofs : segments_ofs l2 = Z.of_nat (List.length segments)) by (rewrite Hl2; reflexivity).
  assert (Hnum : (Z.of_nat (List.length (segments ++ new)) - segments_ofs l2)%Z
                 = Z.of_nat (List.length new)).
  { rewrite Hofs, length_app. lia. }
  split.
  - match goal with |- laser_segments _ ?lf = _ =>
      pose proof (laser_segments_appended segments new [] lf) as Hr end.
    rewrite app_nil_r in Hr. apply Hr; cbn; [exact Hofs|exact Hnum].
  - cbn [segments_ofs set_bbox set_range]. rewrite Hnum, Hofs.
    rewrite Hl2. unfold l1, l0. cbn. reflexivity.
Qed.

(** X12: in any arithmetic, a call of [quantize_laser] that returns only
    appends to the shared segment buffer: the segments stored before are
    kept, the laser's range ([segments_ofs], [num_segments]) is exactly
    the part appended, and of the laser only the bounding box and the
    range change. *)
Theorem quantize_laser_appends (frames : Z) (segments segments' : list (LaserSegment F))
    (l l' : Laser F) :
  quantize_laser powf VIEWPORT_W VIEWPORT_H LASER_SDF_RANGE frames segments l
  = Ok (segments', l') ->
  exists new : list (LaserSegment F),
    segments' = segments ++ new /\
    laser_segments segments' l' = new /\
    l' = set_range (set_bbox l (bbox l'))
           (Z.of_nat (List.length segments)) (Z.of_nat (List.length new)).
Proof. exact (quantize_laser_appends_range frames segments segments' l l'). Qed.

End SegmentBuffer.

Section RebuildPass.
Context {F : Type} {NF : Num F}.
Variable powf : F -> F -> F.
Variables VIEWPORT_W VIEWPORT_H LASER_SDF_RANGE : F.
Variables CLEAR_HAZARDS_LASERS CLEAR_HAZARDS_FORCE : Z.

Lemma process_lasers_rebuild_ranges (frames : Z) (stage_cleared : bool)
    (lasers : list (Laser F * Z)) :
  forall (segments segs : list (LaserSegment F)) (ls : list (Laser F * Z)),
    process_lasers_rebuild powf VIEWPORT_W VIEWPORT_H LASER_SDF_RANGE
      CLEAR_HAZARDS_LASERS CLEAR_HAZARDS_FORCE frames stage_cleared lasers segments
    = Ok (segs, ls) ->
    exists rest : list (LaserSegment F),
      segs = segments ++ rest /\
      forall later,
        concat (map (fun lc => laser_segments (segs ++ later) (fst lc)) ls) = rest.
Proof.
  induction lasers as [|[laser flags] next IH]; intros segments segs ls H.
  - cbn in H. injection H as <- <-. exists []. split; [symmetry; apply app_nil_r|].
    reflexivity.
  - cbn [process_lasers_rebuild] in H.
    destruct (fltb _ _).
    + apply IH in H. exact H.
    + destruct (quantize_laser _ _ _ _ _ _ _) as [[s1 l1]|] eqn:Eq; [|discriminate].
      cbn [bind fst snd] in H.
      destruct (process_lasers_rebuild _ _ _ _ _ _ _ _ next s1) as [[s2 ls2]|] eqn:Er;
        [|discriminate].
      cbn [bind fst snd] in H. injection H as <- <-.
      apply quantize_laser_appends_range in Eq. destruct Eq as (new & -> & Hrange & Hl1).
      apply IH in Er. destruct Er as (rest & -> & Hrest).
      exists (new ++ rest). split; [symmetry; apply app_assoc|].
      intros later. cbn [map concat fst]. rewrite Hrest. f_equal.
      rewrite <- !app_assoc.
      apply laser_segments_appended; rewrite Hl1; reflexivity.
Qed.

(** X13: in any arithmetic, when the rebuild pass of [process_lasers]
    returns, the ranges of the lasers it keeps, taken in list order, tile
    the shared segment buffer: each segment of the buffer belongs to
    exactly one laser, and a later call of [quantize_laser] has not
    disturbed the range of an earlier laser. *)
Theorem process_lasers_ranges_tile (frames : Z) (stage_cleared : bool)
    (lasers ls : list (Laser F * Z)) (segs : list (LaserSegment F)) :
  process_lasers_pass1 powf VIEWPORT_W VIEWPORT_H LASER_SDF_RANGE
    CLEAR_HAZARDS_LASERS CLEAR_HAZARDS_FORCE frames stage_cleared lasers
  = Ok (segs, ls) ->
  concat (map (fun lc => laser_segments segs (fst lc)) ls) = segs.
Proof.
  unfold process_lasers_pass1. intros H.
  apply process_lasers_rebuild_ranges in H. destruct H as (rest & -> & Hrest).
  specialize (Hrest []). rewrite app_nil_r in Hrest. exact Hrest.
Qed.

Lemma land_lor_absorb (a b : Z) : Z.land (Z.lor a b) b = b.
Proof.
  apply Z.bits_inj. intros n. rewrite Z.land_spec, Z.lor_spec.
  destruct (Z.testbit a n), (Z.testbit b n); reflexivity.
Qed.

(** The lasers the rebuild pass keeps, with the flags it leaves: those of
    [lasers] that have not expired, in order. *)
Lemma process_lasers_rebuild_survivors (frames : Z) (stage_cleared : bool)
    (lasers : list (Laser F * Z)) :
  CLEAR_HAZARDS_FORCE <> 0%Z ->
  forall (segments segs : list (LaserSegment F)) (ls : list (Laser F * Z)),
    process_lasers_rebuild powf VIEWPORT_W VIEWPORT_H LASER_SDF_RANGE
      CLEAR_HAZARDS_LASERS CLEAR_HAZARDS_FORCE frames stage_cleared lasers segments
    = Ok (segs, ls) ->
    Forall2
      (fun out inp =>
         fst out = set_range (set_bbox (fst inp) (bbox (fst out)))
                     (segments_ofs (fst out)) (num_segments (fst out)) /\
         snd out = if stage_cleared
                   then Z.lor (snd inp) (Z.lor CLEAR_HAZARDS_LASERS CLEAR_HAZARDS_FORCE)
                   else snd inp)
      ls
      (filter (fun lc =>
                 negb (fltb (fadd (deathtime (fst lc))
                                  (fmul (timespan (fst lc)) (speed (fst lc))))
                            (of_Z (frames - birthtime (fst lc)))))
              lasers).
Proof.
  intros Hforce. induction lasers as [|[laser flags] next IH]; intros segments segs ls H.
  - cbn in H. injection H as <- <-. constructor.
  - cbn [process_lasers_rebuild] in H. cbn [filter fst].
    destruct (fltb _ _); cbn [negb].
    + apply IH in H. exact H.
    + destruct (quantize_laser _ _ _ _ _ _ _) as [[s1 l1]|] eqn:Eq; [|discriminate].
      cbn [bind fst snd] in H.
      destruct (process_lasers_rebuild _ _ _ _ _ _ _ _ next s1) as [[s2 ls2]|] eqn:Er;
        [|discriminate].
      cbn [bind fst snd] in H. injection H as <- <-.
      apply quantize_laser_appends_range in Eq. destruct Eq as (new & -> & Hrange & Hl1).
      apply IH in Er. constructor; [|exact Er]. cbn [fst snd]. split.
      * assert (Ho : segments_ofs l1 = Z.of_nat (List.length segments))
          by (rewrite Hl1; reflexivity).
        assert (Hn : num_segments l1 = Z.of_nat (List.length new))
          by (rewrite Hl1; reflexivity).
        rewrite Ho, Hn. exact Hl1.
      * destruct stage_cleared; [|reflexivity].
        unfold clear_laser. rewrite land_lor_absorb.
        destruct (CLEAR_HAZARDS_FORCE =? 0)%Z eqn:E0; [apply Z.eqb_eq in E0; contradiction|].
        reflexivity.
Qed.

(** X14: in any arithmetic, with a force bit [CLEAR_HAZARDS_FORCE] that is
    not zero, when the rebuild pass of [process_lasers] returns, the
    lasers it keeps are those that have not expired
    ([frames - birthtime <= deathtime + timespan * speed]), in order and
    unchanged but for bounding box and range; when the stage is cleared
    each of them, unclearable or inactive ones included, has
    [CLEAR_HAZARDS_LASERS | CLEAR_HAZARDS_FORCE] added to its clear flags,
    otherwise the flags are as they were. *)
Theorem process_lasers_survivors (frames : Z) (stage_cleared : bool)
    (lasers ls : list (Laser F * Z)) (segs : list (LaserSegment F)) :
  CLEAR_HAZARDS_FORCE <> 0%Z ->
  process_lasers_pass1 powf VIEWPORT_W VIEWPORT_H LASER_SDF_RANGE
    CLEAR_HAZARDS_LASERS CLEAR_HAZARDS_FORCE frames stage_cleared lasers
  = Ok (segs, ls) ->
  Forall2
    (fun out inp =>
       fst out = set_range (set_bbox (fst inp) (bbox (fst out)))
                   (segments_ofs (fst out)) (num_segments (fst out)) /\
       snd out = if stage_cleared
                 then Z.lor (snd inp) (Z.lor CLEAR_HAZARDS_LASERS CLEAR_HAZARDS_FORCE)
                 else snd inp)
    ls
    (filter (fun lc =>
               negb (fltb (fadd (deathtime (fst lc))
                                (fmul (timespan (fst lc)) (speed (fst lc))))
                          (of_Z (frames - birthtime (fst lc)))))
            lasers).
Proof.
  intros Hforce H. eapply process_lasers_rebuild_survivors; eassumption.
Qed.

End RebuildPass.

Section SegmentBufferRuns.
Import Inputs Scene.
Local Open Scope float_scope.

Lemma quantize_laser_appends_witness :
  match quantize_laser powf_unused 480 560 0 4 chain visible_line with
  | Ok (segments', l') =>
      exists new : list (LaserSegment float),
        segments' = chain ++ new /\
        laser_segments segments' l' = new /\
        l' = set_range (set_bbox visible_line (bbox l'))
               (Z.of_nat (List.length chain)) (Z.of_nat (List.length new))
  | AssertFail _ => False
  end.
Proof.
  destruct (quantize_laser powf_unused 480 560 0 4 chain visible_line)
    as [[segments' l']|cond] eqn:E.
  - exact (quantize_laser_appends powf_unused 480 560 0 4 chain segments'
             visible_line l' E).
  - exfalso. revert E. vm_compute. discriminate.
Defined.

Lemma process_lasers_ranges_tile_witness :
  match rebuild 20 true with
  | Ok (segs, ls) => concat (map (fun lc => laser_segments segs (fst lc)) ls) = segs
  | AssertFail _ => False
  end.
Proof.
  unfold rebuild.
  destruct (process_lasers_pass1 powf_unused 480 560 0 4%Z 8%Z 20 true lasers)
    as [[segs ls]|cond] eqn:E.
  - exact (process_lasers_ranges_tile powf_unused 480 560 0 4%Z 8%Z 20 true
             lasers ls segs E).
  - exfalso. revert E. vm_compute. discriminate.
Defined.

Lemma process_lasers_survivors_witness :
  match rebuild 20 true with
  | Ok (segs, ls) =>
      Forall2
        (fun out inp =>
           fst out = set_range (set_bbox (fst inp) (bbox (fst out)))
                       (segments_ofs (fst out)) (num_segments (fst out)) /\
           snd out = Z.lor (snd inp) (Z.lor 4 8))
        ls [(visible_line, 0%Z); (unclearable_line, 0%Z)]
  | AssertFail _ => False
  end.
Proof.
  unfold rebuild.
  destruct (process_lasers_pass1 powf_unused 480 560 0 4%Z 8%Z 20 true lasers)
    as [[segs ls]|cond] eqn:E.
  - refine (process_lasers_survivors powf_unused 480 560 0 4%Z 8%Z 20 true
              lasers ls segs _ E).
    discriminate.
  - exfalso. revert E. vm_compute. discriminate.
Defined.

(** The rebuild pass at frame 20 of a cleared stage: the laser that died
    at frame 10 is gone, the two others hold four segments each, at
    offsets 0 and 4 of a buffer of eight, and both carry the flags 4 | 8,
    the unclearable one included. *)
Example rebuild_runs :
  match rebuild 20 true with
  | Ok (segs, ls) =>
      List.length segs = 8%nat /\
      map (fun lc => (segments_ofs (fst lc), num_segments (fst lc), snd lc)) ls
      = [(0, 4, 12); (4, 4, 12)]%Z
  | AssertFail _ => False
  end.
Proof. vm_compute. split; reflexivity. Qed.

End SegmentBufferRuns.

(** ** The sampling window *)

Section SamplingWindow.
Local Open Scope R_scope.

Lemma Rceil_lt (x : R) : IZR (Rceil x) < x + 1.
Proof.
  unfold Rceil. rewrite opp_IZR.
  destruct (base_Int_part (- x)) as [_ H]. lra.
Qed.

Lemma prepare_window_cases (frames : Z) (l : Laser R) (step : R) :
  0 < step ->
  let t0 := IZR (frames - birthtime l) * speed l - timespan l + timeshift l in
  let tail := Rmax t0 0 in
  let head := Rmin (t0 + timespan l) (deathtime l + timeshift l) in
  match laser_prepare_sampling_params frames l step with
  | None => head <= tail
  | Some sp =>
      tail < head /\ time_shift sp = tail /\
      (2 <= num_samples sp)%nat /\
      0 < time_step sp <= step /\
      INR (num_samples sp) * time_step sp = head - tail + step /\
      INR (num_samples sp) * step < head - tail + 2 * step
  end.
Proof.
  intros Hstep t0 tail head. unfold laser_prepare_sampling_params.
  cbn [of_Z fadd fsub fmul fdiv fltb fleb fceil Num_R]. fold t0.
  set (c1 := if Rltb (deathtime l + timeshift l) (t0 + timespan l)
             then timespan l + (deathtime l + timeshift l - (t0 + timespan l))
             else timespan l).
  assert (Hc1 : t0 + c1 = head).
  { unfold c1, head, Rmin, Rltb.
    destruct (Rlt_dec (deathtime l + timeshift l) (t0 + timespan l)),
             (Rle_dec (t0 + timespan l) (deathtime l + timeshift l)); lra. }
  set (ct := if Rltb t0 0 then (c1 + t0, 0) else (c1, t0)).
  assert (Hct : fst ct = head - tail /\ snd ct = tail).
  { unfold ct, tail, Rmax, Rltb.
    destruct (Rlt_dec t0 0), (Rle_dec t0 0); cbn [fst snd]; lra. }
  destruct Hct as [Hc Ht]. rewrite Hc, Ht.
  destruct (Rleb (head - tail) 0) eqn:E.
  - apply Rleb_true in E. lra.
  - apply Rleb_false in E. cbn [time_shift num_samples time_step].
    split; [lra|].
    set (c := head - tail) in *.
    pose proof (Rceil_ge ((c + step) / step)) as Hceil.
    set (ns := Rceil ((c + step) / step)) in *.
    assert (Hx : 1 < (c + step) / step).
    { apply Rmult_lt_reg_r with (r := step); [exact Hstep|].
      replace ((c + step) / step * step) with (c + step) by (field; lra). lra. }
    assert (Hns : (2 <= ns)%Z).
    { assert (H1 : 1 < IZR ns) by lra. apply lt_IZR in H1. lia. }
    assert (Hnsr : 2 <= IZR ns) by (apply IZR_le in Hns; exact Hns).
    assert (HINR : INR (Z.to_nat ns) = IZR ns).
    { rewrite INR_IZR_INZ, Z2Nat.id by lia. reflexivity. }
    repeat split.
    + lia.
    + apply Rdiv_lt_0_compat; lra.
    + apply Rmult_le_reg_r with (r := IZR ns); [lra|].
      replace ((c + step) / IZR ns * IZR ns) with (c + step) by (field; lra).
      apply Rmult_le_compat_l with (r := step) in Hceil; [|lra].
      replace (step * ((c + step) / step)) with (c + step) in Hceil by (field; lra).
      lra.
    + rewrite HINR. field. lra.
    + rewrite HINR. pose proof (Rceil_lt ((c + step) / step)) as Hlt. fold ns in Hlt.
      apply Rmult_lt_compat_r with (r := step) in Hlt; [|lra].
      replace (((c + step) / step + 1) * step) with (c + 2 * step) in Hlt by (field; lra).
      lra.
Qed.



End SamplingWindow.

Section StaticLine.
Local Open Scope R_scope.

(** X17: over the real numbers, for a laser of positive timespan and
    non-negative deathtime whose rule is the linear one, after
    [laserline_set_ab(l, a, b)] and [laser_make_static(l)] the sampling
    window is the whole of [0, timespan] at every frame, whatever the
    laser's birthtime, and the curve over that window is the straight
    segment from [a] to [b], traversed at constant speed. *)
Theorem laser_line_static (l : Laser R) (a b : cmplx R) (step : R) (frames : Z) :
  0 < step -> 0 < timespan l -> 0 <= deathtime l ->
  let l' := laser_make_static (laserline_set_ab l a b) in
  (exists sp : LaserSamplingParams R,
     laser_prepare_sampling_params frames l' step = Some sp /\
     time_shift sp = 0 /\
     INR (num_samples sp) * time_step sp = timespan l + step) /\
  (forall s : R, laser_pos_at l' (s * timespan l) = clerp a b s).
Proof.
  intros Hstep HT HD l'. split.
  - pose proof (prepare_window_cases frames l' step Hstep) as H. cbv zeta in H.
    assert (Ht0 : IZR (frames - birthtime l') * speed l' - timespan l' + timeshift l' = 0).
    { unfold l', laser_make_static, laserline_set_ab. cbn. lra. }
    rewrite Ht0 in H.
    assert (HTl : timespan l' = timespan l) by reflexivity.
    assert (HDl : deathtime l' = deathtime l) by reflexivity.
    assert (HSl : timeshift l' = timespan l) by reflexivity.
    rewrite HTl, HDl, HSl in H.
    assert (Htail : Rmax 0 0 = 0) by (apply Rmax_left; lra).
    assert (Hhead : Rmin (0 + timespan l) (deathtime l + timespan l) = timespan l)
      by (rewrite Rmin_left; lra).
    rewrite Htail, Hhead in H.
    destruct (laser_prepare_sampling_params frames l' step) as [sp|].
    + exists sp. destruct H as (_ & Hts & _ & _ & Hn & _).
      split; [reflexivity|]. split; [exact Hts|]. rewrite Hn. ring.
    + lra.
  - intros s. unfold l', laser_make_static, laserline_set_ab, laser_pos_at,
      laser_rule_linear, cadd, cscale, cdivr, csub, clerp, lerp.
    cbn. f_equal; field; lra.
Qed.

Lemma laser_line_static_witness :
  let l := Inputs.line_laser in
  let a := CMPLX 10 20 in
  let b := CMPLX 110 220 in
  let l' := laser_make_static (laserline_set_ab l a b) in
  (exists sp : LaserSamplingParams R,
     laser_prepare_sampling_params 1000 l' (1 / 2) = Some sp /\
     time_shift sp = 0 /\
     INR (num_samples sp) * time_step sp = timespan l + 1 / 2) /\
  (forall s : R, laser_pos_at l' (s * timespan l) = clerp a b s).
Proof.
  apply (laser_line_static Inputs.line_laser (CMPLX 10 20) (CMPLX 110 220) (1 / 2) 1000);
    cbn; lra.
Defined.

End StaticLine.

(** ** The sampler never fails *)

Section SamplerReturns.
Local Open Scope R_scope.

Lemma ceqb_true_iff (x y : cmplx R) : ceqb x y = true <-> x = y.
Proof.
  destruct x as [xr xi], y as [yr yi]. unfold ceqb. cbn [re im].
  change (feqb ?a ?b) with (Reqb a b).
  rewrite andb_true_iff, !Reqb_true. split.
  - intros [-> ->]. reflexivity.
  - intros H. injection H as -> ->. split; reflexivity.
Qed.

Lemma times_increase_snoc (xs : list (LaserSample R)) (y : LaserSample R) :
  times_increase xs -> Forall (fun x => sample_t x < sample_t y) xs ->
  times_increase (xs ++ [y]).
Proof.
  induction xs as [|x xs IH]; intros Hs Hall.
  - cbn. split; [constructor|exact I].
  - cbn [app times_increase] in *. destruct Hs as [Hx Hs].
    inversion Hall as [|? ? Hxy Hall']; subst. split.
    + apply Forall_app. split; [exact Hx|]. constructor; [exact Hxy|constructor].
    + apply IH; assumption.
Qed.

Lemma times_increase_snoc_inv (xs : list (LaserSample R)) (y : LaserSample R) :
  times_increase (xs ++ [y]) ->
  times_increase xs /\ Forall (fun x => sample_t x < sample_t y) xs.
Proof.
  induction xs as [|x xs IH]; intros Hs.
  - split; [exact I|constructor].
  - cbn [app times_increase] in *. destruct Hs as [Hx Hs].
    apply Forall_app in Hx. destruct Hx as [Hx Hxy].
    destruct (IH Hs) as [Hs' Hall]. split; [split; assumption|].
    constructor; [|exact Hall]. inversion Hxy; assumption.
Qed.

Lemma set_last_t_snoc (xs : list (LaserSample R)) (y : LaserSample R) (maxtime : R) :
  set_last_t (xs ++ [y]) maxtime = xs ++ [mkLaserSample (sample_p y) maxtime].
Proof.
  induction xs as [|x xs IH]; [reflexivity|].
  cbn [app]. destruct (xs ++ [y]) as [|z zs] eqn:E.
  - destruct xs; discriminate.
  - change (set_last_t (x :: z :: zs) maxtime) with (x :: set_last_t (z :: zs) maxtime).
    rewrite IH. reflexivity.
Qed.


Lemma fill_samples_loop_increases (l : Laser R) (sp : LaserSamplingParams R)
    (maxtime : R) (n : nat) :
  0 < time_step sp ->
  forall (init : list (LaserSample R)) (prev : LaserSample R) (t : R),
    times_increase (init ++ [prev]) -> Forall (fun s => sample_p s = laser_pos_at l (sample_t s)) (init ++ [prev]) ->
    sample_t prev <= t -> t <= maxtime ->
    exists (init' : list (LaserSample R)) (prev' : LaserSample R),
      fill_samples_loop l sp maxtime n (init ++ [prev]) prev t = init' ++ [prev'] /\
      times_increase (init' ++ [prev']) /\ Forall (fun s => sample_p s = laser_pos_at l (sample_t s)) (init' ++ [prev']) /\
      sample_t prev' <= maxtime /\
      (List.length (init' ++ [prev']) <= List.length (init ++ [prev]) + n)%nat.
Proof.
  intros Hstep. induction n as [|n IH]; intros init prev t Hinc Hon Hprev Ht.
  - exists init, prev. cbn [fill_samples_loop]. repeat split; try assumption; lra || lia.
  - cbn [fill_samples_loop].
    set (t' := fmin (fadd t (time_step sp)) maxtime).
    assert (Ht' : t <= t' /\ t' <= maxtime).
    { unfold t'. rewrite fmin_R. cbn [fadd Num_R]. unfold Rmin.
      destruct (Rle_dec (t + time_step sp) maxtime); lra. }
    destruct (ceqb (sample_p prev) (laser_pos_at l t)) eqn:E; cbn [negb].
    + destruct (IH init prev t' Hinc Hon) as (init' & prev' & Hr & H1 & H2 & H3 & H4);
        try lra.
      exists init', prev'. repeat split; try assumption. lia.
    + set (s := mkLaserSample (laser_pos_at l t) t).
      assert (Hlt : sample_t prev < t).
      { destruct (Rle_lt_or_eq_dec _ _ Hprev) as [Hlt|Heq]; [exact Hlt|]. exfalso.
        assert (Hp : sample_p prev = laser_pos_at l (sample_t prev)).
        { apply Forall_app in Hon. destruct Hon as [_ Hon].
          inversion Hon; assumption. }
        rewrite Heq in Hp. apply ceqb_true_iff in Hp. congruence. }
      destruct (IH (init ++ [prev]) s t') as (init' & prev' & Hr & H1 & H2 & H3 & H4).
      * apply times_increase_snoc; [exact Hinc|].
        apply times_increase_snoc_inv in Hinc. destruct Hinc as [_ Hall].
        apply Forall_app. split.
        -- eapply Forall_impl; [|exact Hall]. cbn. intros x Hx. lra.
        -- constructor; [exact Hlt|constructor].
      * apply Forall_app. split; [exact Hon|].
        constructor; [reflexivity|constructor].
      * cbn. lra.
      * lra.
      * exists init', prev'. repeat split; try assumption.
        rewrite !length_app in *. cbn [List.length] in *. lia.
Qed.

Lemma fill_samples_increases (frames : Z) (l : Laser R) (step : R)
    (sp : LaserSamplingParams R) :
  0 < step ->
  laser_prepare_sampling_params frames l step = Some sp ->
  exists (init : list (LaserSample R)) (lst : LaserSample R),
    fill_samples sp l = Ok (init ++ [mkLaserSample (sample_p lst) (time_shift sp + timespan l)]) /\
    times_increase (init ++ [mkLaserSample (sample_p lst) (time_shift sp + timespan l)]) /\
    times_increase (init ++ [lst]) /\ Forall (fun s => sample_p s = laser_pos_at l (sample_t s)) (init ++ [lst]) /\
    (List.length (init ++ [lst]) <= num_samples sp)%nat.
Proof.
  intros Hstep Hsp.
  pose proof (prepare_window_cases frames l step Hstep) as Hw. cbv zeta in Hw.
  rewrite Hsp in Hw.
  set (t0 := IZR (frames - birthtime l) * speed l - timespan l + timeshift l) in *.
  destruct Hw as (Hlt & Hshift & Hns & [Hd0 Hd1] & Hspan & Hleast).
  assert (Hc : Rmin (t0 + timespan l) (deathtime l + timeshift l) - Rmax t0 0 <= timespan l).
  { pose proof (Rmin_l (t0 + timespan l) (deathtime l + timeshift l)).
    pose proof (Rmax_l t0 0). lra. }
  set (c := Rmin (t0 + timespan l) (deathtime l + timeshift l) - Rmax t0 0) in *.
  assert (Hcpos : 0 < c) by (unfold c; lra).
  assert (HT : 0 < timespan l) by lra.
  unfold fill_samples. cbn [fadd Num_R].
  set (maxtime := time_shift sp + timespan l).
  set (prev := mkLaserSample (laser_pos_at l (time_shift sp)) (time_shift sp)).
  assert (Hloop : exists init lst,
    fill_samples_loop l sp maxtime (num_samples sp - 1) [prev] prev
      (time_shift sp + time_step sp) = init ++ [lst] /\
    times_increase (init ++ [lst]) /\ Forall (fun s => sample_p s = laser_pos_at l (sample_t s)) (init ++ [lst]) /\
    Forall (fun s => sample_t s < maxtime) init /\
    (List.length (init ++ [lst]) <= num_samples sp)%nat).
  { destruct (Nat.eq_dec (num_samples sp) 2) as [E2|E2].
    - rewrite E2. cbn [Nat.sub fill_samples_loop].
      destruct (negb _).
      + exists [prev], (mkLaserSample (laser_pos_at l (time_shift sp + time_step sp))
                          (time_shift sp + time_step sp)).
        split; [reflexivity|]. split; [|split; [|split]].
        * cbn. repeat constructor. unfold prev. cbn. lra.
        * repeat constructor.
        * repeat constructor. unfold prev, maxtime. cbn. lra.
        * cbn. lia.
      + exists [], prev.
        split; [reflexivity|]. split; [|split; [|split]].
        * cbn. split; [constructor|exact I].
        * repeat constructor.
        * constructor.
        * cbn. lia.
    - assert (H3 : (3 <= num_samples sp)%nat) by lia.
      assert (H3r : 3 <= INR (num_samples sp)).
      { apply le_INR in H3. cbn in H3. lra. }
      assert (Hcs : step < c) by nra.
      destruct (fill_samples_loop_increases l sp maxtime (num_samples sp - 1) Hd0
                  [] prev (time_shift sp + time_step sp))
        as (init & lst & Hr & H1 & H2 & H4 & H5).
      + cbn. split; [constructor|exact I].
      + repeat constructor.
      + unfold prev. cbn. lra.
      + unfold maxtime. lra.
      + exists init, lst. cbn [app] in Hr.
        split; [exact Hr|]. split; [exact H1|]. split; [exact H2|]. split.
        * apply times_increase_snoc_inv in H1. destruct H1 as [_ Hall].
          eapply Forall_impl; [|exact Hall]. cbn. intros x Hx. lra.
        * cbn [app List.length] in H5. lia. }
  destruct Hloop as (init & lst & -> & Hinc & Hon & Hbelow & Hlen).
  exists init, lst. rewrite set_last_t_snoc.
  assert (Hinc' : times_increase (init ++ [mkLaserSample (sample_p lst) maxtime])).
  { apply times_increase_snoc; [|exact Hbelow].
    apply times_increase_snoc_inv in Hinc. tauto. }
  split; [|repeat split; assumption].
  set (lst' := mkLaserSample (sample_p lst) maxtime).
  destruct (1 <? List.length (init ++ [lst']))%nat eqn:E1; [|reflexivity].
  rewrite length_app. cbn [List.length].
  destruct (rev init) as [|y ys] eqn:Er.
  - assert (init = []) by (rewrite <- (rev_involutive init), Er; reflexivity). subst init.
    cbn in E1. discriminate.
  - assert (Hinit : init = rev ys ++ [y])
      by (rewrite <- (rev_involutive init), Er; reflexivity).
    rewrite Hinit. rewrite length_app. cbn [List.length].
    replace (List.length (rev ys) + 1 + 1 - 2)%nat with (List.length (rev ys)) by lia.
    rewrite <- app_assoc. rewrite nth_error_app2 by lia. rewrite Nat.sub_diag.
    cbn [app nth_error].
    assert (Hy : sample_t y < maxtime).
    { rewrite Hinit in Hbelow. apply Forall_app in Hbelow. destruct Hbelow as [_ Hb].
      inversion Hb; assumption. }
    unfold assert. change (fltb (sample_t y) maxtime) with (Rltb (sample_t y) maxtime).
    replace (Rltb (sample_t y) maxtime) with true by (symmetry; apply Rltb_true; exact Hy).
    reflexivity.
Qed.

(** X18: over the real numbers, for sampling parameters that
    [laser_prepare_sampling_params] computed with a positive step, and
    whatever the laser's rule is, [fill_samples] returns: its assertion
    on the second-to-last sample cannot fail. The samples it leaves are at
    least one and at most [num_samples], their times strictly increase,
    and the last one carries the time [time_shift + timespan]. *)
Theorem fill_samples_returns (frames : Z) (l : Laser R) (step : R)
    (sp : LaserSamplingParams R) :
  0 < step ->
  laser_prepare_sampling_params frames l step = Some sp ->
  exists array : list (LaserSample R),
    fill_samples sp l = Ok array /\
    times_increase array /\
    (1 <= List.length array <= num_samples sp)%nat /\
    exists init lst, array = init ++ [lst] /\
      sample_t lst = time_shift sp + timespan l.
Proof.
  intros Hstep Hsp.
  destruct (fill_samples_increases frames l step sp Hstep Hsp)
    as (init & lst & Hfs & Hinc & _ & _ & Hlen).
  eexists. split; [exact Hfs|]. split; [exact Hinc|]. split.
  - rewrite length_app in *. cbn [List.length] in *. lia.
  - eexists _, _. split; reflexivity.
Qed.

Lemma line_laser_prepare :
  laser_prepare_sampling_params 7 Inputs.line_laser (1 / 2)
  = Some (mkLaserSamplingParams 9 0 (1 / 2)).
Proof.
  unfold laser_prepare_sampling_params, Inputs.line_laser.
  cbn [timespan deathtime timeshift speed birthtime of_Z fadd fsub fmul fdiv fltb fleb
       fceil Num_R].
  R_decide. cbn [fst snd]. R_decide.
  replace ((4 + 1 / 2) / (1 / 2)) with (IZR 9) by lra.
  rewrite Rceil_IZR. cbn. f_equal. f_equal; lra.
Qed.

Lemma fill_samples_returns_witness :
  exists array : list (LaserSample R),
    fill_samples (mkLaserSamplingParams 9 0 (1 / 2)) Inputs.line_laser = Ok array /\
    times_increase array /\
    (1 <= List.length array <= 9)%nat /\
    exists init lst, array = init ++ [lst] /\
      sample_t lst = 0 + timespan Inputs.line_laser.
Proof.
  apply (fill_samples_returns 7 Inputs.line_laser (1 / 2)
           (mkLaserSamplingParams 9 0 (1 / 2))).
  - lra.
  - exact line_laser_prepare.
Defined.

End SamplerReturns.

(** ** Curves that do not pass twice through a point *)

Section InjectiveCurve.
Local Open Scope R_scope.
Variable powf : R -> R -> R.
Variables VIEWPORT_W VIEWPORT_H LASER_SDF_RANGE : R.

Lemma add_segment_returns (segments : list (LaserSegment R)) (l : Laser R)
    (cseg : LaserSegment R) :
  exists r, add_segment segments l cseg = Ok r.
Proof.
  unfold add_segment. R_bools. unfold Rltb.
  destruct (Rlt_dec (width_b cseg) (width_a cseg)) as [H|H]; cbn [laserseg_flip width_a width_b].
  - replace (Rleb (width_b cseg) (width_a cseg)) with true
      by (symmetry; apply Rleb_true; lra).
    cbn [assert bind]. eexists. reflexivity.
  - replace (Rleb (width_a cseg) (width_b cseg)) with true
      by (symmetry; apply Rleb_true; lra).
    cbn [assert bind]. eexists. reflexivity.
Qed.

Lemma construct_segments_loop_returns (sp : LaserSamplingParams R)
    (wp : LaserWidthParams R) (viewbounds : FloatRect R) (thres_temporal : R) :
  forall (rest : list (LaserSample R)) (segments : list (LaserSegment R)) (l : Laser R)
         (t0 : R) (a : cmplx R) (w0 : R) (v0 : cmplx R) (v0_abs2 : R),
    NoDup (a :: map sample_p rest) -> v0_abs2 <> 0 ->
    exists r,
      construct_segments_loop powf sp wp viewbounds thres_temporal rest
        segments l t0 a w0 v0 v0_abs2 = Ok r.
Proof.
  induction rest as [|sample rest IH];
    intros segments l t0 a w0 v0 v0_abs2 Hnd Hv0; [eexists; reflexivity|].
  cbn [construct_segments_loop].
  cbn [map] in Hnd.
  assert (Hab : a <> sample_p sample).
  { intros ->. inversion Hnd as [|? ? Hnin _]. apply Hnin. left. reflexivity. }
  assert (Hnd_a : NoDup (a :: map sample_p rest)).
  { inversion Hnd as [|? ? Hnin Hnd']. inversion Hnd' as [|? ? _ Hnd''].
    constructor; [|exact Hnd'']. intros Hin. apply Hnin. right. exact Hin. }
  assert (Hnd_b : NoDup (sample_p sample :: map sample_p rest))
    by (inversion Hnd; assumption).
  assert (Hv1 : cabs2 (csub (sample_p sample) a) <> 0)
    by (apply cabs2_csub_nonzero; exact Hab).
  assert (Hskip : exists skip : bool,
    match rest with
    | next :: _ =>
        if (sample_t sample - t0 <? thres_temporal)%num then
          bind (turn_measure v0 v0_abs2 (csub (sample_p sample) a)) (fun d =>
            if (d <? thres_angular)%num then
              bind (turn_measure (csub (sample_p sample) a)
                      (cabs2 (csub (sample_p sample) a))
                      (csub (sample_p next) (sample_p sample)))
                (fun d => Ok (d <? thres_angular)%num)
            else Ok false)
        else Ok false
    | [] => Ok false
    end = Ok skip).
  { destruct rest as [|next rest']; [exists false; reflexivity|].
    destruct (_ <? thres_temporal)%num; [|exists false; reflexivity].
    destruct (turn_measure_returns v0 v0_abs2 _ Hv0 Hv1) as [d ->]. cbn [bind].
    destruct (d <? thres_angular)%num; [|exists false; reflexivity].
    assert (Hbc : sample_p sample <> sample_p next).
    { intros E. cbn [map] in Hnd_b. inversion Hnd_b as [|? ? Hnin _].
      apply Hnin. left. symmetry. exact E. }
    destruct (turn_measure_returns (csub (sample_p sample) a) _
                (csub (sample_p next) (sample_p sample)) Hv1
                (cabs2_csub_nonzero _ _ Hbc)) as [d' ->].
    cbn [bind]. eexists. reflexivity. }
  destruct Hskip as [skip ->]. cbn [bind]. destruct skip.
  - apply IH; assumption.
  - assert (Hsl : exists sl,
      (if segment_is_visible a (sample_p sample) viewbounds
       then add_segment segments l
              (mkLaserSegment a (sample_p sample) w0
                 (calc_sample_width powf wp (sample_t sample - time_shift sp)%num)
                 (time_shift sp - t0)%num (time_shift sp - sample_t sample)%num)
       else Ok (segments, l)) = Ok sl).
    { destruct (segment_is_visible _ _ _); [apply add_segment_returns|].
      eexists. reflexivity. }
    destruct Hsl as [sl ->]. cbn [bind].
    replace (cabs2 (csub (sample_p sample) a) =? of_Z 0)%num with false
      by (symmetry; apply Reqb_false; exact Hv1).
    cbn [negb assert bind].
    apply IH; assumption.
Qed.

Lemma times_increase_NoDup (l : Laser R) (array : list (LaserSample R)) :
  (forall t1 t2, laser_pos_at l t1 = laser_pos_at l t2 -> t1 = t2) ->
  times_increase array ->
  Forall (fun s => sample_p s = laser_pos_at l (sample_t s)) array ->
  NoDup (map sample_p array).
Proof.
  intros Hinj. induction array as [|s array IH]; intros Hinc Hon; [constructor|].
  cbn [times_increase map] in *. destruct Hinc as [Hs Hinc].
  inversion Hon as [|? ? Hps Hon']; subst.
  constructor; [|apply IH; assumption].
  intros Hin. apply in_map_iff in Hin. destruct Hin as (s' & Hp & Hin').
  rewrite Forall_forall in Hs, Hon'.
  specialize (Hs s' Hin'). specialize (Hon' s' Hin').
  rewrite Hps, Hon' in Hp. apply Hinj in Hp. lra.
Qed.

Lemma quantize_laser_returns_injective (frames : Z) (segments : list (LaserSegment R))
    (l : Laser R) :
  (forall t1 t2 : R, laser_pos_at l t1 = laser_pos_at l t2 -> t1 = t2) ->
  exists r : list (LaserSegment R) * Laser R,
    quantize_laser powf VIEWPORT_W VIEWPORT_H LASER_SDF_RANGE frames segments l = Ok r.
Proof.
  intros Hinj. unfold quantize_laser.
  set (l0 := set_range l (Z.of_nat (List.length segments)) 0%Z).
  change (lit 1 2) with (1 / 2).
  assert (Hstep : 0 < 1 / 2) by lra.
  pose proof (prepare_window_cases frames l0 (1 / 2) Hstep) as Hw. cbv zeta in Hw.
  destruct (laser_prepare_sampling_params frames l0 (1 / 2)) as [sp|] eqn:Hsp;
    [|eexists; reflexivity].
  destruct Hw as (_ & _ & Hns & _).
  replace (0 <? num_samples sp)%nat with true by (symmetry; apply Nat.ltb_lt; lia).
  cbn [assert bind].
  destruct (fill_samples_increases frames l0 (1 / 2) sp Hstep Hsp)
    as (init & lst & Hfs & _ & Hinc & Hon & _).
  rewrite Hfs. cbn [bind].
  assert (Hnd : NoDup (map sample_p
                   (init ++ [mkLaserSample (sample_p lst) (time_shift sp + timespan l0)]))).
  { replace (map sample_p (init ++ [mkLaserSample (sample_p lst) (time_shift sp + timespan l0)]))
      with (map sample_p (init ++ [lst])) by (rewrite !map_app; reflexivity).
    apply (times_increase_NoDup l0); [exact Hinj|exact Hinc|exact Hon]. }
  set (samples := init ++ [mkLaserSample (sample_p lst) (time_shift sp + timespan l0)]) in *.
  destruct samples as [|sample0 samples'] eqn:Es.
  { destruct init; discriminate. }
  assert (Hsl : exists sl,
    (if (List.length (sample0 :: samples') =? 1)%nat
     then
       if segment_is_visible (sample_p sample0) (sample_p sample0)
            (quantize_viewbounds VIEWPORT_W VIEWPORT_H LASER_SDF_RANGE l0)
       then
         add_segment segments
           (set_bbox l0 (mkRect (sample_p sample0) (sample_p sample0)))
           (mkLaserSegment (sample_p sample0) (sample_p sample0)
              (calc_sample_width powf (calc_width_params l0)
                 (sample_t sample0 - time_shift sp)%num)
              (calc_sample_width powf (calc_width_params l0)
                 (sample_t sample0 - time_shift sp)%num)
              (time_shift sp - sample_t sample0)%num
              (time_shift sp - sample_t sample0)%num)
       else Ok (segments, set_bbox l0 (mkRect (sample_p sample0) (sample_p sample0)))
     else
       construct_segments powf segments
         (set_bbox l0 (mkRect (sample_p sample0) (sample_p sample0))) sp
         (calc_width_params l0)
         (quantize_viewbounds VIEWPORT_W VIEWPORT_H LASER_SDF_RANGE l0)
         (sample0 :: samples')) = Ok sl).
  { destruct (List.length (sample0 :: samples') =? 1)%nat eqn:E1.
    - destruct (segment_is_visible _ _ _); [apply add_segment_returns|].
      eexists. reflexivity.
    - destruct samples' as [|sample1 rest]; [discriminate|].
      unfold construct_segments. cbn [map] in Hnd.
      assert (H01 : sample_p sample0 <> sample_p sample1).
      { intros E. inversion Hnd as [|? ? Hnin _]. apply Hnin. left. symmetry. exact E. }
      assert (Hv0 : cabs2 (csub (sample_p sample0) (sample_p sample1)) <> 0).
      { apply cabs2_csub_nonzero. intros E. apply H01. symmetry. exact E. }
      replace (cabs2 (csub (sample_p sample0) (sample_p sample1)) =? of_Z 0)%num with false
        by (symmetry; apply Reqb_false; exact Hv0).
      cbn [negb assert bind].
      apply construct_segments_loop_returns; [exact Hnd|exact Hv0]. }
  destruct Hsl as [sl ->]. cbn [bind]. eexists. reflexivity.
Qed.


End InjectiveCurve.

Section InjectiveCurveRun.
Local Open Scope R_scope.


End InjectiveCurveRun.

(** ** Culling is exact *)

Section CullingExact.
Local Open Scope R_scope.

Lemma convex_between (x y s : R) :
  0 <= s <= 1 -> Rmin x y <= x + s * (y - x) <= Rmax x y.
Proof.
  intros Hs. unfold Rmin, Rmax. destruct (Rle_dec x y); split; nra.
Qed.

(** A chord with a point in the rectangle is visible. *)
Lemma segment_is_visible_inside (a b : cmplx R) (bounds : FloatRect R) (s : R) :
  0 <= rect_w bounds -> 0 <= rect_h bounds ->
  0 <= s <= 1 -> in_float_rect (chord_point a b s) bounds ->
  segment_is_visible a b bounds = true.
Proof.
  intros Hw Hh Hs [Hpx Hpy].
  destruct (segment_is_visible a b bounds) eqn:Hvis; [reflexivity|exfalso].
  unfold segment_is_visible in Hvis. cbn in Hvis.
  set (left := rect_x bounds) in *. set (top := rect_y bounds) in *.
  set (right := left + rect_w bounds) in *. set (bottom := top + rect_h bounds) in *.
  assert (Hlr : left <= right) by (unfold right; lra).
  assert (Htb : top <= bottom) by (unfold bottom; lra).
  clearbody left top right bottom.
  destruct a as [xa ya], b as [xb yb]. unfold chord_point in *. cbn [re im] in *.
  pose proof (convex_between xa xb s Hs) as Hcx.
  pose proof (convex_between ya yb s Hs) as Hcy.
  set (px := xa + s * (xb - xa)) in *. set (py := ya + s * (yb - ya)) in *.
  assert (Hpxs : px - xa = s * (xb - xa)) by (unfold px; ring).
  assert (Hpys : py - ya = s * (yb - ya)) by (unfold py; ring).
  clearbody px py.
  destruct (_ && _) eqn:E1 in Hvis; [discriminate|].
  destruct (_ && _) eqn:E2 in Hvis; [discriminate|].
  destruct (_ && _) eqn:E3 in Hvis.
  { R_props. unfold Rmin, Rmax in Hcx. destruct (Rle_dec xa xb); lra. }
  destruct (_ && _) eqn:E4 in Hvis.
  { R_props. unfold Rmin, Rmax in Hcx. destruct (Rle_dec xa xb); lra. }
  destruct (_ && _) eqn:E5 in Hvis.
  { R_props. unfold Rmin, Rmax in Hcy. destruct (Rle_dec ya yb); lra. }
  destruct (_ && _) eqn:E6 in Hvis.
  { R_props. unfold Rmin, Rmax in Hcy. destruct (Rle_dec ya yb); lra. }
  destruct (_ && _) eqn:E7 in Hvis; [discriminate|].
  assert (Hne : xa <> xb).
  { intros ->. R_props. assert (px = xb) by lra. subst px. lra. }
  set (m := (ya - yb) / (xa - xb)) in *.
  assert (Hm : m * (xa - xb) = ya - yb) by (unfold m; field; lra).
  clearbody m.
  assert (Hline : py = m * px + (ya - m * xa)) by nra.
  rewrite fmax_R, fmin_R in Hvis.
  set (y0 := m * left + (ya - m * xa)) in *.
  set (y1 := m * right + (ya - m * xa)) in *.
  assert (Hbetween : Rmin y0 y1 <= py <= Rmax y0 y1).
  { rewrite Hline. unfold y0, y1, Rmin, Rmax.
    destruct (Rle_dec (m * left + (ya - m * xa)) (m * right + (ya - m * xa)));
      destruct (Rle_dec 0 m); split; nra. }
  clear E1 E2 E3 E4 E5 E6 E7.
  R_props. R_bools. rewrite ?Rleb_false in Hvis. lra.
Qed.



End CullingExact.

(** ** The bounding box of a quantized laser *)

Section BoundingBox.
Local Open Scope R_scope.
Variable powf : R -> R -> R.
Variables VIEWPORT_W VIEWPORT_H LASER_SDF_RANGE : R.

Lemma add_segment_grows (segments segments' : list (LaserSegment R))
    (l l' : Laser R) (cseg : LaserSegment R) :
  add_segment segments l cseg = Ok (segments', l') ->
  exists seg,
    segments' = segments ++ [seg] /\
    (forall p, point_in_rect p (bbox l) = true -> point_in_rect p (bbox l') = true) /\
    stored_in (bbox l') seg.
Proof.
  unfold add_segment. destruct (assert _ _) eqn:Ea; [|discriminate]. cbn [bind].
  intros H. injection H as <- <-. eexists. split; [reflexivity|].
  cbn [bbox set_bbox]. rewrite !fmin_R, !fmax_R.
  set (xa := re (pos_a cseg)). set (ya := im (pos_a cseg)).
  set (xb := re (pos_b cseg)). set (yb := im (pos_b cseg)).
  pose proof (Rmin_l (re (top_left (bbox l))) (Rmin xa xb)).
  pose proof (Rmin_r (re (top_left (bbox l))) (Rmin xa xb)).
  pose proof (Rmin_l (im (top_left (bbox l))) (Rmin ya yb)).
  pose proof (Rmin_r (im (top_left (bbox l))) (Rmin ya yb)).
  pose proof (Rmax_l (re (bottom_right (bbox l))) (Rmax xa xb)).
  pose proof (Rmax_r (re (bottom_right (bbox l))) (Rmax xa xb)).
  pose proof (Rmax_l (im (bottom_right (bbox l))) (Rmax ya yb)).
  pose proof (Rmax_r (im (bottom_right (bbox l))) (Rmax ya yb)).
  pose proof (Rmin_l xa xb). pose proof (Rmin_r xa xb).
  pose proof (Rmin_l ya yb). pose proof (Rmin_r ya yb).
  pose proof (Rmax_l xa xb). pose proof (Rmax_r xa xb).
  pose proof (Rmax_l ya yb). pose proof (Rmax_r ya yb).
  unfold stored_in. split; [|split; [|split]].
  - intros p. rewrite !point_in_rect_iff. rect_R. lra.
  - unfold assert in Ea. R_bools.
    destruct (Rleb _ _) eqn:E in Ea; [|discriminate]. apply Rleb_true in E. exact E.
  - rewrite point_in_rect_iff. rect_R.
    destruct (Rltb (width_b cseg) (width_a cseg)); cbn [laserseg_flip pos_a]; fold xa ya xb yb; lra.
  - rewrite point_in_rect_iff. rect_R.
    destruct (Rltb (width_b cseg) (width_a cseg)); cbn [laserseg_flip pos_b]; fold xa ya xb yb; lra.
Qed.

Lemma stored_in_grows (r r' : Rect R) (new : list (LaserSegment R)) :
  (forall p, point_in_rect p r = true -> point_in_rect p r' = true) ->
  Forall (stored_in r) new -> Forall (stored_in r') new.
Proof.
  intros Hsub Hall. eapply Forall_impl; [|exact Hall]. cbn.
  intros seg (Hw & Ha & Hb). repeat split; auto.
Qed.

Lemma construct_segments_loop_bbox (sp : LaserSamplingParams R)
    (wp : LaserWidthParams R) (viewbounds : FloatRect R) (thres_temporal : R)
    (rest : list (LaserSample R)) :
  forall (segments : list (LaserSegment R)) (l : Laser R) t0 a w0 v0 v0_abs2
         segments' l',
    construct_segments_loop powf sp wp viewbounds thres_temporal rest
      segments l t0 a w0 v0 v0_abs2 = Ok (segments', l') ->
    exists new,
      segments' = segments ++ new /\
      (forall p, point_in_rect p (bbox l) = true -> point_in_rect p (bbox l') = true) /\
      Forall (stored_in (bbox l')) new.
Proof.
  induction rest as [|sample rest' IH]; intros segments l t0 a w0 v0 v0_abs2 segments' l' H.
  - cbn in H. injection H as <- <-. exists []. rewrite app_nil_r.
    split; [reflexivity|]. split; [auto|constructor].
  - cbn [construct_segments_loop] in H.
    match type of H with bind ?c _ = _ => destruct c as [skip|]; [|discriminate] end.
    cbn [bind] in H. destruct skip.
    + apply IH in H. exact H.
    + match type of H with bind ?c _ = _ => destruct c as [[segs1 l1]|] eqn:E1;
        [|discriminate] end.
      cbn [bind fst snd] in H.
      match type of H with bind ?c _ = _ => destruct c; [|discriminate] end.
      cbn [bind] in H. apply IH in H. destruct H as (new & -> & Hsub & Hall).
      destruct (segment_is_visible a (sample_p sample) viewbounds).
      * apply add_segment_grows in E1. destruct E1 as (seg & -> & Hsub1 & Hseg).
        exists (seg :: new). rewrite <- app_assoc. split; [reflexivity|].
        split; [auto|]. constructor; [|exact Hall].
        destruct Hseg as (Hw & Ha & Hb). unfold stored_in. repeat split; auto.
      * injection E1 as <- <-. exists new. repeat split; assumption.
Qed.

Lemma quantize_laser_bbox_inner (frames : Z) (segments segments' : list (LaserSegment R))
    (l l' : Laser R) :
  quantize_laser powf VIEWPORT_W VIEWPORT_H LASER_SDF_RANGE frames segments l
  = Ok (segments', l') ->
  let m := LASER_SDF_RANGE + width l * (1 / 2) in
  let inner := mkRect (cadd (top_left (bbox l')) (CMPLX m m))
                      (csub (bottom_right (bbox l')) (CMPLX m m)) in
  Forall (stored_in inner) (laser_segments segments' l').
Proof.
  intros Hq m inner.
  destruct (quantize_laser_appends_range powf VIEWPORT_W VIEWPORT_H LASER_SDF_RANGE
              frames segments segments' l l' Hq) as (new & Hsegs & -> & _).
  revert Hq. unfold quantize_laser.
  set (l0 := set_range l (Z.of_nat (List.length segments)) 0%Z).
  destruct (laser_prepare_sampling_params frames l0 (lit 1 2)) as [sp|].
  2:{ intros H. injection H as Hs _.
      rewrite <- Hs in Hsegs. apply (f_equal (@List.length _)) in Hsegs.
      rewrite length_app in Hsegs. destruct new; [constructor|cbn in Hsegs; lia]. }
  destruct (assert _ _); [|discriminate]. cbn [bind].
  destruct (fill_samples sp l0) as [samples|]; [|discriminate]. cbn [bind].
  destruct samples as [|sample0 samples]; [discriminate|].
  set (l1 := set_bbox l0 (mkRect (sample_p sample0) (sample_p sample0))).
  match goal with |- bind ?c _ = _ -> _ => destruct c as [[segs2 l2]|] eqn:E; [|discriminate] end.
  cbn [bind fst snd]. intros H. injection H as Hs Hl.
  assert (Hst : exists new2, segs2 = segments ++ new2 /\
                  Forall (stored_in (bbox l2)) new2).
  { destruct (List.length (sample0 :: samples) =? 1)%nat.
    - destruct (segment_is_visible _ _ _).
      + apply add_segment_grows in E. destruct E as (seg & -> & _ & Hseg).
        exists [seg]. split; [reflexivity|]. constructor; [exact Hseg|constructor].
      + injection E as <- <-. exists []. rewrite app_nil_r. split; [reflexivity|constructor].
    - unfold construct_segments in E. destruct samples as [|s1 rest]; [discriminate|].
      destruct (assert _ _); [|discriminate]. cbn [bind] in E.
      apply construct_segments_loop_bbox in E. destruct E as (new2 & -> & _ & Hall).
      exists new2. split; [reflexivity|exact Hall]. }
  destruct Hst as (new2 & -> & Hall).
  assert (new2 = new).
  { rewrite Hsegs in Hs. apply app_inv_head in Hs. exact Hs. }
  subst new2.
  assert (Hw : width l2 = width l).
  { assert (Hap : l2 = set_bbox l1 (bbox l2)).
    { destruct (List.length (sample0 :: samples) =? 1)%nat.
      - destruct (segment_is_visible _ _ _).
        + apply add_segment_appends in E. tauto.
        + injection E as _ <-. reflexivity.
      - apply construct_segments_appends in E. tauto. }
    rewrite Hap. reflexivity. }
  eapply Forall_impl; [|exact Hall]. unfold stored_in. intros seg (Hwd & Ha & Hb).
  split; [exact Hwd|].
  revert Ha Hb. unfold inner, m. rewrite <- Hl. cbn [bbox set_bbox set_range].
  rewrite Hw. rewrite !point_in_rect_iff. unfold csub, cadd. rect_R. to_R. lra.
Qed.

End BoundingBox.

Section BoundingBoxStated.
Local Open Scope R_scope.

(** X21: over the real numbers, when [quantize_laser] returns, every
    segment in the laser's range is stored with [width.a <= width.b], and
    both its endpoints lie in the laser's bounding box taken in by the
    padding [LASER_SDF_RANGE + width / 2] on every side: the box covers
    each stored segment with that margin to spare. *)
Theorem quantize_laser_bbox (powf : R -> R -> R)
    (VIEWPORT_W VIEWPORT_H LASER_SDF_RANGE : R) (frames : Z)
    (segments segments' : list (LaserSegment R)) (l l' : Laser R) :
  quantize_laser powf VIEWPORT_W VIEWPORT_H LASER_SDF_RANGE frames segments l
  = Ok (segments', l') ->
  let m := LASER_SDF_RANGE + width l * (1 / 2) in
  let inner := mkRect (cadd (top_left (bbox l')) (CMPLX m m))
                      (csub (bottom_right (bbox l')) (CMPLX m m)) in
  Forall (stored_in inner) (laser_segments segments' l').
Proof.
  exact (quantize_laser_bbox_inner powf VIEWPORT_W VIEWPORT_H LASER_SDF_RANGE frames
           segments segments' l l').
Qed.

Lemma quantize_laser_bbox_witness :
  match quantize_laser (fun x _ => x) 480 560 0 7 [] Inputs.line_laser with
  | Ok (segments', l') =>
      let m := 0 + width Inputs.line_laser * (1 / 2) in
      let inner := mkRect (cadd (top_left (bbox l')) (CMPLX m m))
                          (csub (bottom_right (bbox l')) (CMPLX m m)) in
      Forall (stored_in inner) (laser_segments segments' l')
  | AssertFail _ => False
  end.
Proof.
  destruct (quantize_laser (fun x _ => x) 480 560 0 7 [] Inputs.line_laser)
    as [[segments' l']|cond] eqn:E.
  - exact (quantize_laser_bbox (fun x _ => x) 480 560 0 7 [] segments'
             Inputs.line_laser l' E).
  - destruct (quantize_laser_returns_injective (fun x _ => x) 480 560 0 7 []
                Inputs.line_laser) as [r Hr].
    + intros t1 t2 H.
      unfold laser_pos_at, Inputs.line_laser, laser_rule_linear, cadd, cscale in H.
      cbn in H. injection H as H. lra.
    + rewrite Hr in E. discriminate E.
Defined.

End BoundingBoxStated.

(** ** Queries on a quantized laser *)

Section LaserQueries.
Local Open Scope R_scope.
Variable cdir : R -> cmplx R.
Hypothesis cdir_unit : forall angle, cabs2 (cdir angle) = 1.
Hypothesis cdir_opp : forall angle, cdir (- angle) = conj (cdir angle).

Lemma laser_intersects_ellipse_loop_exact (segs : list (LaserSegment R)) (e : Ellipse R) :
  0 < re (e_axes e) -> 0 < im (e_axes e) ->
  exists hit : bool,
    laser_intersects_ellipse_loop cdir segs e = Ok hit /\
    (hit = true <->
     exists (seg : LaserSegment R) (s : R),
       In seg segs /\ 0 <= s <= 1 /\
       point_in_ellipse cdir (clerp (pos_a seg) (pos_b seg) s) e = true).
Proof.
  intros HA HB. induction segs as [|lseg segs IH].
  - exists false. split; [reflexivity|]. split; [discriminate|].
    intros (seg & s & Hin & _). destruct Hin.
  - cbn [laser_intersects_ellipse_loop].
    destruct (lineseg_ellipse_intersect_iff cdir cdir_unit cdir_opp
                (mkLineSegment (pos_a lseg) (pos_b lseg)) e HA HB) as (h & -> & Hh).
    cbn [bind ls_a ls_b] in *. destruct h.
    + exists true. split; [reflexivity|]. split; [|reflexivity]. intros _.
      destruct Hh as [Hh _]. destruct (Hh eq_refl) as (s & Hs & Hp).
      exists lseg, s. split; [left; reflexivity|]. split; assumption.
    + destruct IH as (hit & -> & Hhit). exists hit. split; [reflexivity|].
      rewrite Hhit. split.
      * intros (seg & s & Hin & Hs & Hp). exists seg, s. split; [right; exact Hin|].
        split; assumption.
      * intros (seg & s & [<-|Hin] & Hs & Hp).
        -- destruct Hh as [_ Hh]. assert (false = true) by (apply Hh; exists s; tauto).
           discriminate.
        -- exists seg, s. split; [exact Hin|]. split; assumption.
Qed.

Lemma clerp_in_rect (a b : cmplx R) (s : R) (r : Rect R) :
  0 <= s <= 1 ->
  point_in_rect a r = true -> point_in_rect b r = true ->
  point_in_rect (clerp a b s) r = true.
Proof.
  intros Hs. rewrite !point_in_rect_iff. unfold clerp, lerp. cbn [re im]. to_R.
  pose proof (convex_between (re a) (re b) s Hs) as Hx.
  pose proof (convex_between (im a) (im b) s Hs) as Hy.
  replace (re a + (re b - re a) * s) with (re a + s * (re b - re a)) by ring.
  replace (im a + (im b - im a) * s) with (im a + s * (im b - im a)) by ring.
  unfold Rmin, Rmax in *.
  destruct (Rle_dec (re a) (re b)), (Rle_dec (im a) (im b)); lra.
Qed.

Lemma laser_intersects_ellipse_covered (segments : list (LaserSegment R)) (l : Laser R)
    (e : Ellipse R) :
  0 < re (e_axes e) -> 0 < im (e_axes e) ->
  Forall (fun seg => point_in_rect (pos_a seg) (laser_bbox_rect l) = true /\
                     point_in_rect (pos_b seg) (laser_bbox_rect l) = true)
    (laser_segments segments l) ->
  exists hit : bool,
    laser_intersects_ellipse cdir segments l e = Ok hit /\
    (hit = true <->
     exists (seg : LaserSegment R) (s : R),
       In seg (laser_segments segments l) /\ 0 <= s <= 1 /\
       point_in_ellipse cdir (clerp (pos_a seg) (pos_b seg) s) e = true).
Proof.
  intros HA HB Hcov. unfold laser_intersects_ellipse.
  destruct (num_segments l <? 1)%Z eqn:En.
  { exists false. split; [reflexivity|]. split; [discriminate|].
    intros (seg & s & Hin & _). unfold laser_segments in Hin.
    apply Z.ltb_lt in En. replace (Z.to_nat (num_segments l)) with 0%nat in Hin by lia.
    destruct Hin. }
  destruct (rect_rect_intersect (ellipse_bbox e) (laser_bbox_rect l) true true) eqn:Er;
    cbn [negb].
  - apply laser_intersects_ellipse_loop_exact; assumption.
  - exists false. split; [reflexivity|]. split; [discriminate|].
    intros (seg & s & Hin & Hs & Hp). exfalso.
    rewrite Forall_forall in Hcov. destruct (Hcov seg Hin) as [Ha Hb].
    assert (Ht : rect_rect_intersect (ellipse_bbox e) (laser_bbox_rect l) true true = true).
    { apply rect_rect_intersect_iff_common.
      - apply ellipse_bbox_wf; exact HA.
      - apply point_in_rect_iff in Ha. unfold rect_wf. lra.
      - exists (clerp (pos_a seg) (pos_b seg) s). split.
        + unfold point_in_ellipse in Hp.
          destruct (point_in_rect _ (ellipse_bbox e)); [reflexivity|discriminate].
        + apply clerp_in_rect; assumption. }
    congruence.
Qed.

Variable powf : R -> R -> R.
Variables VIEWPORT_W VIEWPORT_H LASER_SDF_RANGE : R.

(** X22: over the real numbers, with [cdir] a unit vector that turns into
    its conjugate for the opposite angle: on a laser as [quantize_laser]
    leaves it, with padding [LASER_SDF_RANGE + width / 2] at least 0, and
    for an ellipse whose two axes are positive,
    [laser_intersects_ellipse] meets no assertion and returns true
    exactly when some point of some segment in the laser's range is in
    the ellipse. The two shortcuts, on [num_segments] and on the bounding
    boxes, never lose an intersection. *)
Theorem laser_intersects_ellipse_exact (frames : Z)
    (segments segments' : list (LaserSegment R)) (l l' : Laser R) (e : Ellipse R) :
  quantize_laser powf VIEWPORT_W VIEWPORT_H LASER_SDF_RANGE frames segments l
  = Ok (segments', l') ->
  0 <= LASER_SDF_RANGE + width l * (1 / 2) ->
  0 < re (e_axes e) -> 0 < im (e_axes e) ->
  exists hit : bool,
    laser_intersects_ellipse cdir segments' l' e = Ok hit /\
    (hit = true <->
     exists (seg : LaserSegment R) (s : R),
       In seg (laser_segments segments' l') /\ 0 <= s <= 1 /\
       point_in_ellipse cdir (clerp (pos_a seg) (pos_b seg) s) e = true).
Proof.
  intros Hq Hm HA HB. apply laser_intersects_ellipse_covered; try assumption.
  pose proof (quantize_laser_bbox_inner powf VIEWPORT_W VIEWPORT_H LASER_SDF_RANGE
                frames segments segments' l l' Hq) as Hall. cbv zeta in Hall.
  eapply Forall_impl; [|exact Hall]. unfold stored_in. intros seg (_ & Ha & Hb).
  revert Ha Hb. rewrite !point_in_rect_iff. unfold laser_bbox_rect, csub, cadd.
  rect_R. to_R. lra.
Qed.

End LaserQueries.

Section LaserQueriesRun.
Local Open Scope R_scope.

Lemma laser_intersects_ellipse_exact_witness :
  let cdir := fun angle : R => CMPLX (cos angle) (sin angle) in
  let e := mkEllipse (CMPLX 1 50) (CMPLX 4 2) (PI / 6) in
  match quantize_laser (fun x _ => x) 480 560 0 7 [] Inputs.line_laser with
  | Ok (segments', l') =>
      exists hit : bool,
        laser_intersects_ellipse cdir segments' l' e = Ok hit /\
        (hit = true <->
         exists (seg : LaserSegment R) (s : R),
           In seg (laser_segments segments' l') /\ 0 <= s <= 1 /\
           point_in_ellipse cdir (clerp (pos_a seg) (pos_b seg) s) e = true)
  | AssertFail _ => False
  end.
Proof.
  cbv zeta.
  destruct (quantize_laser (fun x _ => x) 480 560 0 7 [] Inputs.line_laser)
    as [[segments' l']|cond] eqn:E.
  - refine (laser_intersects_ellipse_exact
              (fun angle : R => CMPLX (cos angle) (sin angle)) _ _
              (fun x _ => x) 480 560 0 7 [] segments' Inputs.line_laser l'
              (mkEllipse (CMPLX 1 50) (CMPLX 4 2) (PI / 6)) E _ _ _).
    + intros angle. unfold cabs2. cbn.
      pose proof (sin2_cos2 angle) as H. unfold Rsqr in H. lra.
    + intros angle. unfold conj. cbn. rewrite cos_neg, sin_neg. reflexivity.
    + cbn. lra.
    + cbn. lra.
    + cbn. lra.
  - destruct (quantize_laser_returns_injective (fun x _ => x) 480 560 0 7 []
                Inputs.line_laser) as [r Hr].
    + intros t1 t2 H.
      unfold laser_pos_at, Inputs.line_laser, laser_rule_linear, cadd, cscale in H.
      cbn in H. injection H as H. lra.
    + rewrite Hr in E. discriminate E.
Defined.

End LaserQueriesRun.

(** ** Width profile and charge envelope *)

Section WidthProfile.
Local Open Scope R_scope.
Variable powf : R -> R -> R.

(** X23: over the real numbers, for a laser with [width_exponent = 1],
    timespan [T > 0] and width at least 0, the half-width the width model
    gives over the window [0, T] stays between 0.27 and 0.75 times the
    width, is the same at [t] and at [T - t], and does not decrease from
    the tail end towards the midpoint. *)
Theorem calc_sample_width_profile (l : Laser R) (t t' : R) :
  width_exponent l = 1 -> 0 < timespan l -> 0 <= width l ->
  0 <= t <= timespan l -> 0 <= t' <= t -> t <= timespan l / 2 ->
  let w := calc_sample_width powf (calc_width_params l) in
  27 / 100 * width l <= w t <= 3 / 4 * width l /\
  w (timespan l - t) = w t /\
  w t' <= w t.
Proof.
  intros He HT Hw Ht Ht' Hhalf w. subst w.
  rewrite !calc_sample_width_exact by assumption.
  set (T := timespan l) in *. set (W := width l) in *. clearbody T W.
  assert (Hu : forall x, (x - T / 2) / (5 / 8 * T) = 8 / 5 * (x / T) - 4 / 5)
    by (intros x; field; lra).
  rewrite !Hu.
  assert (Hx : forall x, 0 <= x <= T -> 0 <= x / T <= 1).
  { intros x Hxr. split.
    - apply Rmult_le_pos; [lra|]. apply Rlt_le, Rinv_0_lt_compat; lra.
    - apply Rmult_le_reg_r with (r := T); [lra|].
      replace (x / T * T) with x by (field; lra). lra. }
  assert (Hsym : (T - t) / T = 1 - t / T) by (field; lra).
  rewrite Hsym.
  pose proof (Hx t Ht) as Hts.
  assert (Ht'T : 0 <= t' <= T) by lra.
  pose proof (Hx t' Ht'T) as Ht's.
  assert (Hmono : t' / T <= t / T).
  { apply Rmult_le_compat_r; [|lra]. apply Rlt_le, Rinv_0_lt_compat; lra. }
  assert (Hhalf' : t / T <= 1 / 2).
  { apply Rmult_le_reg_r with (r := T); [lra|].
    replace (t / T * T) with t by (field; lra). lra. }
  set (s := t / T) in *. set (s' := t' / T) in *. clearbody s s'.
  cbn [pow].
  replace (8 / 5 * (1 - s) - 4 / 5) with (- (8 / 5 * s - 4 / 5)) by lra.
  set (a := 8 / 5 * s - 4 / 5). set (a' := 8 / 5 * s' - 4 / 5).
  assert (Ha : - (4 / 5) <= a <= 0) by (unfold a; lra).
  assert (Ha' : - (4 / 5) <= a' <= a) by (unfold a, a'; lra).
  clearbody a a'.
  assert (Hsq : 0 <= a * a <= 16 / 25) by nra.
  assert (Hsq' : a * a <= a' * a') by nra.
  assert (H1 : 0 <= W * (16 / 25 - a * a)) by (apply Rmult_le_pos; lra).
  assert (H2 : 0 <= W * (a * a)) by (apply Rmult_le_pos; lra).
  assert (H3 : 0 <= W * (a' * a' - a * a)) by (apply Rmult_le_pos; lra).
  split; [split; lra|]. split; [ring|lra].
Qed.

End WidthProfile.

Section WidthProfileRun.
Local Open Scope R_scope.

Lemma calc_sample_width_profile_witness :
  let l := Inputs.line_laser in
  let w := calc_sample_width (fun x _ => x) (calc_width_params l) in
  27 / 100 * width l <= w 1 <= 3 / 4 * width l /\
  w (timespan l - 1) = w 1 /\
  w (1 / 2) <= w 1.
Proof.
  apply (calc_sample_width_profile (fun x _ => x) Inputs.line_laser 1 (1 / 2));
    cbn; lra.
Defined.

End WidthProfileRun.

Section ChargeEnvelope.
Local Open Scope R_scope.

(** X24: over the real numbers, for a frame count [t >= 0] and a target
    width at least 0, the width [laser_charge] stores lies between 0 and
    the larger of 2 and the target; it is at most 2 before [charge - 10],
    it is the target from [charge + 10] until 20 frames before the
    deathtime, and from the deathtime on (past [charge - 10]) it is 0 with
    collision off. *)
Theorem laser_charge_envelope (l : Laser R) (t : Z) (charge target : R) :
  (0 <= t)%Z -> 0 <= target ->
  let l' := laser_charge l t charge target in
  0 <= width l' <= Rmax 2 target /\
  (IZR t < charge - 10 -> width l' <= 2) /\
  (charge + 10 <= IZR t < deathtime l - 20 -> width l' = target) /\
  (charge - 10 <= IZR t -> deathtime l <= IZR t ->
   width l' = 0 /\ collision_active l' = false).
Proof.
  intros Ht Hw l'. subst l'. apply IZR_le in Ht.
  unfold laser_charge. cbn [width collision_active set_width_active].
  rewrite !fmin_R, !fmax_R. unfold lit. cbn [of_Z fadd fsub fmul fdiv fltb fleb Num_R].
  set (x := IZR t) in *. clearbody x. set (D := deathtime l). clearbody D.
  pose proof (Rmax_l 2 target) as Hm2. pose proof (Rmax_r 2 target) as Hmw.
  destruct (Rltb x (charge - 10)) eqn:E1.
  - apply Rltb_true in E1.
    assert (Hden : 0 < Rmin 30 (charge - 10)).
    { unfold Rmin. destruct (Rle_dec 30 (charge - 10)); lra. }
    assert (Hq : 0 <= 2 * x / Rmin 30 (charge - 10)).
    { apply Rmult_le_pos; [lra|]. apply Rlt_le, Rinv_0_lt_compat; exact Hden. }
    pose proof (Rmin_l 2 (2 * x / Rmin 30 (charge - 10))) as Hl.
    assert (Hge : 0 <= Rmin 2 (2 * x / Rmin 30 (charge - 10))).
    { unfold Rmin at 1. destruct (Rle_dec 2 _); lra. }
    split; [split; lra|]. split; [intros _; lra|]. split; [intros H; lra|].
    intros H; lra.
  - apply Rltb_false in E1.
    replace (Rleb (charge - 10) x) with true by (symmetry; apply Rleb_true; lra).
    cbn [andb].
    destruct (Rltb x (D - 20)) eqn:E2.
    + apply Rltb_true in E2.
      assert (Hs : 0 <= target / 20 * (x - charge + 10)) by nra.
      pose proof (Rmin_l target (17 / 10 + target / 20 * (x - charge + 10))) as Hl.
      assert (Hge : 0 <= Rmin target (17 / 10 + target / 20 * (x - charge + 10))).
      { unfold Rmin. destruct (Rle_dec target _); lra. }
      split; [split; lra|]. split; [intros H; lra|]. split.
      * intros [Hc _]. apply Rmin_left. nra.
      * intros _ HD. lra.
    + apply Rltb_false in E2.
      replace (Rleb (D - 20) x) with true by (symmetry; apply Rleb_true; lra).
      assert (Hs : 0 <= target / 20 * (x - D + 20)) by nra.
      pose proof (Rmax_l 0 (target - target / 20 * (x - D + 20))) as Hl.
      assert (Hle : Rmax 0 (target - target / 20 * (x - D + 20)) <= target).
      { unfold Rmax. destruct (Rle_dec 0 _); lra. }
      split; [split; lra|]. split; [intros H; lra|]. split; [intros H; lra|].
      intros _ HD.
      assert (H0 : Rmax 0 (target - target / 20 * (x - D + 20)) = 0)
        by (apply Rmax_left; nra).
      split; [exact H0|]. rewrite H0. apply Rltb_false. lra.
Qed.

Lemma laser_charge_envelope_witness :
  let l' := laser_charge Inputs.line_laser 50 30 10 in
  0 <= width l' <= Rmax 2 10 /\
  (IZR 50 < 30 - 10 -> width l' <= 2) /\
  (30 + 10 <= IZR 50 < deathtime Inputs.line_laser - 20 -> width l' = 10) /\
  (30 - 10 <= IZR 50 -> deathtime Inputs.line_laser <= IZR 50 ->
   width l' = 0 /\ collision_active l' = false).
Proof.
  apply (laser_charge_envelope Inputs.line_laser 50 30 10); [lia|lra].
Defined.

End ChargeEnvelope.

(** ** Collision *)

Section CollisionHit.
Context {F : Type} {NF : Num F}.
Local Open Scope num_scope.

Lemma laser_collision_loop_hit (plrpos : cmplx F) (player_moved : bool)
    (plrmotion : LineSegment F) (graze : bool) (segs : list (LaserSegment F)) :
  forall (graze_dist : F) (graze_pos : cmplx F),
    laser_collision_loop plrpos player_moved plrmotion graze segs graze_dist graze_pos
    = None <->
    exists lseg, In lseg segs /\
      ((player_moved = true /\
        lineseg_lineseg_intersection plrmotion (mkLineSegment (pos_a lseg) (pos_b lseg))
        = true) \/
       (ucapsule_dist_from_point plrpos (hit_capsule lseg) <? of_Z 0) = true).
Proof.
  induction segs as [|lseg segs IH]; intros graze_dist graze_pos.
  - cbn. split; [discriminate|]. intros (lseg & [] & _).
  - cbn [laser_collision_loop].
    destruct (player_moved &&
              lineseg_lineseg_intersection plrmotion
                (mkLineSegment (pos_a lseg) (pos_b lseg))) eqn:E1.
    { split; [|reflexivity]. intros _. exists lseg. split; [left; reflexivity|].
      left. apply andb_true_iff in E1. exact E1. }
    destruct (ucapsule_dist_from_point plrpos (hit_capsule lseg) <? of_Z 0) eqn:E2.
    { split; [|reflexivity]. intros _. exists lseg. split; [left; reflexivity|].
      right. exact E2. }
    assert (Hrest : forall gd gp,
      laser_collision_loop plrpos player_moved plrmotion graze segs gd gp = None <->
      exists lseg0, In lseg0 (lseg :: segs) /\
        ((player_moved = true /\
          lineseg_lineseg_intersection plrmotion
            (mkLineSegment (pos_a lseg0) (pos_b lseg0)) = true) \/
         (ucapsule_dist_from_point plrpos (hit_capsule lseg0) <? of_Z 0) = true)).
    { intros gd gp. rewrite IH. split.
      - intros (s & Hin & Hs). exists s. split; [right; exact Hin|exact Hs].
      - intros (s & [<-|Hin] & Hs).
        + exfalso. destruct Hs as [[Hm Hi]|Hd].
          * rewrite Hm, Hi in E1. discriminate.
          * rewrite Hd in E2. discriminate.
        + exists s. split; assumption. }
    destruct (graze && _); apply Hrest.
Qed.

(** X25: in any arithmetic, [laser_collision] reports a hit exactly when
    the laser is active, has at least one segment, the player is in the
    bounding box (widened by 42 on every side while grazing is armed),
    and for some segment of the laser's range either the player moved and
    the path of the move crosses the segment, or the player's distance to
    the segment's capsule is negative. A call that reports a hit leaves
    the laser as it was and does not graze. *)
Theorem laser_collision_hit (frames : Z) (segments : list (LaserSegment F))
    (l : Laser F) (plr : Player F) :
  let r := laser_collision frames segments l plr in
  let graze := (next_graze l <=? frames)%Z in
  let ofs := CMPLX (of_Z 42) (of_Z 42) in
  let box := if graze
             then mkRect (csub (top_left (bbox l)) ofs) (cadd (bottom_right (bbox l)) ofs)
             else laser_bbox_rect l in
  let moved := negb (ceqb (plr_velocity plr) (CMPLX (of_Z 0) (of_Z 0))) in
  let motion := mkLineSegment (csub (plr_pos plr) (plr_velocity plr)) (plr_pos plr) in
  (hit r = true <->
   laser_is_active l = true /\ (1 <= num_segments l)%Z /\
   point_in_rect (plr_pos plr) box = true /\
   exists lseg, In lseg (laser_segments segments l) /\
     ((moved = true /\
       lineseg_lineseg_intersection motion (mkLineSegment (pos_a lseg) (pos_b lseg)) = true) \/
      (ucapsule_dist_from_point (plr_pos plr) (hit_capsule lseg) <? of_Z 0) = true)) /\
  (hit r = true -> laser_after r = l /\ grazed r = None).
Proof.
  intros r graze ofs box moved motion. subst r. unfold laser_collision.
  destruct (laser_is_active l) eqn:Ea; cbn [negb].
  2:{ cbn. split; [|discriminate]. split; [discriminate|]. intros [H _]. discriminate. }
  destruct (num_segments l <? 1)%Z eqn:En.
  { cbn. split; [|discriminate]. split; [discriminate|]. intros (_ & H & _).
    apply Z.ltb_lt in En. lia. }
  apply Z.ltb_ge in En.
  fold graze. fold ofs.
  assert (Hbox : (if graze
                  then mkRect (csub (top_left (laser_bbox_rect l)) ofs)
                              (cadd (bottom_right (laser_bbox_rect l)) ofs)
                  else laser_bbox_rect l) = box) by reflexivity.
  rewrite Hbox.
  destruct (point_in_rect (plr_pos plr) box) eqn:Ep; cbn [negb].
  2:{ cbn. split; [|discriminate]. split; [discriminate|]. intros (_ & _ & H & _).
      discriminate. }
  fold moved. fold motion.
  change (firstn (Z.to_nat (num_segments l)) (skipn (Z.to_nat (segments_ofs l)) segments))
    with (laser_segments segments l).
  pose proof (laser_collision_loop_hit (plr_pos plr) moved motion graze
                (laser_segments segments l) (of_Z 42) (CMPLX (of_Z 0) (of_Z 0))) as Hloop.
  destruct (laser_collision_loop (plr_pos plr) moved motion graze
              (laser_segments segments l) (of_Z 42) (CMPLX (of_Z 0) (of_Z 0)))
    as [[gd gp]|].
  - assert (Hno : ~ exists lseg, In lseg (laser_segments segments l) /\
               ((moved = true /\
                 lineseg_lineseg_intersection motion
                   (mkLineSegment (pos_a lseg) (pos_b lseg)) = true) \/
                (ucapsule_dist_from_point (plr_pos plr) (hit_capsule lseg) <? of_Z 0)
                = true)).
    { intros H. apply Hloop in H. discriminate. }
    destruct (gd <? of_Z 42); cbn [hit]; (split; [|discriminate]);
      (split; [discriminate|]); intros (_ & _ & _ & H); contradiction.
  - cbn [hit laser_after grazed]. split; [|intros _; split; reflexivity].
    split; [|reflexivity]. intros _.
    split; [reflexivity|]. split; [exact En|]. split; [reflexivity|].
    apply Hloop. reflexivity.
Qed.

End CollisionHit.

(** ** The trace walker never hands out a null segment *)

Section TraceSegment.
Import Trace.
Variables U P : Type.
Variable l : Laser float.
Variable step : float.
Variables func func' : LaserTraceFunc U P.
Hypothesis func_agree :
  forall (sample : LaserTraceSample) (userdata : U),
    ts_segment sample <> None -> func l sample userdata = func' l sample userdata.

Lemma laser_trace_advance_agree (fuel : nat) :
  forall (st : LaserTraceState) (userdata : U) (v : cmplx float) (len : float),
    ts_segment (st_sample st) <> None ->
    laser_trace_advance l step func fuel st userdata v len
    = laser_trace_advance l step func' fuel st userdata v len /\
    forall r st' ud',
      laser_trace_advance l step func fuel st userdata v len = Done (r, st', ud') ->
      ts_segment (st_sample st') = ts_segment (st_sample st).
Proof.
  induction fuel as [|fuel IH]; intros st userdata v len Hseg.
  - split; [reflexivity|discriminate].
  - cbn [laser_trace_advance]. cbv zeta.
    cbn [st_sample st_p st_accum st_inverse_seglen ts_pos ts_segment segment_param
         discontinuous].
    destruct (fleb step _) eqn:Estep.
    + unfold laser_trace_dispatch. cbn [st_sample].
      rewrite <- func_agree by exact Hseg.
      destruct (func l _ userdata) as [[result|] ud1]; cbn [fst snd].
      * split; [reflexivity|]. intros r st' ud' H. injection H as _ <- _. reflexivity.
      * destruct (fltb _ _).
        -- match goal with |- context [laser_trace_advance l step func fuel ?st1 ud1 v ?len1] =>
             destruct (IH st1 ud1 v len1 Hseg) as [He Hs] end.
           split; [exact He|]. intros r st' ud' H. apply Hs in H. exact H.
        -- split; [reflexivity|]. intros r st' ud' H. injection H as _ <- _. reflexivity.
    + destruct (fltb _ _).
      * match goal with |- context [laser_trace_advance l step func fuel ?st1 userdata v ?len1] =>
          destruct (IH st1 userdata v len1 Hseg) as [He Hs] end.
        split; [exact He|]. intros r st' ud' H. apply Hs in H. exact H.
      * split; [reflexivity|]. intros r st' ud' H. injection H as _ <- _. reflexivity.
Qed.

Lemma laser_trace_steps_agree (fuel : nat) :
  forall (st : LaserTraceState) (userdata : U) (v : cmplx float) (len pstep : float),
    ts_segment (st_sample st) <> None ->
    laser_trace_steps l step func fuel st userdata v len pstep
    = laser_trace_steps l step func' fuel st userdata v len pstep /\
    forall r st' ud' len',
      laser_trace_steps l step func fuel st userdata v len pstep = Done (r, st', ud', len') ->
      ts_segment (st_sample st') = ts_segment (st_sample st).
Proof.
  induction fuel as [|fuel IH]; intros st userdata v len pstep Hseg.
  - split; [reflexivity|discriminate].
  - cbn [laser_trace_steps].
    destruct (fleb pstep len); [|split; [reflexivity|]; intros r st' ud' len' H;
                                   injection H as _ <- _ _; reflexivity].
    destruct (laser_trace_advance_agree (S fuel) st userdata v pstep Hseg) as [He Hs].
    rewrite <- He.
    destruct (laser_trace_advance l step func (S fuel) st userdata v pstep)
      as [[[[result|] st1] ud1]|] eqn:Ea.
    + split; [reflexivity|]. intros r st' ud' len' H. injection H as _ <- _ _.
      apply (Hs _ _ _ eq_refl).
    + assert (Hseg1 : ts_segment (st_sample st1) <> None).
      { rewrite (Hs _ _ _ eq_refl). exact Hseg. }
      destruct (IH st1 ud1 v (fsub len pstep) pstep Hseg1) as [He1 Hs1].
      split; [exact He1|]. intros r st' ud' len' H. apply Hs1 in H.
      rewrite H. apply (Hs _ _ _ eq_refl).
    + split; [reflexivity|discriminate].
Qed.

Lemma laser_trace_segments_agree (fuel : nat) (segs : list (LaserSegment float)) :
  forall (st : LaserTraceState) (userdata : U) (prev_endpos : cmplx float),
    laser_trace_segments l step func fuel segs st userdata prev_endpos
    = laser_trace_segments l step func' fuel segs st userdata prev_endpos.
Proof.
  induction segs as [|s segs IH]; intros st userdata prev_endpos; [reflexivity|].
  cbn [laser_trace_segments]. cbv zeta.
  set (s' := if negb (ceqb prev_endpos (pos_a s)) && ceqb prev_endpos (pos_b s)
             then laserseg_flip s else s).
  destruct (negb (ceqb prev_endpos (pos_a s'))).
  - unfold laser_trace_dispatch. cbn [st_sample].
    rewrite <- func_agree by (cbn; discriminate).
    destruct (func l _ userdata) as [[result|] ud1]; [reflexivity|].
    match goal with |- context [laser_trace_steps l step func fuel ?st1 ud1 ?v ?len ?ps] =>
      destruct (laser_trace_steps_agree fuel st1 ud1 v len ps) as [He Hs];
        [cbn; discriminate|] end.
    rewrite <- He.
    match goal with |- context [laser_trace_steps l step func fuel ?st1 ud1 ?v ?len ?ps] =>
      destruct (laser_trace_steps l step func fuel st1 ud1 v len ps)
        as [[[[[result|] st2] ud2] len2]|] eqn:Es end; try reflexivity.
    assert (Hseg2 : ts_segment (st_sample st2) <> None).
    { rewrite (Hs _ _ _ _ eq_refl). cbn. discriminate. }
    destruct (laser_trace_advance_agree fuel st2 ud2
                (cscale (csub (pos_b s') (pos_a s'))
                   (fdiv (of_Z 1) (cabs (csub (pos_b s') (pos_a s'))))) len2 Hseg2)
      as [He2 _].
    rewrite <- He2.
    destruct (laser_trace_advance l step func fuel st2 ud2 _ len2) as [[[r3 st3] ud3]|];
      [apply IH|reflexivity].
  - match goal with |- context [laser_trace_steps l step func fuel ?st1 userdata ?v ?len ?ps] =>
      destruct (laser_trace_steps_agree fuel st1 userdata v len ps) as [He Hs];
        [cbn; discriminate|] end.
    rewrite <- He.
    match goal with |- context [laser_trace_steps l step func fuel ?st1 userdata ?v ?len ?ps] =>
      destruct (laser_trace_steps l step func fuel st1 userdata v len ps)
        as [[[[[result|] st2] ud2] len2]|] eqn:Es end; try reflexivity.
    assert (Hseg2 : ts_segment (st_sample st2) <> None).
    { rewrite (Hs _ _ _ _ eq_refl). cbn. discriminate. }
    destruct (laser_trace_advance_agree fuel st2 ud2
                (cscale (csub (pos_b s') (pos_a s'))
                   (fdiv (of_Z 1) (cabs (csub (pos_b s') (pos_a s'))))) len2 Hseg2)
      as [He2 _].
    rewrite <- He2.
    destruct (laser_trace_advance l step func fuel st2 ud2 _ len2) as [[[r3 st3] ud3]|];
      [apply IH|reflexivity].
Qed.

(** X26: in binary64, for every laser, segment buffer, step and amount of
    fuel: the sample [laser_trace] hands to the callback always carries a
    segment pointer that is not null. Two callbacks that agree on the
    samples with a non-null segment give the same run, whatever they do
    on the others. *)
Theorem laser_trace_segment_not_null (fuel : nat) (segments : list (LaserSegment float))
    (userdata : U) :
  laser_trace l step func fuel segments userdata
  = laser_trace l step func' fuel segments userdata.
Proof.
  unfold laser_trace. destruct (num_segments l <? 1)%Z; [reflexivity|].
  destruct (firstn _ _) as [|seg0 segs]; [reflexivity|].
  apply laser_trace_segments_agree.
Qed.

End TraceSegment.

Section TraceSegmentRun.
Import Inputs.

Lemma laser_trace_segment_not_null_witness :
  Trace.laser_trace chain_laser 4%float stop_at_4 8 chain []
  = Trace.laser_trace chain_laser 4%float
      (fun l sample log =>
         match Trace.ts_segment sample with
         | None => (Some 0%nat, log)
         | Some _ => stop_at_4 l sample log
         end) 8 chain [].
Proof.
  apply (laser_trace_segment_not_null _ _ chain_laser 4%float stop_at_4
           (fun l sample log =>
              match Trace.ts_segment sample with
              | None => (Some 0%nat, log)
              | Some _ => stop_at_4 l sample log
              end)).
  intros sample userdata H.
  destruct (Trace.ts_segment sample); [reflexivity|contradiction].
Defined.

End TraceSegmentRun.

(** ** An unculled laser is one polyline *)

Section Polyline.
Local Open Scope R_scope.
Variable powf : R -> R -> R.
Variables VIEWPORT_W VIEWPORT_H LASER_SDF_RANGE : R.

Lemma segment_is_visible_endpoint (a b : cmplx R) (bounds : FloatRect R) :
  in_float_rect a bounds -> segment_is_visible a b bounds = true.
Proof.
  intros [Hx Hy]. unfold segment_is_visible. cbv zeta. R_bools.
  cbn [fadd Num_R].
  replace (Rleb (rect_x bounds) (re a)) with true by (symmetry; apply Rleb_true; lra).
  replace (Rleb (re a) (rect_x bounds + rect_w bounds)) with true
    by (symmetry; apply Rleb_true; lra).
  replace (Rleb (rect_y bounds) (im a)) with true by (symmetry; apply Rleb_true; lra).
  replace (Rleb (im a) (rect_y bounds + rect_h bounds)) with true
    by (symmetry; apply Rleb_true; lra).
  reflexivity.
Qed.

Lemma add_segment_ends (segments segments' : list (LaserSegment R)) (l l' : Laser R)
    (cseg : LaserSegment R) :
  add_segment segments l cseg = Ok (segments', l') ->
  exists seg, segments' = segments ++ [seg] /\
    ((pos_a seg = pos_a cseg /\ pos_b seg = pos_b cseg) \/
     (pos_b seg = pos_a cseg /\ pos_a seg = pos_b cseg)).
Proof.
  unfold add_segment. destruct (assert _ _); [|discriminate]. cbn [bind].
  intros H. injection H as <- _. eexists. split; [reflexivity|].
  R_bools. destruct (Rltb (width_b cseg) (width_a cseg)); [right|left]; split; reflexivity.
Qed.

Lemma last_cons_default (A : Type) (x d : A) (xs : list A) :
  last (x :: xs) d = last xs x.
Proof.
  revert x d. induction xs as [|y ys IH]; intros x d; [reflexivity|].
  change (last (x :: y :: ys) d) with (last (y :: ys) d).
  rewrite (IH y d), (IH y x). reflexivity.
Qed.

Lemma construct_segments_loop_polyline (sp : LaserSamplingParams R)
    (wp : LaserWidthParams R) (viewbounds : FloatRect R) (thres_temporal : R)
    (rest : list (LaserSample R)) :
  forall (segments : list (LaserSegment R)) (l : Laser R) t0 a w0 v0 v0_abs2
         segments' l',
    in_float_rect a viewbounds ->
    Forall (fun s => in_float_rect (sample_p s) viewbounds) rest ->
    construct_segments_loop powf sp wp viewbounds thres_temporal rest
      segments l t0 a w0 v0 v0_abs2 = Ok (segments', l') ->
    exists new,
      segments' = segments ++ new /\
      polyline a new (last (map sample_p rest) a) /\
      (rest <> [] -> new <> []).
Proof.
  induction rest as [|sample rest' IH];
    intros segments l t0 a w0 v0 v0_abs2 segments' l' Ha Hall H.
  - cbn in H. injection H as <- _. exists []. rewrite app_nil_r.
    split; [reflexivity|]. split; [reflexivity|]. intros Hne. contradiction.
  - inversion Hall as [|? ? Hb Hall']; subst.
    cbn [construct_segments_loop] in H. cbn [map]. rewrite last_cons_default.
    match type of H with bind ?c _ = _ => destruct c as [skip|] eqn:Es; [|discriminate] end.
    cbn [bind] in H. destruct skip.
    + destruct rest' as [|next rest'']; [discriminate|].
      apply IH in H; try assumption. destruct H as (new & -> & Hpoly & Hne).
      exists new. split; [reflexivity|]. split.
      * cbn [map] in *. rewrite last_cons_default in *. exact Hpoly.
      * intros _. apply Hne. discriminate.
    + rewrite (segment_is_visible_endpoint a (sample_p sample) viewbounds Ha) in H.
      match type of H with bind ?c _ = _ => destruct c as [[segs1 l1]|] eqn:E1;
        [|discriminate] end.
      cbn [bind fst snd] in H.
      match type of H with bind ?c _ = _ => destruct c; [|discriminate] end.
      cbn [bind] in H.
      apply add_segment_ends in E1. destruct E1 as (seg & -> & Hends).
      cbn [pos_a pos_b] in Hends.
      apply IH in H; try assumption. destruct H as (new & -> & Hpoly & _).
      exists (seg :: new). rewrite <- app_assoc. split; [reflexivity|].
      split; [|discriminate].
      cbn [polyline]. destruct Hends as [[Hsa Hsb]|[Hsb Hsa]].
      * left. split; [exact Hsa|]. rewrite Hsb. exact Hpoly.
      * right. split; [exact Hsb|]. rewrite Hsa. exact Hpoly.
Qed.

Lemma quantize_laser_polyline_range (frames : Z) (segments : list (LaserSegment R))
    (l : Laser R) (sp : LaserSamplingParams R) (samples : list (LaserSample R))
    (segments' : list (LaserSegment R)) (l' : Laser R) :
  laser_prepare_sampling_params frames l (1 / 2) = Some sp ->
  fill_samples sp l = Ok samples ->
  Forall (fun s => in_float_rect (sample_p s)
                     (quantize_viewbounds VIEWPORT_W VIEWPORT_H LASER_SDF_RANGE l))
    samples ->
  quantize_laser powf VIEWPORT_W VIEWPORT_H LASER_SDF_RANGE frames segments l
  = Ok (segments', l') ->
  laser_segments segments' l' <> [] /\
  polyline (laser_pos_at l (time_shift sp)) (laser_segments segments' l')
    (last (map sample_p samples) (laser_pos_at l (time_shift sp))).
Proof.
  intros Hsp Hfs Hall Hq.
  destruct (quantize_laser_appends_range powf VIEWPORT_W VIEWPORT_H LASER_SDF_RANGE
              frames segments segments' l l' Hq) as (new & Hsegs & -> & _).
  revert Hq. unfold quantize_laser.
  change (laser_prepare_sampling_params frames (set_range l _ _) (lit 1 2))
    with (laser_prepare_sampling_params frames l (1 / 2)).
  rewrite Hsp.
  destruct (assert _ _); [|discriminate]. cbn [bind].
  rewrite fill_samples_set_range, Hfs. cbn [bind].
  destruct (fill_samples_head sp l samples Hfs) as (s0 & rest & -> & Hp0).
  rewrite <- Hp0.
  set (vb := quantize_viewbounds VIEWPORT_W VIEWPORT_H LASER_SDF_RANGE l) in *.
  change (quantize_viewbounds _ _ _ (set_range l _ _)) with vb.
  apply Forall_cons_iff in Hall. destruct Hall as [Hin0 Hall'].
  match goal with |- bind ?c _ = _ -> _ => destruct c as [[segs2 l2]|] eqn:E; [|discriminate] end.
  cbn [bind fst snd]. intros H. injection H as Hs _.
  assert (Hst : exists new2, segs2 = segments ++ new2 /\ new2 <> [] /\
                  polyline (sample_p s0) new2 (last (map sample_p (s0 :: rest)) (sample_p s0))).
  { destruct rest as [|s1 rest].
    - cbn [List.length Nat.eqb] in E.
      rewrite (segment_is_visible_endpoint _ _ vb Hin0) in E.
      apply add_segment_ends in E. destruct E as (seg & -> & Hends).
      exists [seg]. split; [reflexivity|]. split; [discriminate|].
      cbn [pos_a pos_b] in Hends. cbn.
      destruct Hends as [[Hsa Hsb]|[Hsb Hsa]]; [left|right]; split; assumption.
    - cbn [List.length Nat.eqb] in E. unfold construct_segments in E.
      destruct (assert _ _); [|discriminate]. cbn [bind] in E.
      apply construct_segments_loop_polyline in E; try assumption.
      destruct E as (new2 & -> & Hpoly & Hne).
      exists new2. split; [reflexivity|]. split; [apply Hne; discriminate|].
      cbn [map]. rewrite last_cons_default. exact Hpoly. }
  destruct Hst as (new2 & -> & Hne & Hpoly).
  assert (new2 = new) by (rewrite Hsegs in Hs; apply app_inv_head in Hs; exact Hs).
  subst new2. split; assumption.
Qed.

End Polyline.

Section PolylineStated.
Local Open Scope R_scope.

(** X27: over the real numbers, when every sample of the laser lies in
    the inflated viewport, so that nothing is culled, the segments
    [quantize_laser] stores for the laser are not empty and form one
    polyline: taken each in one of its two directions, they run end to
    end from the curve's point at [time_shift] to the position of the
    last sample. *)
Theorem quantize_laser_polyline (powf : R -> R -> R)
    (VIEWPORT_W VIEWPORT_H LASER_SDF_RANGE : R) (frames : Z)
    (segments : list (LaserSegment R)) (l : Laser R) (sp : LaserSamplingParams R)
    (samples : list (LaserSample R)) (segments' : list (LaserSegment R)) (l' : Laser R) :
  laser_prepare_sampling_params frames l (1 / 2) = Some sp ->
  fill_samples sp l = Ok samples ->
  Forall (fun s => in_float_rect (sample_p s)
                     (quantize_viewbounds VIEWPORT_W VIEWPORT_H LASER_SDF_RANGE l))
    samples ->
  quantize_laser powf VIEWPORT_W VIEWPORT_H LASER_SDF_RANGE frames segments l
  = Ok (segments', l') ->
  laser_segments segments' l' <> [] /\
  polyline (laser_pos_at l (time_shift sp)) (laser_segments segments' l')
    (last (map sample_p samples) (laser_pos_at l (time_shift sp))).
Proof.
  exact (quantize_laser_polyline_range powf VIEWPORT_W VIEWPORT_H LASER_SDF_RANGE
           frames segments l sp samples segments' l').
Qed.

Lemma short_prepare :
  laser_prepare_sampling_params 0 Scene.short_line (1 / 2) = Some Scene.short_sp.
Proof.
  unfold laser_prepare_sampling_params, Scene.short_line, Scene.short_sp.
  cbn [timespan deathtime timeshift speed birthtime of_Z fadd fsub fmul fdiv fltb fleb
       fceil Num_R].
  R_decide. cbn [fst snd]. R_decide.
  replace ((1 / 2 + 1 / 2) / (1 / 2)) with (IZR 2) by lra.
  rewrite Rceil_IZR. cbn. f_equal. f_equal; lra.
Qed.

Lemma short_fill :
  fill_samples Scene.short_sp Scene.short_line = Ok Scene.short_samples.
Proof.
  unfold fill_samples, Scene.short_sp, Scene.short_samples.
  cbn [num_samples time_shift time_step Nat.sub fill_samples_loop sample_p].
  replace (ceqb (laser_pos_at Scene.short_line 0)
             (laser_pos_at Scene.short_line (fadd 0 (1 / 2)))) with false.
  - cbn. R_decide. reflexivity.
  - symmetry. unfold ceqb, laser_pos_at, Scene.short_line, laser_rule_linear, cadd, cscale.
    cbn. R_decide. reflexivity.
Qed.

Lemma quantize_laser_polyline_witness :
  match quantize_laser (fun x _ => x) 480 560 0 0 [] Scene.short_line with
  | Ok (segments', l') =>
      laser_segments segments' l' <> [] /\
      polyline (laser_pos_at Scene.short_line 0) (laser_segments segments' l')
        (last (map sample_p Scene.short_samples) (laser_pos_at Scene.short_line 0))
  | AssertFail _ => False
  end.
Proof.
  destruct (quantize_laser (fun x _ => x) 480 560 0 0 [] Scene.short_line)
    as [[segments' l']|cond] eqn:E.
  - refine (quantize_laser_polyline (fun x _ => x) 480 560 0 0 [] Scene.short_line
              Scene.short_sp Scene.short_samples segments' l'
              short_prepare short_fill _ E).
    unfold Scene.short_samples, in_float_rect, quantize_viewbounds, laser_pos_at,
      Scene.short_line, laser_rule_linear, cadd, cscale, lit.
    repeat constructor; cbn; lra.
  - destruct (quantize_laser_returns_injective (fun x _ => x) 480 560 0 0 []
                Scene.short_line) as [r Hr].
    + intros t1 t2 H.
      unfold laser_pos_at, Scene.short_line, laser_rule_linear, cadd, cscale in H.
      cbn in H. injection H as H. lra.
    + rewrite Hr in E. discriminate E.
Defined.

End PolylineStated.

(** ** Rules and laser lines *)

Section ArcRule.
Local Open Scope R_scope.
Variable cdir : R -> cmplx R.
Hypothesis cdir_unit : forall angle, cabs2 (cdir angle) = 1.

(** X28: over the real numbers, with [cdir] a unit vector, a laser that
    follows [laser_rule_arc] stays on the circle around its origin whose
    radius is the modulus of the rule's complex radius, at every curve
    time. *)
Theorem laser_rule_arc_on_circle (radius : cmplx R) (turn_speed time_ofs : R)
    (l : Laser R) (t : R) :
  rule l = laser_rule_arc cdir radius turn_speed time_ofs ->
  cabs (csub (laser_pos_at l t) (pos l)) = cabs radius.
Proof.
  intros Hrule. unfold laser_pos_at. rewrite Hrule. unfold laser_rule_arc, cabs.
  cbn [fsqrt Num_R]. f_equal.
  pose proof (cdir_unit (fmul turn_speed (fadd t time_ofs))) as Hu.
  destruct (cdir _) as [c s]. destruct radius as [rx ry], (pos l) as [px py].
  unfold cabs2, csub, cadd, cmul_finite in *. cbn [re im] in *. to_R.
  replace ((px + (rx * c - ry * s) - px) * (px + (rx * c - ry * s) - px)
           + (py + (rx * s + ry * c) - py) * (py + (rx * s + ry * c) - py))
    with ((rx * rx + ry * ry) * (c * c + s * s)) by ring.
  rewrite Hu. ring.
Qed.

End ArcRule.

Section ArcRuleRun.
Local Open Scope R_scope.

Lemma laser_rule_arc_on_circle_witness :
  let cdir := fun angle : R => CMPLX (cos angle) (sin angle) in
  let l := mkLaser (CMPLX 200 100) (laser_rule_arc cdir (CMPLX 30 40) 2 1)
             4 100 0 1 10 1 0%Z 0%Z true false (mkRect (CMPLX 0 0) (CMPLX 0 0)) 0%Z 0%Z in
  cabs (csub (laser_pos_at l 3) (pos l)) = cabs (CMPLX 30 40).
Proof.
  refine (laser_rule_arc_on_circle (fun angle : R => CMPLX (cos angle) (sin angle)) _
            (CMPLX 30 40) 2 1 _ 3 _).
  - intros angle. unfold cabs2. cbn.
    pose proof (sin2_cos2 angle) as H. unfold Rsqr in H. lra.
  - reflexivity.
Defined.

End ArcRuleRun.

Section LaserLineDirection.
Local Open Scope R_scope.

(** X29: over the real numbers, for a laser with the linear rule and a
    timespan that is not 0, and a direction that is not the zero vector,
    [laserline_set_posdir(l, pos, dir)] makes the curve start at [pos]
    and end, at curve time [timespan], at the point [VIEWPORT_H] away
    from [pos] along [dir]: the end is [pos + VIEWPORT_H * dir / |dir|],
    at distance [|VIEWPORT_H|] from [pos]. *)
Theorem laserline_set_posdir_line (VIEWPORT_H : R) (l : Laser R) (p dir : cmplx R) :
  timespan l <> 0 -> dir <> CMPLX 0 0 ->
  let l' := laserline_set_posdir VIEWPORT_H l p dir in
  laser_pos_at l' 0 = p /\
  cscale (csub (laser_pos_at l' (timespan l)) p) (cabs dir) = cscale dir VIEWPORT_H /\
  cabs (csub (laser_pos_at l' (timespan l)) p) = Rabs VIEWPORT_H.
Proof.
  intros HT Hdir l'. subst l'.
  assert (Hd2 : 0 < cabs2 dir).
  { destruct dir as [dx dy]. unfold cabs2. cbn.
    assert (dx <> 0 \/ dy <> 0).
    { destruct (Req_dec_T dx 0) as [->|]; [|left; assumption].
      destruct (Req_dec_T dy 0) as [->|]; [|right; assumption].
      exfalso. apply Hdir. reflexivity. }
    destruct H; nra. }
  assert (Hs : 0 < cabs dir) by (apply sqrt_lt_R0; exact Hd2).
  assert (Hss : cabs dir * cabs dir = cabs2 dir) by (apply sqrt_sqrt; lra).
  unfold laserline_set_posdir, laserline_set_ab, laser_pos_at, set_pos_rule,
    laser_rule_linear, cnormalize.
  cbn [pos rule timespan].
  set (s := cabs dir) in *. clearbody s.
  destruct dir as [dx dy], p as [px py]. unfold cabs2 in *.
  unfold cadd, csub, cscale, cdivr, cabs, cabs2. cbn [re im] in *. to_R.
  set (T := timespan l) in *. clearbody T.
  assert (Ex : px + (px + dx / s * VIEWPORT_H - px) / T * T - px = dx / s * VIEWPORT_H)
    by (field; lra).
  assert (Ey : py + (py + dy / s * VIEWPORT_H - py) / T * T - py = dy / s * VIEWPORT_H)
    by (field; lra).
  split; [f_equal; ring|]. split.
  - rewrite Ex, Ey. f_equal; field; lra.
  - rewrite Ex, Ey.
    replace (dx / s * VIEWPORT_H * (dx / s * VIEWPORT_H)
             + dy / s * VIEWPORT_H * (dy / s * VIEWPORT_H))
      with (VIEWPORT_H * VIEWPORT_H * ((dx * dx + dy * dy) / (s * s))) by (field; lra).
    rewrite Hss. replace ((dx * dx + dy * dy) / (dx * dx + dy * dy)) with 1 by (field; lra).
    rewrite Rmult_1_r. apply sqrt_lem_1.
    + apply Rle_0_sqr.
    + apply Rabs_pos.
    + unfold Rabs. destruct (Rcase_abs VIEWPORT_H); ring.
Qed.

Lemma laserline_set_posdir_line_witness :
  let l' := laserline_set_posdir 560 Inputs.line_laser (CMPLX 10 20) (CMPLX 3 4) in
  laser_pos_at l' 0 = CMPLX 10 20 /\
  cscale (csub (laser_pos_at l' (timespan Inputs.line_laser)) (CMPLX 10 20))
    (cabs (CMPLX 3 4))
  = cscale (CMPLX 3 4) 560 /\
  cabs (csub (laser_pos_at l' (timespan Inputs.line_laser)) (CMPLX 10 20)) = Rabs 560.
Proof.
  apply (laserline_set_posdir_line 560 Inputs.line_laser (CMPLX 10 20) (CMPLX 3 4)).
  - cbn. lra.
  - intros H. injection H as H _. lra.
Defined.

End LaserLineDirection.

(** ** What the flags of [rect_rect_intersect] mean *)

Section RectFlags.
Local Open Scope R_scope.

Ltac R_eqs :=
  repeat match goal with
  | H : _ = true |- _ =>
      progress rewrite ?andb_true_iff, ?andb_false_iff, ?orb_true_iff, ?orb_false_iff,
        ?negb_true_iff, ?negb_false_iff, ?Reqb_true, ?Reqb_false,
        ?Rleb_true, ?Rleb_false, ?Rltb_true, ?Rltb_false in H
  | H : _ = false |- _ =>
      progress rewrite ?andb_true_iff, ?andb_false_iff, ?orb_true_iff, ?orb_false_iff,
        ?negb_true_iff, ?negb_false_iff, ?Reqb_true, ?Reqb_false,
        ?Rleb_true, ?Rleb_false, ?Rltb_true, ?Rltb_false in H
  end.

(** X30: over the real numbers, for two rectangles of positive width and
    height: with [edges = false], whatever [corners] is,
    [rect_rect_intersect] returns true exactly when some point lies
    strictly inside both rectangles; with [edges = true] and
    [corners = false] it returns true exactly when the rectangles have
    two distinct points in common, that is, when they share more than a
    single corner point. *)
Theorem rect_rect_intersect_flags (r1 r2 : Rect R) (corners : bool) :
  rect_left r1 < rect_right r1 -> rect_top r1 < rect_bottom r1 ->
  rect_left r2 < rect_right r2 -> rect_top r2 < rect_bottom r2 ->
  (rect_rect_intersect r1 r2 false corners = true <->
   exists p : cmplx R,
     (rect_left r1 < re p < rect_right r1 /\ rect_top r1 < im p < rect_bottom r1) /\
     (rect_left r2 < re p < rect_right r2 /\ rect_top r2 < im p < rect_bottom r2)) /\
  (rect_rect_intersect r1 r2 true false = true <->
   exists p q : cmplx R,
     p <> q /\
     point_in_rect p r1 = true /\ point_in_rect p r2 = true /\
     point_in_rect q r1 = true /\ point_in_rect q r2 = true).
Proof.
  destruct r1 as [[l1 t1] [rr1 b1]], r2 as [[l2 t2] [rr2 b2]].
  unfold rect_rect_intersect. rect_R. intros H1 H2 H3 H4. R_bools. cbn [negb andb].
  split.
  - split.
    + destruct (Rltb b1 t2 || Rltb b2 t1 || Rltb rr2 l1 || Rltb rr1 l2) eqn:E1;
        [discriminate|].
      destruct (Reqb b1 t2 || Reqb t1 b2 || Reqb l1 rr2 || Reqb rr1 l2) eqn:E2;
        [discriminate|].
      intros _. R_eqs.
      destruct E1 as [[[Ea Eb] Ec] Ed]. destruct E2 as [[[Fa Fb] Fc] Fd].
      assert (t2 < b1) by (destruct (Rle_lt_or_eq_dec _ _ Ea); [assumption|exfalso; apply Fa; lra]).
      assert (t1 < b2) by (destruct (Rle_lt_or_eq_dec _ _ Eb); [assumption|exfalso; apply Fb; lra]).
      assert (l1 < rr2) by (destruct (Rle_lt_or_eq_dec _ _ Ec); [assumption|exfalso; apply Fc; lra]).
      assert (l2 < rr1) by (destruct (Rle_lt_or_eq_dec _ _ Ed); [assumption|exfalso; apply Fd; lra]).
      exists (CMPLX ((Rmax l1 l2 + Rmin rr1 rr2) / 2) ((Rmax t1 t2 + Rmin b1 b2) / 2)).
      cbn [re im]. unfold Rmax, Rmin.
      destruct (Rle_dec l1 l2), (Rle_dec rr1 rr2), (Rle_dec t1 t2), (Rle_dec b1 b2); lra.
    + intros [[x y] [Hp1 Hp2]]. cbn [re im] in *.
      replace (Rltb b1 t2) with false by (symmetry; apply Rltb_false; lra).
      replace (Rltb b2 t1) with false by (symmetry; apply Rltb_false; lra).
      replace (Rltb rr2 l1) with false by (symmetry; apply Rltb_false; lra).
      replace (Rltb rr1 l2) with false by (symmetry; apply Rltb_false; lra).
      replace (Reqb b1 t2) with false by (symmetry; apply Reqb_false; lra).
      replace (Reqb t1 b2) with false by (symmetry; apply Reqb_false; lra).
      replace (Reqb l1 rr2) with false by (symmetry; apply Reqb_false; lra).
      replace (Reqb rr1 l2) with false by (symmetry; apply Reqb_false; lra).
      replace (Reqb l2 rr1) with false by (symmetry; apply Reqb_false; lra).
      replace (Reqb b2 t1) with false by (symmetry; apply Reqb_false; lra).
      cbn. destruct corners; reflexivity.
  - split.
    + destruct (Rltb b1 t2 || Rltb b2 t1 || Rltb rr2 l1 || Rltb rr1 l2) eqn:E1;
        [discriminate|].
      destruct (Reqb l1 rr2 && Reqb b1 t2 || Reqb l1 rr2 && Reqb b2 t1
                || Reqb l2 rr1 && Reqb b1 t2 || Reqb l2 rr1 && Reqb b2 t1) eqn:E2;
        [discriminate|].
      intros _. R_eqs.
      exists (CMPLX (Rmax l1 l2) (Rmax t1 t2)), (CMPLX (Rmin rr1 rr2) (Rmin b1 b2)).
      rewrite !point_in_rect_iff. rect_R.
      destruct E1 as [[[Ea Eb] Ec] Ed]. destruct E2 as [[[Fa Fb] Fc] Fd]. R_eqs.
      assert (Hne : Rmax l1 l2 <> Rmin rr1 rr2 \/ Rmax t1 t2 <> Rmin b1 b2).
      { destruct (Rle_lt_or_eq_dec _ _ Ea) as [Sa|Sa], (Rle_lt_or_eq_dec _ _ Eb) as [Sb|Sb],
                 (Rle_lt_or_eq_dec _ _ Ec) as [Sc|Sc], (Rle_lt_or_eq_dec _ _ Ed) as [Sd|Sd];
          try solve [exfalso; intuition congruence];
          unfold Rmax, Rmin;
          destruct (Rle_dec l1 l2), (Rle_dec rr1 rr2), (Rle_dec t1 t2), (Rle_dec b1 b2);
          first [left; lra | right; lra]. }
      split.
      * intros E. injection E as Ex Ey. destruct Hne; contradiction.
      * unfold Rmax, Rmin.
        destruct (Rle_dec l1 l2), (Rle_dec rr1 rr2), (Rle_dec t1 t2), (Rle_dec b1 b2); lra.
    + intros ([px py] & [qx qy] & Hne & Hp1 & Hp2 & Hq1 & Hq2).
      rewrite point_in_rect_iff in Hp1, Hp2, Hq1, Hq2. rect_R.
      replace (Rltb b1 t2) with false by (symmetry; apply Rltb_false; lra).
      replace (Rltb b2 t1) with false by (symmetry; apply Rltb_false; lra).
      replace (Rltb rr2 l1) with false by (symmetry; apply Rltb_false; lra).
      replace (Rltb rr1 l2) with false by (symmetry; apply Rltb_false; lra).
      cbn [orb].
      destruct (_ || _ || _ || _) eqn:E2; [|reflexivity]. exfalso.
      R_eqs. apply Hne.
      destruct E2 as [[[E2|E2]|E2]|E2]; R_eqs; destruct E2 as [Ea Eb]; f_equal; lra.
Qed.

Lemma rect_rect_intersect_flags_witness :
  let r1 := mkRect (CMPLX 0 0) (CMPLX 2 2) in
  let r2 := mkRect (CMPLX 2 1) (CMPLX 3 5) in
  (rect_rect_intersect r1 r2 false true = true <->
   exists p : cmplx R,
     (rect_left r1 < re p < rect_right r1 /\ rect_top r1 < im p < rect_bottom r1) /\
     (rect_left r2 < re p < rect_right r2 /\ rect_top r2 < im p < rect_bottom r2)) /\
  (rect_rect_intersect r1 r2 true false = true <->
   exists p q : cmplx R,
     p <> q /\
     point_in_rect p r1 = true /\ point_in_rect p r2 = true /\
     point_in_rect q r1 = true /\ point_in_rect q r2 = true).
Proof.
  apply (rect_rect_intersect_flags
           (mkRect (CMPLX 0 0) (CMPLX 2 2)) (mkRect (CMPLX 2 1) (CMPLX 3 5)) true);
    unfold rect_left, rect_right, rect_top, rect_bottom; cbn; lra.
Defined.

End RectFlags.
